(** * HashMap2 of simplehstore: a map of maps over one key/value table and
      one set table.

    The development embeds [HashMap2] (owner -> property key -> value) the
    way the Go code builds it: every (owner, key) pair becomes the single
    flat key [owner ++ fieldSep ++ key] of a [KeyValue] table, and every
    property key is recorded in a [Set] table of "encountered" keys.  The
    backing store is explicit state; Go's [(value, error)] results are an
    error monad over that state. *)

From Stdlib Require Import ZArith Ascii String.
From stdpp Require Import gmap strings list fin_maps.

#[local] Set Warnings "-clear-no-such-hyp".
Set Default Proof Using "Type".

Local Open Scope Z_scope.

(** ** Byte strings *)

(** Go strings are byte sequences; [string] is a list of 8-bit characters. *)

(** [const fieldSep = "¤"]: U+00A4, in UTF-8 the two bytes 0xC2 0xA4. *)
Definition fieldSep : string :=
  String (ascii_of_nat 194) (String (ascii_of_nat 164) EmptyString).

(** [strings.HasPrefix(s, prefix)]. *)
Fixpoint HasPrefix (s prefix : string) : bool :=
  match prefix, s with
  | EmptyString, _ => true
  | String a prefix', String b s' =>
      if Ascii.eqb a b then HasPrefix s' prefix' else false
  | String _ _, EmptyString => false
  end.

(** [strings.Index(s, substr)]: the byte index of the first occurrence of
    [substr] in [s], or -1. *)
Fixpoint Index (s substr : string) : Z :=
  if HasPrefix s substr then 0
  else match s with
       | EmptyString => -1
       | String _ s' =>
           let i := Index s' substr in
           if i <? 0 then -1 else i + 1
       end.

(** [strings.Contains(s, substr)] is [Index(s, substr) >= 0]. *)
Definition Contains (s substr : string) : bool := 0 <=? Index s substr.

(** The slice expression [s[:pos]]. *)
Definition slice_to (s : string) (pos : Z) : string :=
  String.substring 0 (Z.to_nat pos) s.

(** Modelled from the spec: [hasS] is not among the sources; [hasS(xs, x)]
    tells whether the string [x] is in the slice [xs] (a key that is "not
    already known" is one for which it is false). *)
Definition hasS (xs : list string) (x : string) : bool :=
  bool_decide (x ∈ xs).

(** ** Errors *)

(** The store's failures are opaque to [HashMap2]; it only tells the
    "no result" error apart (with [noResult]) and builds messages of its
    own with [fmt.Errorf]. *)
Inductive error : Type :=
| NotFound
| BackingStoreError
| TransactionError
| Errorf (msg : string).

#[global] Instance error_eq_dec : EqDecision error.
Proof. solve_decision. Defined.

(** Modelled from the spec: [noResult] is not among the sources; it holds
    for the error with which a read reports a missing key, and for no
    other. *)
Definition noResult (err : error) : bool :=
  match err with
  | NotFound => true
  | _ => false
  end.

(** [err.Error()], used where an error is formatted into another. *)
Definition Error (err : error) : string :=
  match err with
  | NotFound => "no result"
  | BackingStoreError => "backing store failure"
  | TransactionError => "transaction failure"
  | Errorf msg => msg
  end.

(** ** The backing store *)

(** What the store did, in order.  The log is how the order of effects
    (index additions, begin, writes, commit or rollback) is observed. *)
Inductive event : Type :=
| EvPropAdd (prop : string)
| EvBegin
| EvWrite (key value : string)
| EvCommit
| EvRollback.

#[global] Instance event_eq_dec : EqDecision event.
Proof. solve_decision. Defined.

(** One host with the two tables of one [HashMap2]:
    - [kvTable], the table of [hm2.KeyValue()] ([None] once dropped);
    - [propTable], the table of [hm2.PropSet()] ([None] once dropped);
    - [txPending], the writes buffered by the open transaction, if any;
    - [faults], the outcome of the coming store calls ([true]: the call
      fails without effect), each fallible call consuming one entry;
      calls beyond the end of the list do not fail spuriously;
    - [events], the log, most recent first. *)
Record World : Type := mkWorld {
  rawUTF8 : bool;
  kvTable : option (gmap string string);
  propTable : option (gset string);
  txPending : option (list (string * string));
  faults : list bool;
  events : list event
}.

Definition set_kvTable (t : option (gmap string string)) (w : World) : World :=
  mkWorld (rawUTF8 w) t (propTable w) (txPending w) (faults w) (events w).
Definition set_propTable (t : option (gset string)) (w : World) : World :=
  mkWorld (rawUTF8 w) (kvTable w) t (txPending w) (faults w) (events w).
Definition set_txPending (p : option (list (string * string))) (w : World) : World :=
  mkWorld (rawUTF8 w) (kvTable w) (propTable w) p (faults w) (events w).
Definition set_faults (f : list bool) (w : World) : World :=
  mkWorld (rawUTF8 w) (kvTable w) (propTable w) (txPending w) f (events w).
Definition log (e : event) (w : World) : World :=
  mkWorld (rawUTF8 w) (kvTable w) (propTable w) (txPending w) (faults w)
          (e :: events w).

(** ** The monad of store operations *)

(** A Go function returning [(A, error)] against the store: it may change
    the store whether or not it fails. *)
Definition M (A : Type) : Type := World -> (error + A) * World.

Definition ret {A} (a : A) : M A := fun w => (inr a, w).
Definition fail {A} (e : error) : M A := fun w => (inl e, w).
Definition bind {A B} (c : M A) (k : A -> M B) : M B :=
  fun w => match c w with
           | (inl e, w') => (inl e, w')
           | (inr a, w') => k a w'
           end.

(** Run [c] and hand its error to the caller as a value, for the places
    where the code looks at [err] rather than returning it. *)
Definition attempt {A} (c : M A) : M (error + A) :=
  fun w => let '(r, w') := c w in (inr r, w').

Definition get : M World := fun w => (inr w, w).
Definition modify (f : World -> World) : M unit := fun w => (inr tt, f w).

Notation "x <- c ;; k" := (bind c (fun x => k))
  (at level 100, c at next level, right associativity).
Notation "c ;;; k" := (bind c (fun _ => k))
  (at level 100, right associativity).

(** The store call about to be made fails with [e] when the next fault
    entry says so. *)
Definition tick (e : error) : M unit :=
  fun w => match faults w with
           | [] => (inr tt, w)
           | false :: fs => (inr tt, set_faults fs w)
           | true :: fs => (inl e, set_faults fs w)
           end.

Section Store.

(** [Encode] and [Decode] are the value-encoding collaborator; only their
    calls appear in the code of [HashMap2]. *)
Variable Encode : string -> string.
Variable Decode : string -> string.

(** ** Transactions *)

(** Modelled from the spec: [host.db.BeginTx], [transaction.Commit] and
    [transaction.Rollback] belong to the host, which is not among the
    sources.  A transaction buffers the writes issued against it; commit
    applies them to the data table in order, rollback (or a failed commit)
    discards them.  Begin and commit can fail; the result of a rollback is
    ignored by every caller, so it is not a fallible call here. *)
Definition BeginTx : M unit :=
  tick TransactionError;;;
  modify (fun w => log EvBegin (set_txPending (Some []) w)).

Definition apply_writes (ws : list (string * string)) (t : gmap string string)
  : gmap string string :=
  foldl (fun t kv => <[kv.1 := kv.2]> t) t ws.

Definition Commit : M unit :=
  fun w =>
    match txPending w with
    | None => (inl TransactionError, w)
    | Some ws =>
        match tick TransactionError w with
        | (inl e, w') => (inl e, set_txPending None w')
        | (inr _, w') =>
            (inr tt, log EvCommit
                       (set_txPending None
                          (set_kvTable (apply_writes ws <$> kvTable w') w')))
        end
    end.

Definition Rollback : M unit :=
  modify (fun w => log EvRollback (set_txPending None w)).

(** ** KeyValue (the flat store) *)

(** Modelled from the spec: the methods of [KeyValue] are not among the
    sources.  [set] is an upsert, [get] on a missing key reports
    [NotFound], deleting a missing key is a no-op, enumeration returns the
    keys in an unspecified order; a dropped table fails every call.  A
    value is decoded on read when the host does not store raw UTF-8.
    [setWithTransaction] and [updateWithTransaction] both buffer one
    upsert in the open transaction. *)
Definition KeyValue_table : M (gmap string string) :=
  tick BackingStoreError;;;
  w <- get;;
  match kvTable w with
  | None => fail BackingStoreError
  | Some t => ret t
  end.

Definition KeyValue_Get (key : string) : M string :=
  t <- KeyValue_table;;
  match t !! key with
  | None => fail NotFound
  | Some v =>
      w <- get;;
      ret (if rawUTF8 w then v else Decode v)
  end.

Definition KeyValue_write (key value : string) : M unit :=
  _ <- KeyValue_table;;
  w <- get;;
  match txPending w with
  | None => fail TransactionError
  | Some ws =>
      modify (fun w => log (EvWrite key value)
                           (set_txPending (Some (ws ++ [(key, value)])) w))
  end.

Definition KeyValue_setWithTransaction (key value : string) : M unit :=
  KeyValue_write key value.

Definition KeyValue_updateWithTransaction (key value : string) : M unit :=
  KeyValue_write key value.

Definition KeyValue_Del (key : string) : M unit :=
  t <- KeyValue_table;;
  modify (set_kvTable (Some (delete key t))).

Definition KeyValue_All : M (list string) :=
  t <- KeyValue_table;;
  ret (elements (dom t)).

Definition KeyValue_Clear : M unit :=
  _ <- KeyValue_table;;
  modify (set_kvTable (Some ∅)).

Definition KeyValue_Remove : M unit :=
  _ <- KeyValue_table;;
  modify (set_kvTable None).

(** ** Set (the unique set of strings) *)

(** Modelled from the spec: the methods of [Set] are not among the
    sources.  [add] is idempotent, enumeration returns each member once in
    an unspecified order; a dropped table fails every call. *)
Definition Set_table : M (gset string) :=
  tick BackingStoreError;;;
  w <- get;;
  match propTable w with
  | None => fail BackingStoreError
  | Some s => ret s
  end.

Definition Set_Add (value : string) : M unit :=
  s <- Set_table;;
  modify (fun w => log (EvPropAdd value)
                       (set_propTable (Some ({[value]} ∪ s)) w)).

Definition Set_All : M (list string) :=
  s <- Set_table;;
  ret (elements s).

Definition Set_Clear : M unit :=
  _ <- Set_table;;
  modify (set_propTable (Some ∅)).

Definition Set_Remove : M unit :=
  _ <- Set_table;;
  modify (set_propTable None).

(** ** HashMap2 *)

(** [hm2.KeyValue()] and [hm2.PropSet()] select the two tables of the
    world; the operations below are the methods of [*HashMap2]. *)

(** A Go map handed to [range] is given as the sequence of entries in the
    order the loop visits them; every order of the entries is a possible
    run.  The diagnostic prints under [Verbose] are left out. *)

(** [if err := c; err != nil { transaction.Rollback(); return err }] *)
Definition orRollback {A} (c : M A) : M A :=
  r <- attempt c;;
  match r with
  | inl err => Rollback;;; fail err
  | inr a => ret a
  end.

Definition HashMap2_setPropWithTransaction
    (owner key value : string) (checkForFieldSep : bool) : M unit :=
  (if checkForFieldSep then
     if Contains owner fieldSep then
       fail (Errorf ("owner can not contain " +:+ fieldSep))
     else if Contains key fieldSep then
       fail (Errorf ("key can not contain " +:+ fieldSep))
     else ret tt
   else ret tt);;;
  (* Add the key to the property set, without using a transaction *)
  Set_Add key;;;
  w <- get;;
  let encodedValue := if negb (rawUTF8 w) then Encode value else value in
  KeyValue_setWithTransaction ((owner +:+ fieldSep) +:+ key) encodedValue.

(** The body of [for k, v := range m] in [SetMap]. *)
Fixpoint HashMap2_SetMap_range
    (owner : string) (allProperties : list string)
    (m : list (string * string)) : M unit :=
  match m with
  | [] => ret tt
  | (k, v) :: m' =>
      orRollback (HashMap2_setPropWithTransaction owner k v true);;;
      (if negb (hasS allProperties k) then orRollback (Set_Add k)
       else ret tt);;;
      HashMap2_SetMap_range owner allProperties m'
  end.

Definition HashMap2_SetMap (owner : string) (m : list (string * string))
  : M unit :=
  allProperties <- Set_All;;
  BeginTx;;;
  HashMap2_SetMap_range owner allProperties m;;;
  Commit.

Definition HashMap2_Set (owner key value : string) : M unit :=
  HashMap2_SetMap owner [(key, value)].

(** The first pass of [SetLargeMap]: the property keys that are neither
    in [props] nor already collected, in the order met. *)
Definition findNewProps (props : list string)
    (allProperties : list (string * list (string * string))) : list string :=
  foldl (fun newProps ownerMap =>
           foldl (fun newProps kv =>
                    if negb (hasS props kv.1) && negb (hasS newProps kv.1)
                    then newProps ++ [kv.1]
                    else newProps)
                 newProps ownerMap.2)
        [] allProperties.

(** [for _, prop := range newProps { propSet.Add(prop) }] *)
Fixpoint storeNewProps (newProps : list string) : M unit :=
  match newProps with
  | [] => ret tt
  | prop :: rest => Set_Add prop;;; storeNewProps rest
  end.

(** [for k, value := range propMap] of the second pass. *)
Fixpoint SetLargeMap_owner (owner : string) (propMap : list (string * string))
  : M unit :=
  match propMap with
  | [] => ret tt
  | (k, value) :: rest =>
      w <- get;;
      let encodedValue := if negb (rawUTF8 w) then Encode value else value in
      orRollback (KeyValue_updateWithTransaction
                    ((owner +:+ fieldSep) +:+ k) encodedValue);;;
      SetLargeMap_owner owner rest
  end.

(** [for owner, propMap := range allProperties] of the second pass. *)
Fixpoint SetLargeMap_range
    (allProperties : list (string * list (string * string))) : M unit :=
  match allProperties with
  | [] => ret tt
  | (owner, propMap) :: rest =>
      SetLargeMap_owner owner propMap;;;
      SetLargeMap_range rest
  end.

(** [SetLargeMap] ranges over [allProperties] twice, once to find the new
    property keys and once to issue the writes.  Go fixes no order for a
    [range] over a map, and the two loops need not agree: [firstPass] is
    the map in the order in which the first loop visits the owners and the
    keys of each owner, [secondPass] the map in the order of the second
    loop.  Two orders of one map are related by [same_map] below. *)
Definition HashMap2_SetLargeMap
    (firstPass secondPass : list (string * list (string * string)))
  : M unit :=
  props <- Set_All;;
  let newProps := findNewProps props firstPass in
  storeNewProps newProps;;;
  BeginTx;;;
  SetLargeMap_range secondPass;;;
  Commit.

Definition HashMap2_Get (owner key : string) : M string :=
  KeyValue_Get ((owner +:+ fieldSep) +:+ key).

Definition HashMap2_Has (owner key : string) : M bool :=
  r <- attempt (KeyValue_Get ((owner +:+ fieldSep) +:+ key));;
  match r with
  | inl err =>
      if noResult err then ret false   (* just got no results *)
      else fail err                    (* an actual error *)
  | inr s =>
      if decide (s = "") then ret false else ret true
  end.

Definition HashMap2_AllEncounteredKeys : M (list string) := Set_All.

(** [for _, key := range allProps] of [Keys]. *)
Fixpoint Keys_range (owner : string) (allProps allKeys : list string)
  : M (list string) :=
  match allProps with
  | [] => ret allKeys
  | key :: rest =>
      r <- attempt (HashMap2_Has owner key);;
      match r with
      | inr true => Keys_range owner rest (allKeys ++ [key])
      | _ => Keys_range owner rest allKeys
      end
  end.

Definition HashMap2_Keys (owner : string) : M (list string) :=
  allProps <- Set_All;;
  Keys_range owner allProps [].

(** [for _, ownerAndKey := range allOwnersAndKeys] of [All]. *)
Definition collectOwners (allOwnersAndKeys : list string) : gmap string bool :=
  foldl (fun foundOwners ownerAndKey =>
           let pos := Index ownerAndKey fieldSep in
           if negb (pos =? -1) then
             let owner := slice_to ownerAndKey pos in
             match foundOwners !! owner with
             | None => <[owner := true]> foundOwners
             | Some _ => foundOwners
             end
           else foundOwners)
        ∅ allOwnersAndKeys.

Definition HashMap2_All : M (list string) :=
  allOwnersAndKeys <- KeyValue_All;;
  let foundOwners := collectOwners allOwnersAndKeys in
  ret (elements (dom foundOwners)).

Definition HashMap2_Count : M Z :=
  a <- HashMap2_All;;
  ret (Z.of_nat (length a)).

Definition HashMap2_DelKey (owner key : string) : M unit :=
  KeyValue_Del ((owner +:+ fieldSep) +:+ key).

(** [for _, key := range allProps] of [Del]. *)
Fixpoint Del_range (owner : string) (allProps : list string) : M unit :=
  match allProps with
  | [] => ret tt
  | key :: rest =>
      KeyValue_Del ((owner +:+ fieldSep) +:+ key);;;
      Del_range owner rest
  end.

Definition HashMap2_Del (owner : string) : M unit :=
  allProps <- Set_All;;
  Del_range owner allProps.

Definition HashMap2_Remove : M unit :=
  _ <- attempt Set_Remove;;
  r <- attempt KeyValue_Remove;;
  match r with
  | inl err => fail (Errorf ("could not remove kv: " +:+ Error err))
  | inr _ => ret tt
  end.

Definition HashMap2_Clear : M unit :=
  _ <- attempt Set_Clear;;
  r <- attempt KeyValue_Clear;;
  match r with
  | inl err => fail err
  | inr _ => ret tt
  end.

(** *** The other methods of HashMap2 *)

(** Modelled from the spec: [getWithTransaction] is not among the sources;
    it is the read of [Get] issued against the open transaction, so it
    sees the writes the transaction has buffered. *)
Definition KeyValue_getWithTransaction (key : string) : M string :=
  t <- KeyValue_table;;
  w <- get;;
  match txPending w with
  | None => fail TransactionError
  | Some ws =>
      match apply_writes ws t !! key with
      | None => fail NotFound
      | Some v => ret (if rawUTF8 w then v else Decode v)
      end
  end.

(** [for _, key := range keys] of [GetMap].  [GetMap] returns the results
    gathered so far together with the error, so the result here is the Go
    pair [(results, err)]. *)
Fixpoint GetMap_range (owner : string) (keys : list string)
    (results : gmap string string) : M (gmap string string * option error) :=
  match keys with
  | [] => ret (results, None)
  | key :: rest =>
      r <- attempt (KeyValue_getWithTransaction
                      ((owner +:+ fieldSep) +:+ key));;
      match r with
      | inl err => Rollback;;; ret (results, Some err)
      | inr s => GetMap_range owner rest (<[key := s]> results)
      end
  end.

Definition HashMap2_GetMap (owner : string) (keys : list string)
  : M (gmap string string * option error) :=
  r <- attempt BeginTx;;
  match r with
  | inl err => ret (∅, Some err)
  | inr _ =>
      res <- GetMap_range owner keys ∅;;
      match res.2 with
      | Some err => ret res
      | None => _ <- attempt Commit;; ret (res.1, None)
      end
  end.

(** [for _, key := range allProps] of [Exists]. *)
Fixpoint Exists_range (owner : string) (allProps : list string) : M bool :=
  match allProps with
  | [] => ret false
  | key :: rest =>
      r <- attempt (HashMap2_Has owner key);;
      match r with
      | inr true => ret true
      | _ => Exists_range owner rest
      end
  end.

Definition HashMap2_Exists (owner : string) : M bool :=
  allProps <- Set_All;;
  Exists_range owner allProps.

(** [for _, owner := range allOwners] of [AllWhere]. *)
Fixpoint AllWhere_range (key value : string)
    (allOwners foundOwners : list string) : M (list string) :=
  match allOwners with
  | [] => ret foundOwners
  | owner :: rest =>
      r <- attempt (HashMap2_Get owner key);;
      match r with
      | inr v =>
          if decide (v = value)
          then AllWhere_range key value rest (foundOwners ++ [owner])
          else AllWhere_range key value rest foundOwners
      | inl _ => AllWhere_range key value rest foundOwners
      end
  end.

Definition HashMap2_AllWhere (key value : string) : M (list string) :=
  allOwners <- HashMap2_All;;
  AllWhere_range key value allOwners [].

Definition HashMap2_CountInt64 : M Z :=
  a <- HashMap2_All;;
  ret (Z.of_nat (length a)).

End Store.

(** ** Vocabulary of the properties *)

Section Vocabulary.

Variable Encode : string -> string.
Variable Decode : string -> string.

(** [wp c w Q]: running [c] from [w] ends in a result and a world that
    satisfy [Q].  Every run ends: the operations are total functions. *)
Definition wp {A} (c : M A) (w : World) (Q : error + A -> World -> Prop)
  : Prop :=
  Q (c w).1 (c w).2.

(** The world after the next fault entry has been consumed. *)
Definition pop (w : World) : World := set_faults (tail (faults w)) w.

(** Whether the next store call fails. *)
Definition next_fails (w : World) : bool := hd false (faults w).

(** One entry of the map passes the checks of [setPropWithTransaction]. *)
Definition valid_entry (owner : string) (kv : string * string) : bool :=
  negb (Contains owner fieldSep) && negb (Contains kv.1 fieldSep).

(** The two errors built in [setPropWithTransaction]. *)
Definition validation_error (e : error) : Prop :=
  e = Errorf ("owner can not contain " +:+ fieldSep) \/
  e = Errorf ("key can not contain " +:+ fieldSep).

(** [o] is what precedes the first occurrence of the separator in [ck]. *)
Definition first_split (ck o rest : string) : Prop :=
  ck = o +:+ (fieldSep +:+ rest) /\
  forall o' rest', ck = o' +:+ (fieldSep +:+ rest') ->
                   (String.length o <= String.length o')%nat.

(** The owner part of a composite key, as [All] cuts it out. *)
Definition owner_of (ck : string) : option string :=
  let pos := Index ck fieldSep in
  if pos =? -1 then None else Some (slice_to ck pos).

(** The distinct owners of a data table. *)
Definition owners (t : gmap string string) : gset string :=
  set_omap owner_of (dom t).

(** A map right after [Clear()]: both tables in place and empty. *)
Definition empty_store (raw : bool) : World :=
  mkWorld raw (Some ∅) (Some ∅) None [] [].

(** The world after running [c]. *)
Definition after {A} (c : M A) (w : World) : World := (c w).2.

(** The data table as a set of keys, the encountered keys as a set. *)
Definition stored_keys (w : World) : gset string :=
  from_option dom ∅ (kvTable w).
Definition encountered (w : World) : gset string :=
  default ∅ (propTable w).

(** Every property key of every composite key of the data table is among
    the encountered keys. *)
Definition index_covers (w : World) : Prop :=
  forall owner key,
    (owner +:+ fieldSep) +:+ key ∈ stored_keys w -> key ∈ encountered w.

(** [w'] comes after [w] with the data table untouched and nothing
    committed in between. *)
Definition no_commit (w w' : World) : Prop :=
  kvTable w' = kvTable w /\
  exists evs, events w' = evs ++ events w /\ EvCommit ∉ evs.

(** The property keys of the input, in the order of the first pass. *)
Definition keys_of (allProperties : list (string * list (string * string)))
  : list string :=
  flat_map (fun om => fst <$> om.2) allProperties.

(** The log entry of a buffered write. *)
Definition write_event (kv : string * string) : event := EvWrite kv.1 kv.2.

(** The writes buffered by the open transaction are covered as well. *)
Definition pending_covered (w : World) : Prop :=
  forall ws, txPending w = Some ws ->
  forall ck v, (ck, v) ∈ ws ->
  forall o k, ck = (o +:+ fieldSep) +:+ k -> k ∈ encountered w.

(** The invariant of the write loops. *)
Definition covered (w : World) : Prop := index_covers w /\ pending_covered w.

(** No owner and no key of the input contains the separator. *)
Definition separator_free
    (input : list (string * list (string * string))) : Prop :=
  forall owner pm k, (owner, pm) ∈ input -> k ∈ pm.*1 ->
    Contains owner fieldSep = false /\ Contains k fieldSep = false.

(** The value as written to the data table. *)
Definition stored (w : World) (value : string) : string :=
  if negb (rawUTF8 w) then Encode value else value.

(** The row written for the entry [kv] of [owner]. *)
Definition composite (owner : string) (kv : string * string) (w : World)
  : string * string :=
  ((owner +:+ fieldSep) +:+ kv.1, stored w kv.2).

(** [Clear()] then [Set("bob","password","x")], [Set("bob","number","42")]
    and [Set("alice","number","42")]. *)
Definition three_sets (raw : bool) : World :=
  after (HashMap2_Set Encode "alice" "number" "42")
    (after (HashMap2_Set Encode "bob" "number" "42")
       (after (HashMap2_Set Encode "bob" "password" "x") (empty_store raw))).

(** The writes of the second pass, in order. *)
Definition writes_of (w : World)
    (allProperties : list (string * list (string * string)))
  : list (string * string) :=
  flat_map (fun om => (fun kv => composite om.1 kv w) <$> om.2) allProperties.

(** Two orders in which [range] can visit one map of maps: the same
    owners in any order, each with the same entries in any order. *)
Definition same_map (a b : list (string * list (string * string))) : Prop :=
  exists mid,
    a ≡ₚ mid /\ Forall2 (fun x y => x.1 = y.1 /\ x.2 ≡ₚ y.2) mid b.

(** What a run of [SetLargeMap] does to the store.  [evs] is what the run
    did, in order: the additions follow the order of the first pass, the
    writes the order of the second.  A run that returns nil has added the
    new property keys, begun the transaction, issued every write and
    committed.  A run that returns an error has left the data table as it
    was, and has either stopped in the additions or at the begin of the
    transaction, or rolled back at the first write that failed, or failed
    to commit. *)
Definition SetLargeMap_outcome (w : World)
    (firstPass secondPass : list (string * list (string * string)))
    (r : error + unit) (w' : World) : Prop :=
  let newProps := findNewProps (elements (encountered w)) firstPass in
  let writes := writes_of w secondPass in
  rawUTF8 w' = rawUTF8 w /\
  encountered w ⊆ encountered w' /\
  exists evs,
    events w' = reverse evs ++ events w /\
    match r with
    | inr _ =>
        evs = (EvPropAdd <$> newProps) ++ [EvBegin] ++
              (write_event <$> writes) ++ [EvCommit] /\
        kvTable w' = apply_writes writes <$> kvTable w /\
        propTable w' = Some (list_to_set newProps ∪ encountered w) /\
        txPending w' = None
    | inl e =>
        (e = BackingStoreError \/ e = TransactionError) /\
        kvTable w' = kvTable w /\
        ((exists done rest,
            newProps = done ++ rest /\ evs = EvPropAdd <$> done) \/
         (exists done rest,
            writes = done ++ rest /\ rest <> [] /\
            evs = (EvPropAdd <$> newProps) ++ [EvBegin] ++
                  (write_event <$> done) ++ [EvRollback]) \/
         (e = TransactionError /\
          evs = (EvPropAdd <$> newProps) ++ [EvBegin] ++
                (write_event <$> writes)))
    end.

(** The value as read back from the data table. *)
Definition loaded (w : World) (v : string) : string :=
  if rawUTF8 w then v else Decode v.

(** What [Has] answers, read off the data table. *)
Definition held (w : World) (t : gmap string string) (owner key : string)
  : bool :=
  match t !! ((owner +:+ fieldSep) +:+ key) with
  | Some v => bool_decide (loaded w v <> "")
  | None => false
  end.

(** [w'] differs from [w] at most in the faults consumed: a run from [w]
    to [w'] has read only. *)
Definition same_store (w w' : World) : Prop :=
  rawUTF8 w' = rawUTF8 w /\ kvTable w' = kvTable w /\
  propTable w' = propTable w /\ txPending w' = txPending w /\
  events w' = events w.

(** The (owner, key) pairs of the input of [SetLargeMap]. *)
Definition pairs_of (allProperties : list (string * list (string * string)))
  : list (string * string) :=
  flat_map (fun om => (fun kv => (om.1, kv.1)) <$> om.2) allProperties.

End Vocabulary.

(** ** Sample stores *)

(** A sample encoding for the runs below: a tag in front of the value. *)
Definition tagEncode (s : string) : string := String "#" s.
Definition tagDecode (s : string) : string :=
  match s with
  | EmptyString => EmptyString
  | String _ r => r
  end.

(** An owner with the separator in it, and a key with the separator. *)
Definition owner_with_sep : string := "a" +:+ fieldSep +:+ "b".
Definition key_with_sep : string := "b" +:+ fieldSep +:+ "c".

(** The map after [Set("bob", "a", "")] on an empty map. *)
Definition bob_holds_empty : World :=
  after (HashMap2_Set tagEncode "bob" "a" "") (empty_store true).

(** A map in which "bob" holds the key "a", with a store in good order. *)
Definition sample_store : World :=
  mkWorld true
    (Some {[ ("bob" +:+ fieldSep) +:+ "a" := "1" ]})
    (Some {[ "a" ]}) None [] [].

(** "bob" holds the keys "a" and "b"; the store answers the next two
    calls and fails at the third. *)
Definition bob_table : gmap string string :=
  {[ ("bob" +:+ fieldSep) +:+ "a" := "1"; ("bob" +:+ fieldSep) +:+ "b" := "2" ]}.
Definition failing_store : World :=
  mkWorld true (Some bob_table) (Some {[ "a"; "b" ]}) None
    [false; false; true] [].

(** One map of two owners, as two loops may range over it: the owners and
    the keys of the first owner in opposite orders. *)
Definition bulk_first : list (string * list (string * string)) :=
  [(owner_with_sep, [(key_with_sep, "v"); ("x", "1")]); ("bob", [("x", "2")])].
Definition bulk_second : list (string * list (string * string)) :=
  [("bob", [("x", "2")]); (owner_with_sep, [("x", "1"); (key_with_sep, "v")])].

(** A store whose table of encountered keys has been dropped. *)
Definition index_dropped : World :=
  mkWorld true (Some ∅) None None [] [].

(** * Properties *)

(** ** Strings *)

Lemma append_nil_l (s : string) : "" +:+ s = s.
Proof. reflexivity. Qed.

Lemma append_cons (x : ascii) (a b : string) :
  String x a +:+ b = String x (a +:+ b).
Proof. reflexivity. Qed.

Lemma fieldSep_append (s : string) :
  fieldSep +:+ s = String (ascii_of_nat 194) (String (ascii_of_nat 164) s).
Proof. reflexivity. Qed.

Create Rewrite HintDb strapp.
#[local] Hint Rewrite append_nil_l append_cons fieldSep_append : strapp.

Lemma append_assoc (a b c : string) : (a +:+ b) +:+ c = a +:+ (b +:+ c).
Proof.
  induction a as [|x a IH]; [done |]. rewrite !append_cons. by rewrite IH.
Qed.

Lemma length_append (a b : string) :
  String.length (a +:+ b) = (String.length a + String.length b)%nat.
Proof.
  induction a as [|x a IH]; [done |]. rewrite append_cons. simpl.
  by rewrite IH.
Qed.

Lemma HasPrefix_iff (s p : string) :
  HasPrefix s p = true <-> exists r, s = p +:+ r.
Proof.
  revert s. induction p as [|x p IH]; intros s.
  - split; [intros _; by exists s | by destruct s].
  - destruct s as [|y s]; simpl.
    + split; [done | by intros [r Hr]].
    + destruct (Ascii.eqb_spec x y) as [->|Hxy].
      * rewrite IH. split; intros [r Hr]; exists r;
          rewrite append_cons in *; congruence.
      * split; [done | intros [r Hr]; rewrite append_cons in Hr; congruence].
Qed.

Lemma Index_nil (sep : string) :
  Index "" sep = if HasPrefix "" sep then 0 else -1.
Proof. reflexivity. Qed.

Lemma Index_cons (x : ascii) (s sep : string) :
  Index (String x s) sep =
    if HasPrefix (String x s) sep then 0
    else if Index s sep <? 0 then -1 else Index s sep + 1.
Proof. reflexivity. Qed.

Lemma Index_lower (s sep : string) : -1 <= Index s sep.
Proof.
  induction s as [|x s IH]; [rewrite Index_nil | rewrite Index_cons].
  - destruct (HasPrefix "" sep); lia.
  - destruct (HasPrefix (String x s) sep); [lia |].
    destruct (Z.ltb_spec (Index s sep) 0); lia.
Qed.

(** [Index] finds an occurrence, and the first one. *)
Lemma Index_found (s sep : string) (i : Z) :
  Index s sep = i -> 0 <= i ->
  exists a b, s = a +:+ (sep +:+ b) /\ Z.of_nat (String.length a) = i /\
              slice_to s i = a /\
              forall a' b', s = a' +:+ (sep +:+ b') ->
                            (String.length a <= String.length a')%nat.
Proof.
  revert i.
  induction s as [|x s IH]; intros i; [rewrite Index_nil | rewrite Index_cons].
  - destruct (HasPrefix "" sep) eqn:Hp; [|lia].
    intros <- _. apply HasPrefix_iff in Hp as [r Hr].
    exists "", r. repeat split; simpl; try done. intros; lia.
  - destruct (HasPrefix (String x s) sep) eqn:Hp.
    + intros <- _. apply HasPrefix_iff in Hp as [r Hr].
      exists "", r. repeat split; simpl; try done. intros; lia.
    + destruct (Z.ltb_spec (Index s sep) 0) as [Hlt|Hge]; [lia |].
      intros <- Hi.
      destruct (IH (Index s sep) eq_refl Hge) as (a & b & Hs & Hlen & Hsl & Hmin).
      exists (String x a), b. repeat split.
      * rewrite append_cons. by rewrite <- Hs.
      * simpl String.length. lia.
      * unfold slice_to in *.
        replace (Z.to_nat (Index s sep + 1)) with (S (Z.to_nat (Index s sep)))
          by lia.
        simpl. by rewrite Hsl.
      * intros a' b' Heq. destruct a' as [|y a'].
        -- assert (HasPrefix (String x s) sep = true) as Hp'
             by (apply HasPrefix_iff; by exists b').
           congruence.
        -- rewrite append_cons in Heq.
           injection Heq as _ Heq. apply Hmin in Heq. simpl. lia.
Qed.

Lemma Index_absent (s sep : string) :
  Index s sep = -1 -> forall a b, s <> a +:+ (sep +:+ b).
Proof.
  induction s as [|x s IH]; [rewrite Index_nil | rewrite Index_cons].
  - destruct (HasPrefix "" sep) eqn:Hp; [done |].
    intros _ a b Heq. destruct a; [|done].
    assert (HasPrefix "" sep = true) by (apply HasPrefix_iff; by exists b).
    congruence.
  - destruct (HasPrefix (String x s) sep) eqn:Hp; [done |].
    destruct (Z.ltb_spec (Index s sep) 0) as [Hlt|Hge].
    + intros _ a b Heq. destruct a as [|y a].
      * assert (HasPrefix (String x s) sep = true)
          by (apply HasPrefix_iff; by exists b).
        congruence.
      * rewrite append_cons in Heq. injection Heq as _ Heq.
        revert Heq. apply IH.
        pose proof (Index_lower s sep). lia.
    + pose proof (Index_lower s sep). lia.
Qed.

Lemma Contains_false (s sep : string) :
  Contains s sep = false <-> forall a b, s <> a +:+ (sep +:+ b).
Proof.
  unfold Contains. split.
  - intros H. apply Index_absent. pose proof (Index_lower s sep).
    apply Z.leb_gt in H. lia.
  - intros H. apply Z.leb_gt.
    destruct (Z.ltb_spec (Index s sep) 0) as [|Hge]; [done |].
    destruct (Index_found s sep _ eq_refl Hge) as (a & b & Hs & _).
    by apply H in Hs.
Qed.

Lemma Contains_true (s sep : string) :
  Contains s sep = true <-> exists a b, s = a +:+ (sep +:+ b).
Proof.
  split.
  - intros H. unfold Contains in H. apply Z.leb_le in H.
    destruct (Index_found s sep _ eq_refl H) as (a & b & Hs & _). eauto.
  - intros (a & b & Hs). destruct (Contains s sep) eqn:E; [done |].
    rewrite Contains_false in E. by apply E in Hs.
Qed.

(** Without the separator in [owner] and [key], the composite key splits
    in one way only. *)
Lemma composite_inj (owner key o k : string) :
  Contains owner fieldSep = false -> Contains key fieldSep = false ->
  (owner +:+ fieldSep) +:+ key = (o +:+ fieldSep) +:+ k ->
  o = owner /\ k = key.
Proof.
  rewrite !append_assoc. intros Ho Hk. revert o.
  induction owner as [|x owner IH]; intros o Heq.
  - destruct o as [|y o]; autorewrite with strapp in Heq.
    + injection Heq as ->. done.
    + injection Heq as <- Heq. destruct o as [|z o];
        autorewrite with strapp in Heq.
      * injection Heq as Heq. vm_compute in Heq. discriminate Heq.
      * injection Heq as <- Heq. rewrite Contains_false in Hk.
        by apply Hk in Heq.
  - destruct o as [|y o]; autorewrite with strapp in Heq.
    + injection Heq as -> Heq. destruct owner as [|z owner];
        autorewrite with strapp in Heq.
      * injection Heq as Heq. vm_compute in Heq. discriminate Heq.
      * injection Heq as -> Heq. rewrite Contains_false in Ho.
        exfalso. apply (Ho "" owner). done.
    + injection Heq as <- Heq.
      assert (Contains owner fieldSep = false) as Ho'.
      { rewrite Contains_false in Ho |- *. intros a b ->.
        apply (Ho (String x a) b). done. }
      destruct (IH Ho' o Heq) as [-> ->]. done.
Qed.

(** ** The monad *)

Lemma wp_run {A} (c : M A) w Q r w' : wp c w Q -> c w = (r, w') -> Q r w'.
Proof. unfold wp. intros H Heq. by rewrite Heq in H. Qed.

Lemma wp_ex {A} (c : M A) w Q : wp c w Q -> exists r w', c w = (r, w') /\ Q r w'.
Proof. unfold wp. destruct (c w) as [r w']. eauto. Qed.

Lemma wp_mono {A} (c : M A) w (Q Q' : error + A -> World -> Prop) :
  wp c w Q -> (forall r w', Q r w' -> Q' r w') -> wp c w Q'.
Proof. unfold wp. auto. Qed.

Lemma wp_ret {A} (a : A) w Q : Q (inr a) w -> wp (ret a) w Q.
Proof. done. Qed.

Lemma wp_fail {A} e w (Q : error + A -> World -> Prop) :
  Q (inl e) w -> wp (fail e) w Q.
Proof. done. Qed.

Lemma wp_get w Q : Q (inr w) w -> wp get w Q.
Proof. done. Qed.

Lemma wp_modify f w Q : Q (inr tt) (f w) -> wp (modify f) w Q.
Proof. done. Qed.

Lemma wp_bind {A B} (c : M A) (k : A -> M B) w Q :
  wp c w (fun r w' => match r with
                      | inl e => Q (inl e) w'
                      | inr a => wp (k a) w' Q
                      end) ->
  wp (bind c k) w Q.
Proof. unfold wp, bind. by destruct (c w) as [[e|a] w']. Qed.

Lemma wp_attempt {A} (c : M A) w Q :
  wp c w (fun r w' => Q (inr r) w') -> wp (attempt c) w Q.
Proof. unfold wp, attempt. by destruct (c w) as [r w']. Qed.

Lemma bind_inr {A B} (c : M A) (k : A -> M B) w a w' :
  c w = (inr a, w') -> bind c k w = k a w'.
Proof. unfold bind. by intros ->. Qed.

Lemma attempt_eq {A} (c : M A) w r w' :
  c w = (r, w') -> attempt c w = (inr r, w').
Proof. unfold attempt. by intros ->. Qed.

Lemma wp_eq {A} (c : M A) w x :
  wp c w (fun r w' => (r, w') = x) -> c w = x.
Proof. unfold wp. by destruct (c w). Qed.

Lemma wp_orRollback {A} (c : M A) w Q :
  wp c w (fun r w' => match r with
                      | inl e => Q (inl e) (log EvRollback (set_txPending None w'))
                      | inr a => Q (inr a) w'
                      end) ->
  wp (orRollback c) w Q.
Proof.
  intros H. unfold orRollback. apply wp_bind, wp_attempt.
  eapply wp_mono; [exact H |]. by intros [e|a] w'.
Qed.

(** ** The store calls, in every run *)

Lemma pop_ok w : faults w = [] -> pop w = w.
Proof. destruct w as [? ? ? ? fs ?]. simpl. by intros ->. Qed.

Lemma tick_eq e w :
  tick e w = (if next_fails w then inl e else inr tt, pop w).
Proof.
  unfold tick, pop, next_fails. destruct w as [? ? ? ? [|[] fs] ?]; reflexivity.
Qed.

Lemma wp_tick e w Q :
  (next_fails w = false -> Q (inr tt) (pop w)) ->
  (next_fails w = true -> Q (inl e) (pop w)) ->
  wp (tick e) w Q.
Proof.
  intros H1 H2. unfold wp. rewrite tick_eq.
  destruct (next_fails w); simpl; auto.
Qed.

Lemma wp_Set_table w Q :
  (forall s, next_fails w = false -> propTable w = Some s ->
             Q (inr s) (pop w)) ->
  (next_fails w = true \/ propTable w = None ->
   Q (inl BackingStoreError) (pop w)) ->
  wp Set_table w Q.
Proof.
  intros H1 H2. unfold Set_table. apply wp_bind, wp_tick; [|by auto].
  intros Hf. apply wp_bind, wp_get.
  change (propTable (pop w)) with (propTable w).
  destruct (propTable w) as [s|] eqn:Hs; [apply wp_ret | apply wp_fail]; auto.
Qed.

Lemma wp_KeyValue_table w Q :
  (forall t, next_fails w = false -> kvTable w = Some t ->
             Q (inr t) (pop w)) ->
  (next_fails w = true \/ kvTable w = None ->
   Q (inl BackingStoreError) (pop w)) ->
  wp KeyValue_table w Q.
Proof.
  intros H1 H2. unfold KeyValue_table. apply wp_bind, wp_tick; [|by auto].
  intros Hf. apply wp_bind, wp_get.
  change (kvTable (pop w)) with (kvTable w).
  destruct (kvTable w) as [t|] eqn:Ht; [apply wp_ret | apply wp_fail]; auto.
Qed.

Lemma wp_Set_All w Q :
  (forall s, next_fails w = false -> propTable w = Some s ->
             Q (inr (elements s)) (pop w)) ->
  (next_fails w = true \/ propTable w = None ->
   Q (inl BackingStoreError) (pop w)) ->
  wp Set_All w Q.
Proof.
  intros H1 H2. unfold Set_All. apply wp_bind, wp_Set_table; [|done].
  intros s Hf Hs. apply wp_ret. auto.
Qed.

Lemma wp_Set_Add v w Q :
  (forall s, next_fails w = false -> propTable w = Some s ->
             Q (inr tt) (log (EvPropAdd v)
                           (set_propTable (Some ({[v]} ∪ s)) (pop w)))) ->
  (next_fails w = true \/ propTable w = None ->
   Q (inl BackingStoreError) (pop w)) ->
  wp (Set_Add v) w Q.
Proof.
  intros H1 H2. unfold Set_Add. apply wp_bind, wp_Set_table; [|done].
  intros s Hf Hs. apply wp_modify. auto.
Qed.

Lemma wp_Set_Clear w Q :
  (forall s, next_fails w = false -> propTable w = Some s ->
             Q (inr tt) (set_propTable (Some ∅) (pop w))) ->
  (next_fails w = true \/ propTable w = None ->
   Q (inl BackingStoreError) (pop w)) ->
  wp Set_Clear w Q.
Proof.
  intros H1 H2. unfold Set_Clear. apply wp_bind, wp_Set_table; [|done].
  intros s Hf Hs. apply wp_modify. eauto.
Qed.

Lemma wp_Set_Remove w Q :
  (forall s, next_fails w = false -> propTable w = Some s ->
             Q (inr tt) (set_propTable None (pop w))) ->
  (next_fails w = true \/ propTable w = None ->
   Q (inl BackingStoreError) (pop w)) ->
  wp Set_Remove w Q.
Proof.
  intros H1 H2. unfold Set_Remove. apply wp_bind, wp_Set_table; [|done].
  intros s Hf Hs. apply wp_modify. eauto.
Qed.

Lemma wp_BeginTx w Q :
  (next_fails w = false ->
   Q (inr tt) (log EvBegin (set_txPending (Some []) (pop w)))) ->
  (next_fails w = true -> Q (inl TransactionError) (pop w)) ->
  wp BeginTx w Q.
Proof.
  intros H1 H2. unfold BeginTx. apply wp_bind, wp_tick; [|done].
  intros Hf. apply wp_modify. auto.
Qed.

Lemma wp_Commit w Q :
  (txPending w = None -> Q (inl TransactionError) w) ->
  (forall ws, txPending w = Some ws -> next_fails w = true ->
              Q (inl TransactionError) (set_txPending None (pop w))) ->
  (forall ws, txPending w = Some ws -> next_fails w = false ->
     Q (inr tt) (log EvCommit
                   (set_txPending None
                      (set_kvTable (apply_writes ws <$> kvTable w) (pop w))))) ->
  wp Commit w Q.
Proof.
  intros H1 H2 H3. unfold wp, Commit.
  destruct (txPending w) as [ws|] eqn:Hp; [|by apply H1].
  rewrite tick_eq. destruct (next_fails w); simpl.
  - by apply (H2 ws).
  - by apply (H3 ws).
Qed.

Lemma wp_Rollback w Q :
  Q (inr tt) (log EvRollback (set_txPending None w)) -> wp Rollback w Q.
Proof. done. Qed.

Lemma wp_KeyValue_write key value w Q :
  (forall t ws, next_fails w = false -> kvTable w = Some t ->
     txPending w = Some ws ->
     Q (inr tt) (log (EvWrite key value)
                   (set_txPending (Some (ws ++ [(key, value)])) (pop w)))) ->
  (next_fails w = true \/ kvTable w = None ->
   Q (inl BackingStoreError) (pop w)) ->
  (txPending w = None -> Q (inl TransactionError) (pop w)) ->
  wp (KeyValue_write key value) w Q.
Proof.
  intros H1 H2 H3. unfold KeyValue_write.
  apply wp_bind, wp_KeyValue_table; [|by auto].
  intros t Hf Ht. apply wp_bind, wp_get.
  change (txPending (pop w)) with (txPending w).
  destruct (txPending w) as [ws|] eqn:Hp.
  - apply wp_modify. by apply (H1 t).
  - apply wp_fail. auto.
Qed.

Lemma wp_KeyValue_Del key w Q :
  (forall t, next_fails w = false -> kvTable w = Some t ->
             Q (inr tt) (set_kvTable (Some (delete key t)) (pop w))) ->
  (next_fails w = true \/ kvTable w = None ->
   Q (inl BackingStoreError) (pop w)) ->
  wp (KeyValue_Del key) w Q.
Proof.
  intros H1 H2. unfold KeyValue_Del. apply wp_bind, wp_KeyValue_table; [|done].
  intros t Hf Ht. apply wp_modify. auto.
Qed.

Lemma wp_KeyValue_All w Q :
  (forall t, next_fails w = false -> kvTable w = Some t ->
             Q (inr (elements (dom t))) (pop w)) ->
  (next_fails w = true \/ kvTable w = None ->
   Q (inl BackingStoreError) (pop w)) ->
  wp KeyValue_All w Q.
Proof.
  intros H1 H2. unfold KeyValue_All. apply wp_bind, wp_KeyValue_table; [|done].
  intros t Hf Ht. apply wp_ret. auto.
Qed.

Lemma wp_KeyValue_Clear w Q :
  (forall t, next_fails w = false -> kvTable w = Some t ->
             Q (inr tt) (set_kvTable (Some ∅) (pop w))) ->
  (next_fails w = true \/ kvTable w = None ->
   Q (inl BackingStoreError) (pop w)) ->
  wp KeyValue_Clear w Q.
Proof.
  intros H1 H2. unfold KeyValue_Clear. apply wp_bind, wp_KeyValue_table; [|done].
  intros t Hf Ht. apply wp_modify. eauto.
Qed.

Lemma wp_KeyValue_Remove w Q :
  (forall t, next_fails w = false -> kvTable w = Some t ->
             Q (inr tt) (set_kvTable None (pop w))) ->
  (next_fails w = true \/ kvTable w = None ->
   Q (inl BackingStoreError) (pop w)) ->
  wp KeyValue_Remove w Q.
Proof.
  intros H1 H2. unfold KeyValue_Remove. apply wp_bind, wp_KeyValue_table; [|done].
  intros t Hf Ht. apply wp_modify. eauto.
Qed.

(** ** Runs without spurious failures *)

Lemma ok_next w : faults w = [] -> next_fails w = false.
Proof. unfold next_fails. by intros ->. Qed.

(** Discharges the failure branch of a store call that cannot fail. *)
Ltac refute_fault H :=
  unfold next_fails in H; simpl in H;
  repeat match goal with
         | Hf : faults _ = [] |- _ => rewrite Hf in H
         end;
  discriminate H.

Ltac no_failure :=
  let H := fresh in
  intros H;
  first [ refute_fault H
        | destruct H as [H|H]; [refute_fault H | simpl in H; congruence] ].

Ltac pop_ok :=
  repeat match goal with
         | |- context [pop ?w'] => rewrite (pop_ok w') by (simpl; done)
         end.

Lemma maybe_Add_ok (b : bool) k w s :
  faults w = [] -> propTable w = Some s -> k ∈ s ->
  wp (if b then orRollback (Set_Add k) else ret ()) w (fun r w' =>
    r = inr tt /\ faults w' = [] /\ kvTable w' = kvTable w /\
    rawUTF8 w' = rawUTF8 w /\ txPending w' = txPending w /\
    propTable w' = Some s).
Proof.
  intros Hf Hs Hk. destruct b; [|by apply wp_ret].
  apply wp_orRollback, wp_Set_Add; [|no_failure].
  intros s0 _ Hs0. pop_ok. simpl. repeat split; try done.
  f_equal. set_solver.
Qed.

(** ** Single calls, as equations *)

Lemma Set_All_eq w :
  Set_All w =
    (if next_fails w then inl BackingStoreError
     else match propTable w with
          | None => inl BackingStoreError
          | Some s => inr (elements s)
          end, pop w).
Proof.
  apply wp_eq, wp_Set_All.
  - intros t -> ->. done.
  - intros [-> | ->]; [done | by destruct (next_fails w)].
Qed.

Lemma AllEncounteredKeys_eq w :
  HashMap2_AllEncounteredKeys w =
    (if next_fails w then inl BackingStoreError
     else match propTable w with
          | None => inl BackingStoreError
          | Some s => inr (elements s)
          end, pop w).
Proof. apply Set_All_eq. Qed.

Lemma DelKey_eq owner key w :
  HashMap2_DelKey owner key w =
    (if next_fails w then (inl BackingStoreError, pop w)
     else match kvTable w with
          | None => (inl BackingStoreError, pop w)
          | Some t =>
              (inr tt,
               set_kvTable
                 (Some (delete ((owner +:+ fieldSep) +:+ key) t)) (pop w))
          end).
Proof.
  apply wp_eq, wp_KeyValue_Del.
  - intros t -> ->. done.
  - intros [-> | ->]; [done | by destruct (next_fails w)].
Qed.

(** ** Remove and Clear *)

(** C10: whatever dropping (clearing) the table of encountered keys
    returned, [Remove] ([Clear]) returns nil when dropping (clearing) the
    data table succeeds, and an error only when that fails: for [Remove]
    the data-table error wrapped in "could not remove kv: ", for [Clear]
    the data-table error itself.  A failure on the set table is never
    reported. *)
Theorem Remove_Clear_report_data_table_only (w : World) :
  (forall r1 w1 r w2,
     Set_Remove w = (r1, w1) -> KeyValue_Remove w1 = (r, w2) ->
     HashMap2_Remove w =
       (match r with
        | inl err => inl (Errorf ("could not remove kv: " +:+ Error err))
        | inr _ => inr tt
        end, w2)) /\
  (forall r1 w1 r w2,
     Set_Clear w = (r1, w1) -> KeyValue_Clear w1 = (r, w2) ->
     HashMap2_Clear w =
       (match r with
        | inl err => inl err
        | inr _ => inr tt
        end, w2)).
Proof.
  split; intros r1 w1 r w2 H1 H2.
  - unfold HashMap2_Remove.
    rewrite (bind_inr _ _ _ _ _ (attempt_eq _ _ _ _ H1)).
    rewrite (bind_inr _ _ _ _ _ (attempt_eq _ _ _ _ H2)).
    by destruct r as [e|[]].
  - unfold HashMap2_Clear.
    rewrite (bind_inr _ _ _ _ _ (attempt_eq _ _ _ _ H1)).
    rewrite (bind_inr _ _ _ _ _ (attempt_eq _ _ _ _ H2)).
    by destruct r as [e|[]].
Qed.

(** ** All and Count *)

Lemma append_same_length (a b x y : string) :
  a +:+ x = b +:+ y -> String.length a = String.length b -> a = b.
Proof.
  revert b. induction a as [|c a IH]; intros [|d b]; try done.
  rewrite !append_cons. intros [= -> H] [= Hl]. f_equal. by apply IH.
Qed.

Lemma owner_of_first_split ck o :
  owner_of ck = Some o <-> exists rest, first_split ck o rest.
Proof.
  unfold owner_of. pose proof (Index_lower ck fieldSep) as Hlow. split.
  - destruct (Z.eqb_spec (Index ck fieldSep) (-1)) as [|Hne]; [done |].
    intros [= <-].
    destruct (Index_found ck fieldSep _ eq_refl) as (a & b & Hck & _ & Hsl & Hmin);
      [lia |].
    exists b. rewrite Hsl. by split.
  - intros (rest & Hck & Hmin).
    destruct (Z.eqb_spec (Index ck fieldSep) (-1)) as [Habs|Hne].
    { by apply (Index_absent _ _ Habs) in Hck. }
    destruct (Index_found ck fieldSep _ eq_refl) as (a & b & Hck' & _ & Hsl & Hmin');
      [lia |].
    f_equal. rewrite Hsl. apply (append_same_length _ _ (fieldSep +:+ b)
                                   (fieldSep +:+ rest)); [congruence |].
    apply Nat.le_antisymm; [by eapply Hmin' | by eapply Hmin].
Qed.

Lemma collectOwners_dom l :
  dom (collectOwners l) = list_to_set (omap owner_of l).
Proof.
  unfold collectOwners.
  enough (forall acc : gmap string bool,
            dom (foldl (fun foundOwners ownerAndKey =>
                          let pos := Index ownerAndKey fieldSep in
                          if negb (pos =? -1) then
                            let owner := slice_to ownerAndKey pos in
                            match foundOwners !! owner with
                            | None => <[owner := true]> foundOwners
                            | Some _ => foundOwners
                            end
                          else foundOwners) acc l)
            = dom acc ∪ list_to_set (omap owner_of l)) as H.
  { rewrite H. set_solver. }
  induction l as [|ck l IH]; intros acc; simpl.
  { set_solver. }
  rewrite IH. unfold owner_of at 2.
  destruct (Index ck fieldSep =? -1); simpl; [done |].
  destruct (acc !! slice_to ck (Index ck fieldSep)) as [b|] eqn:E.
  - apply (elem_of_dom_2 (D := gset string)) in E. set_solver.
  - rewrite dom_insert_L. set_solver.
Qed.

Lemma All_eq w :
  HashMap2_All w =
    (if next_fails w then inl BackingStoreError
     else match kvTable w with
          | None => inl BackingStoreError
          | Some t => inr (elements (owners t))
          end, pop w).
Proof.
  apply wp_eq. unfold HashMap2_All. apply wp_bind, wp_KeyValue_All.
  - intros t -> ->. apply wp_ret. by rewrite collectOwners_dom.
  - intros [-> | ->]; [done | by destruct (next_fails w)].
Qed.

(** C6: when the enumeration of the data table succeeds, [All] returns a
    list without duplicates whose members are exactly the strings that
    precede the first occurrence of the separator in some key of the table
    (keys without the separator contribute nothing); when it fails, [All]
    returns that error. *)
Theorem All_first_split_prefixes (w : World) :
  (forall t, next_fails w = false -> kvTable w = Some t ->
     exists l, HashMap2_All w = (inr l, pop w) /\ NoDup l /\
       forall o, o ∈ l <->
         exists ck rest, ck ∈ dom t /\ first_split ck o rest) /\
  (next_fails w = true \/ kvTable w = None ->
   HashMap2_All w = (inl BackingStoreError, pop w)).
Proof.
  rewrite All_eq. split.
  - intros t -> ->. eexists. split; [done |]. split; [apply NoDup_elements |].
    intros o. rewrite elem_of_elements. unfold owners.
    rewrite elem_of_set_omap. split.
    + intros (ck & Hck & Ho). apply owner_of_first_split in Ho as [rest Hr].
      eauto.
    + intros (ck & rest & Hck & Hr). exists ck. split; [done |].
      apply owner_of_first_split. eauto.
  - intros [-> | ->]; [done | by destruct (next_fails w)].
Qed.

(** ** Runs that commit nothing *)

Lemma no_commit_refl w : no_commit w w.
Proof. split; [done |]. exists []. split; [done | set_solver]. Qed.

Lemma no_commit_trans w1 w2 w3 :
  no_commit w1 w2 -> no_commit w2 w3 -> no_commit w1 w3.
Proof.
  intros [Hk1 (e1 & He1 & Hn1)] [Hk2 (e2 & He2 & Hn2)]. split; [congruence |].
  exists (e2 ++ e1). rewrite He2, He1, app_assoc. split; [done |].
  rewrite elem_of_app. tauto.
Qed.

Lemma no_commit_step w w' evs :
  kvTable w' = kvTable w -> events w' = evs ++ events w ->
  EvCommit ∉ evs -> no_commit w w'.
Proof. intros. split; eauto. Qed.

Ltac not_commit :=
  let H := fresh in
  intros H;
  repeat (apply elem_of_cons in H as [H|H]; [discriminate H |]);
  by apply elem_of_nil in H.

Ltac no_commit_tac :=
  match goal with
  | |- no_commit ?w ?w' =>
      first [ apply no_commit_refl
            | eapply (no_commit_step w w' []); [done | done | not_commit]
            | eapply (no_commit_step w w' [_]); [done | done | not_commit]
            | eapply (no_commit_step w w' [_; _]); [done | done | not_commit]
            | eapply (no_commit_step w w' [_; _; _]);
              [done | done | not_commit] ]
  end.

Lemma invalid_entry owner m :
  m <> [] ->
  (Contains owner fieldSep = true \/
   exists kv, kv ∈ m /\ Contains kv.1 fieldSep = true) ->
  forallb (valid_entry owner) m = false.
Proof.
  intros Hm H. apply not_true_iff_false. intros Hall.
  rewrite forallb_forall in Hall. destruct H as [Ho | (kv & Hin & Hk)].
  - destruct m as [|kv m]; [done |].
    specialize (Hall kv ltac:(left; done)). unfold valid_entry in Hall.
    by rewrite Ho in Hall.
  - apply list_elem_of_In in Hin. specialize (Hall kv Hin).
    unfold valid_entry in Hall. rewrite Hk in Hall.
    by destruct (Contains owner fieldSep).
Qed.

(** ** The first pass of SetLargeMap *)

Lemma hasS_true xs x : hasS xs x = true <-> x ∈ xs.
Proof. apply bool_decide_eq_true. Qed.

Lemma hasS_false xs x : hasS xs x = false <-> x ∉ xs.
Proof. apply bool_decide_eq_false. Qed.

Lemma findNewProps_inner props acc (pm : list (string * string)) :
  let res := foldl (fun newProps kv =>
                      if negb (hasS props kv.1) && negb (hasS newProps kv.1)
                      then newProps ++ [kv.1] else newProps) acc pm in
  (NoDup acc -> NoDup res) /\
  forall k, k ∈ res <-> k ∈ acc \/ (~ k ∈ props /\ k ∈ pm.*1).
Proof.
  revert acc. induction pm as [|[k0 v0] pm IH]; intros acc; simpl.
  { split; [done |]. intros k. rewrite elem_of_nil. tauto. }
  destruct (hasS props k0) eqn:Hp; simpl;
    [apply hasS_true in Hp | apply hasS_false in Hp].
  { destruct (IH acc) as [Hnd Hin]. split; [done |]. intros k.
    rewrite Hin, elem_of_cons. split; [tauto |].
    intros [? | [Hk [-> | ?]]]; tauto. }
  destruct (hasS acc k0) eqn:Ha; simpl;
    [apply hasS_true in Ha | apply hasS_false in Ha].
  { destruct (IH acc) as [Hnd Hin]. split; [done |]. intros k.
    rewrite Hin, elem_of_cons. split; [tauto |].
    intros [? | [Hk [-> | ?]]]; tauto. }
  destruct (IH (acc ++ [k0])) as [Hnd Hin]. split.
  - intros Hacc. apply Hnd. apply NoDup_app. split; [done |].
    split; [|apply NoDup_singleton].
    intros x Hx ->%list_elem_of_singleton. done.
  - intros k. rewrite Hin, elem_of_app, list_elem_of_singleton, elem_of_cons.
    split; [|tauto]. intros [[? | ->] | ?]; tauto.
Qed.

Lemma findNewProps_outer props acc
    (allProperties : list (string * list (string * string))) :
  let res := foldl (fun newProps ownerMap =>
               foldl (fun newProps kv =>
                        if negb (hasS props kv.1) && negb (hasS newProps kv.1)
                        then newProps ++ [kv.1] else newProps)
                     newProps ownerMap.2) acc allProperties in
  (NoDup acc -> NoDup res) /\
  forall k, k ∈ res <-> k ∈ acc \/ (~ k ∈ props /\ k ∈ keys_of allProperties).
Proof.
  revert acc. induction allProperties as [|[o pm] input IH]; intros acc; simpl.
  { split; [done |]. intros k. unfold keys_of. simpl. rewrite elem_of_nil.
    tauto. }
  destruct (findNewProps_inner props acc pm) as [Hnd1 Hin1].
  match goal with |- context [foldl _ (foldl ?f acc pm) input] =>
    destruct (IH (foldl f acc pm)) as [Hnd2 Hin2] end.
  split; [auto |]. intros k. rewrite Hin2, Hin1. unfold keys_of. simpl.
  rewrite elem_of_app. tauto.
Qed.

(** The first pass finds each new property key once. *)
Lemma findNewProps_spec props allProperties :
  NoDup (findNewProps props allProperties) /\
  forall k, k ∈ findNewProps props allProperties <->
            ~ k ∈ props /\ k ∈ keys_of allProperties.
Proof.
  destruct (findNewProps_outer props [] allProperties) as [Hnd Hin].
  split; [apply Hnd, NoDup_nil_2 |].
  intros k. unfold findNewProps. rewrite Hin, elem_of_nil. tauto.
Qed.

(** The additions of the first pass, in every run: they stop at the
    first one that fails. *)
Lemma storeNewProps_run l w :
  wp (storeNewProps l) w (fun r w' =>
    kvTable w' = kvTable w /\ txPending w' = txPending w /\
    rawUTF8 w' = rawUTF8 w /\
    (exists done rest,
       l = done ++ rest /\
       events w' = reverse (EvPropAdd <$> done) ++ events w /\
       propTable w' = (fun s => list_to_set done ∪ s) <$> propTable w /\
       match r with
       | inr _ => rest = []
       | inl e => e = BackingStoreError
       end) /\
    (faults w = [] -> is_Some (propTable w) -> r = inr tt /\ faults w' = [])).
Proof.
  revert w. induction l as [|p l IH]; intros w.
  { apply wp_ret. repeat split; try done. exists [], []. repeat split; try done.
    destruct (propTable w); simpl; [|done]. by rewrite (left_id_L ∅ (∪)). }
  cbn [storeNewProps]. apply wp_bind, wp_Set_Add.
  - intros s Hnf Hs. eapply wp_mono; [apply IH |].
    intros r w' (Hk & Hp & Hr & (done & rest & -> & Hev & Hps & Hres) & Hok).
    simpl in Hk, Hp, Hr, Hev, Hps.
    split; [done |]. split; [done |]. split; [done |]. split.
    + exists (p :: done), rest. split; [done |]. split; [|split; [|done]].
      * rewrite Hev. rewrite fmap_cons, reverse_cons, <- app_assoc. done.
      * rewrite Hps, Hs. simpl. f_equal. set_solver.
    + intros Hf _. apply Hok; [simpl; by rewrite Hf | done].
  - intros Hfail. simpl. split; [done |]. split; [done |]. split; [done |].
    split.
    + exists [], (p :: l). repeat split; try done.
      destruct (propTable w); simpl; [|done]. by rewrite (left_id_L ∅ (∪)).
    + intros Hf Hs. exfalso. destruct Hfail as [H|H].
      * by rewrite (ok_next _ Hf) in H.
      * rewrite H in Hs. by destruct Hs.
Qed.

(** ** The encountered keys cover the data table *)

Lemma index_covers_mono w w' :
  index_covers w -> stored_keys w' ⊆ stored_keys w ->
  encountered w ⊆ encountered w' -> index_covers w'.
Proof. intros H Hk He owner key Hin. apply He, (H owner), Hk, Hin. Qed.

Lemma covered_same w w' :
  covered w -> kvTable w' = kvTable w -> txPending w' = txPending w ->
  encountered w ⊆ encountered w' -> covered w'.
Proof.
  intros [Hi Hp] Hk Ht He. split.
  - eapply index_covers_mono; [done | | done]. unfold stored_keys.
    by rewrite Hk.
  - intros ws Hws ck v Hin o k Hck. rewrite Ht in Hws.
    apply He. by eapply Hp.
Qed.

Lemma covered_reset w w' :
  index_covers w -> kvTable w' = kvTable w ->
  encountered w ⊆ encountered w' ->
  txPending w' = None \/ txPending w' = Some [] -> covered w'.
Proof.
  intros Hi Hk He Ht. split.
  - eapply index_covers_mono; [done | | done]. unfold stored_keys.
    by rewrite Hk.
  - intros ws Hws ck v Hin. destruct Ht as [Ht|Ht]; rewrite Ht in Hws; [done |].
    injection Hws as <-. by apply elem_of_nil in Hin.
Qed.

Lemma covered_write w w' ws ck v :
  covered w -> kvTable w' = kvTable w -> encountered w ⊆ encountered w' ->
  txPending w = Some ws -> txPending w' = Some (ws ++ [(ck, v)]) ->
  (forall o k, ck = (o +:+ fieldSep) +:+ k -> k ∈ encountered w') ->
  covered w'.
Proof.
  intros [Hi Hp] Hk He Ht Ht' Hnew. split.
  - eapply index_covers_mono; [done | | done]. unfold stored_keys.
    by rewrite Hk.
  - intros ws' Hws ck' v' Hin o k Hck. rewrite Ht' in Hws.
    injection Hws as <-. apply elem_of_app in Hin as [Hin|Hin].
    + apply He. by eapply Hp.
    + apply list_elem_of_singleton in Hin. injection Hin as -> ->.
      by eapply Hnew.
Qed.

Lemma dom_apply_writes ws (t : gmap string string) :
  dom (apply_writes ws t) = dom t ∪ list_to_set ws.*1.
Proof.
  unfold apply_writes. revert t. induction ws as [|[k v] ws IH]; intros t; simpl.
  { set_solver. }
  rewrite IH, dom_insert_L. set_solver.
Qed.

Lemma covered_commit w w' ws :
  covered w -> txPending w = Some ws ->
  kvTable w' = apply_writes ws <$> kvTable w ->
  encountered w ⊆ encountered w' -> index_covers w'.
Proof.
  intros [Hi Hp] Ht Hk He owner key Hin. apply He.
  unfold stored_keys in Hin. rewrite Hk in Hin.
  destruct (kvTable w) as [t|] eqn:Hkv; simpl in Hin; [|set_solver].
  rewrite dom_apply_writes in Hin. apply elem_of_union in Hin as [Hin|Hin].
  - apply (Hi owner). unfold stored_keys. by rewrite Hkv.
  - apply elem_of_list_to_set, list_elem_of_fmap in Hin as ([ck v] & Hck & Hin).
    simpl in Hck. by eapply (Hp ws Ht ck v Hin owner key).
Qed.

Ltac enc_tac Hs :=
  unfold encountered; simpl; rewrite ?Hs; simpl; set_solver.

Lemma keys_of_elem input owner pm k :
  (owner, pm) ∈ input -> k ∈ pm.*1 -> k ∈ keys_of input.
Proof.
  unfold keys_of. induction input as [|[o pm'] input IH]; simpl.
  { by intros ?%elem_of_nil. }
  intros [Heq|Hin]%elem_of_cons Hk; apply elem_of_app.
  - injection Heq as -> ->. by left.
  - right. by apply IH.
Qed.

(** ** Deleting, clearing and removing *)

Lemma Del_range_shrinks owner l w :
  wp (Del_range owner l) w (fun _ w' =>
    stored_keys w' ⊆ stored_keys w /\ propTable w' = propTable w).
Proof.
  revert w. induction l as [|k l IH]; intros w.
  { by apply wp_ret. }
  cbn [Del_range]. apply wp_bind, wp_KeyValue_Del.
  - intros t _ Ht. eapply wp_mono; [apply IH |].
    intros r w' [Hsub Hp]. split; [|done].
    etrans; [exact Hsub |]. unfold stored_keys. simpl. rewrite Ht. simpl.
    rewrite dom_delete_L. set_solver.
  - intros _. done.
Qed.

Lemma Del_shrinks owner w :
  wp (HashMap2_Del owner) w (fun _ w' =>
    stored_keys w' ⊆ stored_keys w /\ propTable w' = propTable w).
Proof.
  unfold HashMap2_Del. apply wp_bind, wp_Set_All; [|done].
  intros s _ _. apply (Del_range_shrinks owner (elements s) (pop w)).
Qed.

Lemma Clear_empties w :
  wp HashMap2_Clear w (fun r w' =>
    r = inr tt \/ faults w = [] -> stored_keys w' = ∅).
Proof.
  unfold HashMap2_Clear. apply wp_bind, wp_attempt.
  assert (forall w1, kvTable w1 = kvTable w ->
            (faults w = [] -> faults w1 = []) ->
            wp (r <- attempt KeyValue_Clear;;
                match r with
                | inl err => fail err
                | inr _ => ret ()
                end) w1
               (fun r w' => r = inr tt \/ faults w = [] -> stored_keys w' = ∅))
    as Hkv.
  { intros w1 Hk Hf1. apply wp_bind, wp_attempt, wp_KeyValue_Clear.
    - intros t _ _. by apply wp_ret.
    - intros Hfail. apply wp_fail. intros [? | Hf]; [done |].
      destruct Hfail as [H|H].
      + by rewrite (ok_next _ (Hf1 Hf)) in H.
      + unfold stored_keys. simpl. by rewrite H. }
  apply wp_Set_Clear.
  - intros s _ _. apply Hkv; [done |]. intros Hf. simpl. by rewrite Hf.
  - intros _. apply Hkv; [done |]. intros Hf. simpl. by rewrite Hf.
Qed.

Lemma Remove_empties w :
  wp HashMap2_Remove w (fun r w' =>
    r = inr tt \/ faults w = [] -> stored_keys w' = ∅).
Proof.
  unfold HashMap2_Remove. apply wp_bind, wp_attempt.
  assert (forall w1, kvTable w1 = kvTable w ->
            (faults w = [] -> faults w1 = []) ->
            wp (r <- attempt KeyValue_Remove;;
                match r with
                | inl err =>
                    fail (Errorf ("could not remove kv: " +:+ Error err))
                | inr _ => ret ()
                end) w1
               (fun r w' => r = inr tt \/ faults w = [] -> stored_keys w' = ∅))
    as Hkv.
  { intros w1 Hk Hf1. apply wp_bind, wp_attempt, wp_KeyValue_Remove.
    - intros t _ _. by apply wp_ret.
    - intros Hfail. apply wp_fail. intros [? | Hf]; [done |].
      destruct Hfail as [H|H].
      + by rewrite (ok_next _ (Hf1 Hf)) in H.
      + unfold stored_keys. simpl. by rewrite H. }
  apply wp_Set_Remove.
  - intros s _ _. apply Hkv; [done |]. intros Hf. simpl. by rewrite Hf.
  - intros _. apply Hkv; [done |]. intros Hf. simpl. by rewrite Hf.
Qed.

Lemma index_covers_empty w : stored_keys w = ∅ -> index_covers w.
Proof. intros H owner key. rewrite H. set_solver. Qed.

(** ** Writing *)

Section Writes.

Variable Encode : string -> string.

(** *** SetMap in a store without failures *)

Lemma SetMap_range_ok owner allProperties m w t s ws :
  faults w = [] -> kvTable w = Some t -> propTable w = Some s ->
  txPending w = Some ws ->
  wp (HashMap2_SetMap_range Encode owner allProperties m) w (fun r w' =>
    faults w' = [] /\ kvTable w' = Some t /\ rawUTF8 w' = rawUTF8 w /\
    if forallb (valid_entry owner) m then
      r = inr tt /\
      txPending w' = Some (ws ++ map (fun kv => composite Encode owner kv w) m) /\
      propTable w' = Some (list_to_set m.*1 ∪ s)
    else
      (exists e, r = inl e /\ validation_error e) /\
      txPending w' = None /\
      head (events w') = Some EvRollback).
Proof.
  revert w s ws. induction m as [|[k v] m IH]; intros w s ws Hf Ht Hs Hp.
  { apply wp_ret. simpl. rewrite app_nil_r.
    repeat split; try done. by rewrite (left_id_L ∅ (∪)). }
  cbn [HashMap2_SetMap_range forallb]. unfold valid_entry at 1.
  cbn [fst snd]. apply wp_bind, wp_orRollback.
  unfold HashMap2_setPropWithTransaction.
  destruct (Contains owner fieldSep) eqn:Ho.
  { apply wp_bind, wp_fail. simpl. repeat split; try done.
    eexists. split; [done | by left]. }
  destruct (Contains k fieldSep) eqn:Hk.
  { apply wp_bind, wp_fail. simpl. repeat split; try done.
    eexists. split; [done | by right]. }
  apply wp_bind, wp_ret. lazy beta iota.
  apply wp_bind, wp_Set_Add; [|no_failure].
  intros s0 _ Hs0. rewrite (pop_ok w Hf). assert (s0 = s) as -> by congruence.
  apply wp_bind, wp_get.
  apply wp_KeyValue_write; [| no_failure | simpl; congruence].
  intros t0 ws0 _ Ht0 Hp0. simpl in Ht0, Hp0.
  assert (t0 = t) as -> by congruence. assert (ws0 = ws) as -> by congruence.
  pop_ok. lazy beta iota.
  apply wp_bind. eapply wp_mono.
  { apply (maybe_Add_ok _ k _ ({[k]} ∪ s)); [done | done | set_solver]. }
  intros r s1 (-> & Hf1 & Ht1 & Hr1 & Hp1 & Hs1). simpl in Ht1, Hr1, Hp1.
  eapply wp_mono.
  { apply (IH s1 ({[k]} ∪ s) (ws ++ [composite Encode owner (k, v) w])); try done.
    congruence. }
  intros r w' (Hf' & Ht' & Hr' & Hrest). repeat split; try done.
  { congruence. }
  simpl andb. destruct (forallb (valid_entry owner) m); [|done].
  destruct Hrest as (-> & Hp' & Hs'). repeat split; try done.
  - rewrite Hp'. f_equal. rewrite <- app_assoc. simpl. f_equal. f_equal.
    apply map_ext. intros kv. unfold composite, stored. by rewrite Hr1.
  - rewrite Hs'. f_equal. set_solver.
Qed.

(** [SetMap] with entries that all pass the checks: everything is
    committed. *)
Lemma SetMap_ok owner m w t s :
  faults w = [] -> kvTable w = Some t -> propTable w = Some s ->
  forallb (valid_entry owner) m = true ->
  wp (HashMap2_SetMap Encode owner m) w (fun r w' =>
    r = inr tt /\ faults w' = [] /\ rawUTF8 w' = rawUTF8 w /\
    kvTable w' =
      Some (apply_writes (map (fun kv => composite Encode owner kv w) m) t) /\
    propTable w' = Some (list_to_set m.*1 ∪ s) /\
    txPending w' = None).
Proof.
  intros Hf Ht Hs Hm. unfold HashMap2_SetMap.
  apply wp_bind, wp_Set_All; [|no_failure].
  intros s0 _ _. pop_ok. apply wp_bind, wp_BeginTx; [|no_failure].
  intros _. pop_ok. apply wp_bind. eapply wp_mono.
  { by apply (SetMap_range_ok owner (elements s0) m _ t s []). }
  intros r w1 (Hf1 & Ht1 & Hr1 & Hrest). rewrite Hm in Hrest.
  destruct Hrest as (-> & Hp1 & Hs1).
  apply wp_Commit; [congruence | | ].
  - intros ws _ H. rewrite (ok_next _ Hf1) in H. discriminate H.
  - intros ws Hws _. pop_ok. simpl. rewrite Ht1. simpl.
    repeat split; try done. do 2 f_equal. rewrite Hp1 in Hws.
    injection Hws as <-. simpl. apply map_ext. intros kv.
    unfold composite, stored. done.
Qed.

(** *** Count *)

(** C5: [Count] returns the length of what [All] returns (and its error
    when [All] fails); with the data table readable this is the number of
    distinct owners of the table, not the number of its rows: after the
    three [Set] calls on an empty map the table has 3 rows and [Count]
    returns 2. *)
Theorem Count_distinct_owners (w : World) :
  HashMap2_Count w =
    (match (HashMap2_All w).1 with
     | inl e => inl e
     | inr a => inr (Z.of_nat (length a))
     end, (HashMap2_All w).2) /\
  (forall t, next_fails w = false -> kvTable w = Some t ->
     HashMap2_Count w = (inr (Z.of_nat (size (owners t))), pop w)) /\
  (forall raw,
     (HashMap2_Count (three_sets Encode raw)).1 = inr 2 /\
     size <$> kvTable (three_sets Encode raw) = Some 3%nat).
Proof.
  assert (HashMap2_Count w =
            (match (HashMap2_All w).1 with
             | inl e => inl e
             | inr a => inr (Z.of_nat (length a))
             end, (HashMap2_All w).2)) as Heq.
  { unfold HashMap2_Count, bind, ret.
    by destruct (HashMap2_All w) as [[e|a] w']. }
  split; [exact Heq |]. split.
  - intros t Hf Ht. rewrite Heq, All_eq, Hf, Ht. done.
  - intros [|]; vm_compute; done.
Qed.

(** *** SetMap in every run *)

(** [setPropWithTransaction] with the check on, in every run. *)
Lemma wp_setPropWithTransaction owner key value w Q :
  (Contains owner fieldSep = true ->
   Q (inl (Errorf ("owner can not contain " +:+ fieldSep))) w) ->
  (Contains owner fieldSep = false -> Contains key fieldSep = true ->
   Q (inl (Errorf ("key can not contain " +:+ fieldSep))) w) ->
  (Contains owner fieldSep = false -> Contains key fieldSep = false ->
   Q (inl BackingStoreError) (pop w)) ->
  (forall s,
     Contains owner fieldSep = false -> Contains key fieldSep = false ->
     propTable w = Some s ->
     let w1 := log (EvPropAdd key)
                 (set_propTable (Some ({[key]} ∪ s)) (pop w)) in
     let ck := (owner +:+ fieldSep) +:+ key in
     (forall e, e = BackingStoreError \/ e = TransactionError ->
                Q (inl e) (pop w1)) /\
     (forall t ws, kvTable w = Some t -> txPending w = Some ws ->
        Q (inr tt) (log (EvWrite ck (stored Encode w value))
                      (set_txPending (Some (ws ++ [(ck, stored Encode w value)]))
                         (pop w1))))) ->
  wp (HashMap2_setPropWithTransaction Encode owner key value true) w Q.
Proof.
  intros H1 H2 H3 H4. unfold HashMap2_setPropWithTransaction.
  destruct (Contains owner fieldSep) eqn:Ho.
  { apply wp_bind, wp_fail. auto. }
  destruct (Contains key fieldSep) eqn:Hk.
  { apply wp_bind, wp_fail. auto. }
  apply wp_bind, wp_ret. lazy beta iota.
  apply wp_bind, wp_Set_Add; [|auto].
  intros s _ Hs. destruct (H4 s eq_refl eq_refl Hs) as [H5 H6].
  apply wp_bind, wp_get. apply wp_KeyValue_write.
  - intros t ws _ Ht Hp. by apply (H6 t).
  - intros _. apply H5. auto.
  - intros _. apply H5. auto.
Qed.

Lemma SetMap_range_no_commit owner allProperties m w :
  wp (HashMap2_SetMap_range Encode owner allProperties m) w (fun r w' =>
    no_commit w w' /\
    match r with
    | inl _ => True
    | inr _ => forallb (valid_entry owner) m = true
    end).
Proof.
  revert w. induction m as [|[k v] m IH]; intros w.
  { apply wp_ret. split; [apply no_commit_refl | done]. }
  cbn [HashMap2_SetMap_range forallb]. unfold valid_entry at 1. cbn [fst].
  apply wp_bind, wp_orRollback, wp_setPropWithTransaction.
  - intros _. split; [no_commit_tac | done].
  - intros _ _. split; [no_commit_tac | done].
  - intros _ _. split; [no_commit_tac | done].
  - intros s Ho Hk Hs w1 ck. split.
    { intros e _. split; [no_commit_tac | done]. }
    intros t ws _ Hp. rewrite Ho, Hk. cbn [negb andb].
    match goal with |- wp _ ?w' _ => set (w2 := w') end.
    assert (no_commit w w2) as H2 by no_commit_tac.
    apply wp_bind.
    destruct (negb (hasS allProperties k)).
    + apply wp_orRollback, wp_Set_Add.
      * intros s' _ Hs'.
        eapply wp_mono; [apply IH |]. intros r w' [Hn Hr]. split; [|done].
        eapply no_commit_trans; [exact H2 |].
        eapply no_commit_trans; [|exact Hn]. no_commit_tac.
      * intros _. split; [|done].
        eapply no_commit_trans; [exact H2 |]. no_commit_tac.
    + apply wp_ret.
      eapply wp_mono; [apply IH |]. intros r w' [Hn Hr]. split; [|done].
      eapply no_commit_trans; [exact H2 | exact Hn].
Qed.

Lemma composite_ext owner kv w w' :
  rawUTF8 w' = rawUTF8 w -> composite Encode owner kv w' = composite Encode owner kv w.
Proof. intros H. unfold composite, stored. by rewrite H. Qed.

(** What a run of the loop of [SetMap] that ends without error has
    done: every entry has passed the checks and is among the buffered
    writes. *)
Lemma SetMap_range_run owner allProperties m w :
  wp (HashMap2_SetMap_range Encode owner allProperties m) w (fun r w' =>
    kvTable w' = kvTable w /\ rawUTF8 w' = rawUTF8 w /\
    (r = inr tt ->
     txPending w' =
       (fun ws => ws ++ ((fun kv => composite Encode owner kv w) <$> m))
         <$> txPending w /\
     (m <> [] -> is_Some (kvTable w)))).
Proof.
  revert w. induction m as [|[k v] m IH]; intros w.
  { apply wp_ret. split; [done |]. split; [done |]. intros _. split; [|done].
    destruct (txPending w); simpl; [|done]. by rewrite app_nil_r. }
  cbn [HashMap2_SetMap_range].
  apply wp_bind, wp_orRollback, wp_setPropWithTransaction; try done.
  intros s Ho Hk Hs w1 ck. split; [done |].
  intros t ws Ht Hp.
  match goal with |- wp _ ?w' _ => set (w2 := w') end.
  assert (forall w3, kvTable w3 = kvTable w2 -> rawUTF8 w3 = rawUTF8 w2 ->
            txPending w3 = txPending w2 ->
            wp (HashMap2_SetMap_range Encode owner allProperties m) w3
              (fun r w' =>
                 kvTable w' = kvTable w /\ rawUTF8 w' = rawUTF8 w /\
                 (r = inr tt ->
                  txPending w' =
                    (fun ws => ws ++ ((fun kv => composite Encode owner kv w)
                                        <$> (k, v) :: m))
                      <$> txPending w /\
                  ((k, v) :: m <> [] -> is_Some (kvTable w))))) as Hrest.
  { intros w3 Hk3 Hr3 Hp3. eapply wp_mono; [apply IH |].
    intros r w' (Hk' & Hr' & Hres). simpl in Hk3, Hr3, Hp3.
    split; [congruence |]. split; [congruence |].
    intros Hr. destruct (Hres Hr) as [Hp' _]. split; [|by rewrite Ht].
    rewrite Hp', Hp3, Hp. simpl. rewrite <- app_assoc. do 3 f_equal.
    apply list_fmap_ext. intros _ kv _. by apply composite_ext. }
  apply wp_bind. destruct (negb (hasS allProperties k)).
  - apply wp_orRollback, wp_Set_Add; [|done].
    intros s2 _ _. by apply Hrest.
  - apply wp_ret. by apply Hrest.
Qed.

(** What a run of [SetMap] that returns nil has done. *)
Lemma SetMap_run owner m w :
  wp (HashMap2_SetMap Encode owner m) w (fun r w' =>
    r = inr tt ->
    rawUTF8 w' = rawUTF8 w /\
    kvTable w' =
      apply_writes ((fun kv => composite Encode owner kv w) <$> m)
        <$> kvTable w /\
    (m <> [] -> is_Some (kvTable w))).
Proof.
  unfold HashMap2_SetMap. apply wp_bind, wp_Set_All; [|done].
  intros s _ _. apply wp_bind, wp_BeginTx; [|done].
  intros _. apply wp_bind. eapply wp_mono; [apply SetMap_range_run |].
  intros [e|[]] w1 (Hk1 & Hr1 & Hres); [done |].
  destruct (Hres eq_refl) as [Hp1 Hsome]. simpl in Hk1, Hr1, Hp1, Hsome.
  apply wp_Commit; [done | done |].
  intros ws Hws _ _. rewrite Hp1 in Hws. injection Hws as <-. simpl.
  rewrite Hk1. split; [done |]. split; [|done]. f_equal.
Qed.

(** C2, as the code has it: for a non-empty [m] in which the owner or at
    least one key contains the separator, [SetMap(owner, m)] returns an
    error in every run, nothing is committed and the data table is exactly
    as before the call; in a store with both tables in place and no
    spurious failure that error is one of the two validation errors naming
    the separator, and the transaction has been rolled back (the rollback
    is the last thing done, no transaction is left open). *)
Theorem SetMap_invalid_rolls_back (w : World) (owner : string)
    (m : list (string * string)) :
  m <> [] ->
  (Contains owner fieldSep = true \/
   exists kv, kv ∈ m /\ Contains kv.1 fieldSep = true) ->
  exists e w',
    HashMap2_SetMap Encode owner m w = (inl e, w') /\
    kvTable w' = kvTable w /\
    (exists evs, events w' = evs ++ events w /\ EvCommit ∉ evs) /\
    (is_Some (kvTable w) -> is_Some (propTable w) -> faults w = [] ->
     validation_error e /\ head (events w') = Some EvRollback /\
     txPending w' = None).
Proof.
  intros Hm Hbad. pose proof (invalid_entry owner m Hm Hbad) as Hinv.
  assert (wp (HashMap2_SetMap Encode owner m) w (fun r w' =>
            (exists e, r = inl e) /\ no_commit w w')) as Hall.
  { unfold HashMap2_SetMap. apply wp_bind, wp_Set_All.
    2:{ intros _. split; [eauto | no_commit_tac]. }
    intros s _ _. apply wp_bind, wp_BeginTx.
    2:{ intros _. split; [eauto | no_commit_tac]. }
    intros _. apply wp_bind. eapply wp_mono; [apply SetMap_range_no_commit |].
    intros [e|[]] w' [Hn Hr].
    - split; [eauto |]. eapply no_commit_trans; [|exact Hn]. no_commit_tac.
    - congruence. }
  destruct (wp_ex _ _ _ Hall) as (r & w' & Hrun & [e ->] & Hk & Hev).
  exists e, w'. split; [done |]. split; [done |]. split; [done |].
  intros [t Ht] [s Hs] Hf.
  assert (wp (HashMap2_SetMap Encode owner m) w (fun r w' =>
            (exists e, r = inl e /\ validation_error e) /\
            head (events w') = Some EvRollback /\ txPending w' = None)) as Hok.
  { unfold HashMap2_SetMap. apply wp_bind, wp_Set_All; [|no_failure].
    intros s0 _ _. pop_ok. apply wp_bind, wp_BeginTx; [|no_failure].
    intros _. pop_ok. apply wp_bind. eapply wp_mono.
    { by apply (SetMap_range_ok owner (elements s0) m _ t s []). }
    intros r w1 (_ & _ & _ & Hrest). rewrite Hinv in Hrest.
    destruct Hrest as ((e' & -> & He') & Hp & Hh). eauto. }
  destruct (wp_run _ _ _ _ _ Hok Hrun) as ((e' & [= <-] & He') & Hh & Hp).
  done.
Qed.

(** *** SetLargeMap in every run *)

Lemma writes_of_ext input w w' :
  rawUTF8 w' = rawUTF8 w -> writes_of Encode w' input = writes_of Encode w input.
Proof.
  intros H. unfold writes_of. induction input as [|[o pm] input IH]; [done |].
  simpl. rewrite IH. f_equal. apply list_fmap_ext. intros _ kv _.
  by apply composite_ext.
Qed.

(** The writes for one owner, in every run: they stop at the first one
    that fails, which is followed by the rollback. *)
Lemma SetLargeMap_owner_run owner pm w :
  wp (SetLargeMap_owner Encode owner pm) w (fun r w' =>
    kvTable w' = kvTable w /\ propTable w' = propTable w /\
    rawUTF8 w' = rawUTF8 w /\
    (let all := (fun kv => composite Encode owner kv w) <$> pm in
     match r with
     | inr _ =>
         events w' = reverse (write_event <$> all) ++ events w /\
         txPending w' = (fun ws => ws ++ all) <$> txPending w
     | inl e =>
         (e = BackingStoreError \/ e = TransactionError) /\
         exists done rest,
           all = done ++ rest /\ rest <> [] /\
           events w' = EvRollback :: reverse (write_event <$> done) ++ events w /\
           txPending w' = None
     end) /\
    (faults w = [] -> is_Some (kvTable w) -> is_Some (txPending w) ->
     r = inr tt /\ faults w' = [])).
Proof.
  revert w. induction pm as [|[k v] pm IH]; intros w.
  { apply wp_ret. repeat split; try done.
    destruct (txPending w); simpl; [|done]. by rewrite app_nil_r. }
  cbn [SetLargeMap_owner]. apply wp_bind, wp_get.
  fold (stored Encode w v). apply wp_bind, wp_orRollback.
  unfold KeyValue_updateWithTransaction.
  assert (forall e, e = BackingStoreError \/ e = TransactionError ->
            (next_fails w = true \/ kvTable w = None \/ txPending w = None) ->
            let w' := log EvRollback (set_txPending None (pop w)) in
            kvTable w' = kvTable w /\ propTable w' = propTable w /\
            rawUTF8 w' = rawUTF8 w /\
            ((e = BackingStoreError \/ e = TransactionError) /\
             exists done rest,
               (fun kv => composite Encode owner kv w) <$> ((k, v) :: pm)
                 = done ++ rest /\ rest <> [] /\
               events w' = EvRollback :: reverse (write_event <$> done) ++ events w /\
               txPending w' = None) /\
            (faults w = [] -> is_Some (kvTable w) -> is_Some (txPending w) ->
             inl e = inr tt /\ faults w' = [])) as Hfail.
  { intros e He Hwhy w'.
    split; [done |]. split; [done |]. split; [done |]. split.
    - split; [done |].
      exists [], ((fun kv => composite Encode owner kv w) <$> ((k, v) :: pm)).
      repeat split; done.
    - intros Hf Hkv Htx. exfalso. destruct Hwhy as [Hw | [Hw | Hw]].
      + by rewrite (ok_next _ Hf) in Hw.
      + rewrite Hw in Hkv. by destruct Hkv.
      + rewrite Hw in Htx. by destruct Htx. }
  apply wp_KeyValue_write.
  - intros t ws Hnf Ht Hp. eapply wp_mono; [apply IH |].
    intros r w' (Hk & Hps & Hr & Hres & Hok).
    simpl in Hk, Hps, Hr.
    split; [done |]. split; [done |]. split; [done |]. split.
    + rewrite fmap_cons. fold (stored Encode w v) in Hres.
      assert ((fun kv => composite Encode owner kv
                 (log (EvWrite ((owner +:+ fieldSep) +:+ k) (stored Encode w v))
                    (set_txPending
                       (Some (ws ++ [((owner +:+ fieldSep) +:+ k, stored Encode w v)]))
                       (pop w)))) <$> pm
              = (fun kv => composite Encode owner kv w) <$> pm) as Hsame.
      { apply list_fmap_ext. intros _ kv _. by apply composite_ext. }
      rewrite Hsame in Hres. clear Hsame.
      set (all := (fun kv => composite Encode owner kv w) <$> pm) in *.
      destruct r as [e|[]].
      * destruct Hres as (He & done & rest & Hall & Hrest & Hev & Hp').
        split; [done |].
        exists (composite Encode owner (k, v) w :: done), rest.
        split; [by rewrite Hall |]. split; [done |]. split; [|done].
        rewrite Hev, fmap_cons, reverse_cons, <- app_assoc. done.
      * destruct Hres as (Hev & Hp'). split.
        -- rewrite Hev, fmap_cons, reverse_cons, <- app_assoc. done.
        -- rewrite Hp', Hp. simpl. by rewrite <- app_assoc.
    + intros Hf _ _. apply Hok; simpl; [by rewrite Hf | by rewrite Ht | done].
  - intros Hw. apply (Hfail BackingStoreError); [auto | tauto].
  - intros Hw. apply (Hfail TransactionError); [auto | tauto].
Qed.

(** The second pass, in every run. *)
Lemma SetLargeMap_range_run input w :
  wp (SetLargeMap_range Encode input) w (fun r w' =>
    kvTable w' = kvTable w /\ propTable w' = propTable w /\
    rawUTF8 w' = rawUTF8 w /\
    (let all := writes_of Encode w input in
     match r with
     | inr _ =>
         events w' = reverse (write_event <$> all) ++ events w /\
         txPending w' = (fun ws => ws ++ all) <$> txPending w
     | inl e =>
         (e = BackingStoreError \/ e = TransactionError) /\
         exists done rest,
           all = done ++ rest /\ rest <> [] /\
           events w' = EvRollback :: reverse (write_event <$> done) ++ events w /\
           txPending w' = None
     end) /\
    (faults w = [] -> is_Some (kvTable w) -> is_Some (txPending w) ->
     r = inr tt /\ faults w' = [])).
Proof.
  revert w. induction input as [|[owner pm] input IH]; intros w.
  { apply wp_ret. repeat split; try done.
    destruct (txPending w); simpl; [|done]. by rewrite app_nil_r. }
  cbn [SetLargeMap_range]. apply wp_bind.
  eapply wp_mono; [apply SetLargeMap_owner_run |].
  intros [e|[]] w1 (Hk1 & Hps1 & Hr1 & Hres1 & Hok1).
  { destruct Hres1 as (He & done & rest & Hall & Hrest & Hev & Hp).
    split; [done |]. split; [done |]. split; [done |]. split.
    - split; [done |]. exists done, (rest ++ writes_of Encode w input).
      split; [|split; [|done]].
      + unfold writes_of. simpl. fold (writes_of Encode w input).
        by rewrite Hall, <- app_assoc.
      + by destruct rest.
    - intros Hf Hkv Htx. by destruct (Hok1 Hf Hkv Htx). }
  destruct Hres1 as (Hev1 & Hp1).
  eapply wp_mono; [apply IH |].
  intros r w' (Hk & Hps & Hr & Hres & Hok).
  split; [congruence |]. split; [congruence |]. split; [congruence |].
  rewrite (writes_of_ext input w w1 Hr1) in Hres.
  assert (writes_of Encode w ((owner, pm) :: input) =
            ((fun kv => composite Encode owner kv w) <$> pm) ++ writes_of Encode w input)
    as -> by done.
  set (mine := (fun kv => composite Encode owner kv w) <$> pm) in *.
  set (others := writes_of Encode w input) in *.
  split.
  - destruct r as [e|[]].
    + destruct Hres as (He & done & rest & Hall & Hrest & Hev & Hp).
      split; [done |]. exists (mine ++ done), rest.
      split; [by rewrite Hall, app_assoc |]. split; [done |]. split; [|done].
      rewrite Hev, Hev1, fmap_app, reverse_app, <- app_assoc. done.
    + destruct Hres as (Hev & Hp). split.
      * rewrite Hev, Hev1, fmap_app, reverse_app, <- app_assoc. done.
      * rewrite Hp, Hp1. destruct (txPending w); simpl; [|done].
        by rewrite app_assoc.
  - intros Hf Hkv Htx. destruct (Hok1 Hf Hkv Htx) as [_ Hf1].
    apply Hok; [done | by rewrite Hk1 |].
    rewrite Hp1. destruct Htx as [ws ->]. by eexists.
Qed.

Lemma SetLargeMap_run first input w :
  wp (HashMap2_SetLargeMap Encode first input) w (fun r w' =>
    SetLargeMap_outcome Encode w first input r w' /\
    (faults w = [] -> is_Some (kvTable w) -> is_Some (propTable w) ->
     r = inr tt)).
Proof.
  unfold HashMap2_SetLargeMap, SetLargeMap_outcome.
  apply wp_bind, wp_Set_All.
  2:{ intros Hfail. split.
      - split; [done |]. split; [done |]. exists []. split; [done |].
        split; [auto |]. split; [done |]. left.
        by exists [], (findNewProps (elements (encountered w)) first).
      - intros Hf _ Hs. exfalso. destruct Hfail as [H|H].
        + by rewrite (ok_next _ Hf) in H.
        + rewrite H in Hs. by destruct Hs. }
  intros s Hnf Hs.
  assert (encountered w = s) as Hen by (unfold encountered; by rewrite Hs).
  rewrite Hen. set (newProps := findNewProps (elements s) first).
  apply wp_bind. eapply wp_mono; [apply storeNewProps_run |].
  intros r w1 (Hk1 & Hp1 & Hr1 & (done & rest & Hsplit & Hev1 & Hps1 & Hres1) & Hok1).
  simpl in Hk1, Hp1, Hr1, Hev1, Hps1. rewrite Hs in Hps1. simpl in Hps1.
  assert (s ⊆ encountered w1) as Hsub1.
  { unfold encountered. rewrite Hps1. simpl. set_solver. }
  destruct r as [e|[]].
  { subst e. split.
    - split; [done |]. split; [done |]. exists (EvPropAdd <$> done).
      split; [done |]. split; [auto |]. split; [done |]. left.
      by exists done, rest.
    - intros Hf _ _.
      destruct Hok1 as [? _]; [simpl; by rewrite Hf | simpl; rewrite Hs; by eexists |]. done. }
  subst rest. rewrite app_nil_r in Hsplit. subst done.
  apply wp_bind, wp_BeginTx.
  2:{ intros Hfail. simpl. split.
      - split; [done |]. split; [done |]. exists (EvPropAdd <$> newProps).
        split; [done |]. split; [auto |]. split; [done |]. left.
        exists newProps, []. by rewrite app_nil_r.
      - intros Hf _ _.
        destruct Hok1 as [_ Hf1]; [simpl; by rewrite Hf | simpl; rewrite Hs; by eexists |].
        by rewrite (ok_next _ Hf1) in Hfail. }
  intros Hnf1. apply wp_bind.
  eapply wp_mono; [apply SetLargeMap_range_run |].
  intros r w3 (Hk3 & Hps3 & Hr3 & Hres3 & Hok3).
  simpl in Hk3, Hps3, Hr3, Hres3.
  rewrite (writes_of_ext input w) in Hres3 by (simpl; congruence).
  set (writes := writes_of Encode w input) in *.
  assert (s ⊆ encountered w3) as Hsub3.
  { unfold encountered. rewrite Hps3, Hps1. simpl. set_solver. }
  assert (faults w = [] -> is_Some (kvTable w) ->
          r = inr tt /\ faults w3 = []) as Hok3'.
  { intros Hf Hkv.
    destruct Hok1 as [_ Hf1]; [simpl; by rewrite Hf | simpl; rewrite Hs; by eexists |].
    apply Hok3; simpl; [by rewrite Hf1 | by rewrite Hk1 | by eexists]. }
  destruct r as [e|[]].
  { destruct Hres3 as (He & done & rest & Hall & Hrest & Hev3 & Hp3). split.
    - split; [congruence |]. split; [done |].
      exists ((EvPropAdd <$> newProps) ++ [EvBegin] ++
              (write_event <$> done) ++ [EvRollback]).
      split.
      { rewrite Hev3, Hev1, !reverse_app. simpl. rewrite <- !app_assoc. done. }
      split; [done |]. split; [congruence |]. right. left. by exists done, rest.
    - intros Hf Hkv _. by destruct (Hok3' Hf Hkv). }
  destruct Hres3 as (Hev3 & Hp3). simpl in Hp3.
  apply wp_Commit.
  - intros Hnone. congruence.
  - intros ws Hws Hnf3. simpl. split.
    + split; [congruence |]. split; [done |].
      exists ((EvPropAdd <$> newProps) ++ [EvBegin] ++ (write_event <$> writes)).
      split.
      { rewrite Hev3, Hev1, !reverse_app. simpl. rewrite <- !app_assoc. done. }
      split; [auto |]. split; [congruence |]. right. right. done.
    + intros Hf Hkv _. destruct (Hok3' Hf Hkv) as [_ Hf3].
      by rewrite (ok_next _ Hf3) in Hnf3.
  - intros ws Hws Hnf3. simpl. split; [|done].
    rewrite Hp3 in Hws. injection Hws as <-.
    split; [congruence |]. split.
    { unfold encountered. simpl. rewrite Hps3, Hps1. simpl. set_solver. }
    exists ((EvPropAdd <$> newProps) ++ [EvBegin] ++
            (write_event <$> writes) ++ [EvCommit]).
    split.
    { rewrite Hev3, Hev1, !reverse_app. simpl. rewrite <- !app_assoc. done. }
    split; [done |]. split; [by rewrite Hk3, Hk1 |]. split; [|done].
    by rewrite Hps3, Hps1.
Qed.

(** *** Two orders of one map *)

Lemma same_map_refl input : same_map input input.
Proof.
  exists input. split; [done |].
  induction input as [|om input IH]; by constructor.
Qed.

Lemma same_map_elem_l a b o pm :
  same_map a b -> (o, pm) ∈ a -> exists pm', (o, pm') ∈ b /\ pm ≡ₚ pm'.
Proof.
  intros (mid & Hp & Hf) Hin. rewrite Hp in Hin.
  apply list_elem_of_lookup in Hin as [i Hi].
  destruct (Forall2_lookup_l _ _ _ _ _ Hf Hi) as ([o' pm'] & Hi' & Ho & Hpm).
  simpl in Ho, Hpm. subst o'. exists pm'. split; [|done].
  by eapply list_elem_of_lookup_2.
Qed.

Lemma same_map_elem_r a b o pm :
  same_map a b -> (o, pm) ∈ b -> exists pm', (o, pm') ∈ a /\ pm' ≡ₚ pm.
Proof.
  intros (mid & Hp & Hf) Hin.
  apply list_elem_of_lookup in Hin as [i Hi].
  destruct (Forall2_lookup_r _ _ _ _ _ Hf Hi) as ([o' pm'] & Hi' & Ho & Hpm).
  simpl in Ho, Hpm. subst o'. exists pm'. split; [|done].
  rewrite Hp. by eapply list_elem_of_lookup_2.
Qed.

Lemma keys_of_inv input k :
  k ∈ keys_of input -> exists o pm, (o, pm) ∈ input /\ k ∈ pm.*1.
Proof.
  unfold keys_of. induction input as [|[o pm] input IH]; simpl.
  { by intros ?%elem_of_nil. }
  intros [H|H]%elem_of_app.
  - exists o, pm. split; [by left | done].
  - destruct (IH H) as (o' & pm' & Hin & Hk).
    exists o', pm'. split; [by right | done].
Qed.

(** Both orders show the same property keys, *)
Lemma same_map_keys a b k :
  same_map a b -> k ∈ keys_of a <-> k ∈ keys_of b.
Proof.
  intros H. split; intros (o & pm & Hin & Hk)%keys_of_inv.
  - destruct (same_map_elem_l _ _ _ _ H Hin) as (pm' & Hin' & Hpm).
    apply (keys_of_elem b o pm'); [done |]. by rewrite <- Hpm.
  - destruct (same_map_elem_r _ _ _ _ H Hin) as (pm' & Hin' & Hpm).
    apply (keys_of_elem a o pm'); [done |]. by rewrite Hpm.
Qed.

(** and the same writes, up to their order. *)
Lemma same_map_writes a b w :
  same_map a b -> writes_of Encode w a ≡ₚ writes_of Encode w b.
Proof.
  intros (mid & Hp & Hf). unfold writes_of.
  etrans; [by apply Permutation_flat_map |]. clear Hp.
  induction Hf as [|[o pm] [o' pm'] l k [Ho Hpm] _ IH]; [done |].
  simpl in Ho, Hpm. subst o'. cbn [flat_map fst snd].
  by rewrite IH, Hpm.
Qed.

(** C9: [SetLargeMap] makes no separator check: in no run does it return
    an error built by [fmt.Errorf], and in a store with both tables in
    place and no spurious failure it returns nil for every input, with or
    without separators in owners and keys.  What it does, in order
    ([SetLargeMap_outcome]), whatever the orders in which its two loops
    range over the map: it adds the property keys found by one pass over
    all owners, each key not yet encountered exactly once, before the
    transaction is begun; then it begins one transaction, issues one write
    per (owner, key, value) triple and commits once at the end.  A run
    that fails stops at the failing addition, or rolls back at the first
    write that fails, or fails on commit; the data table is then
    unchanged.  When the two passes range over the same map, the keys
    looked at by the first pass are the keys written by the second, and
    the writes are those of the map, in the order of the second pass. *)
Theorem SetLargeMap_unchecked_bulk
    (firstPass secondPass : list (string * list (string * string)))
    (w : World) :
  exists r w',
    HashMap2_SetLargeMap Encode firstPass secondPass w = (r, w') /\
    SetLargeMap_outcome Encode w firstPass secondPass r w' /\
    (forall msg, r <> inl (Errorf msg)) /\
    (let newProps := findNewProps (elements (encountered w)) firstPass in
     NoDup newProps /\
     forall k, k ∈ newProps <->
               ~ k ∈ encountered w /\ k ∈ keys_of firstPass) /\
    length (writes_of Encode w secondPass) =
      sum_list (length <$> secondPass.*2) /\
    (faults w = [] -> is_Some (kvTable w) -> is_Some (propTable w) ->
     r = inr tt) /\
    (same_map firstPass secondPass ->
     (forall k, k ∈ keys_of firstPass <-> k ∈ keys_of secondPass) /\
     writes_of Encode w firstPass ≡ₚ writes_of Encode w secondPass).
Proof.
  destruct (wp_ex _ _ _ (SetLargeMap_run firstPass secondPass w))
    as (r & w' & Hrun & Hout & Hok).
  exists r, w'. split; [done |]. split; [done |].
  split; [|split; [|split; [|split]]].
  - intros msg ->. destruct Hout as (_ & _ & evs & _ & [He | He] & _); done.
  - destruct (findNewProps_spec (elements (encountered w)) firstPass)
      as [Hnd Hin].
    split; [done |]. intros k. rewrite Hin, elem_of_elements. done.
  - clear Hrun Hout Hok. unfold writes_of.
    induction secondPass as [|[o pm] input IH]; [done |].
    simpl. rewrite length_app, length_fmap, IH. done.
  - done.
  - intros Hsame. split.
    + intros k. by apply same_map_keys.
    + by apply same_map_writes.
Qed.

(** *** The encountered keys stay a cover *)

Lemma SetMap_range_covered owner allProperties m w :
  covered w ->
  wp (HashMap2_SetMap_range Encode owner allProperties m) w
     (fun _ w' => covered w').
Proof.
  revert w. induction m as [|[k v] m IH]; intros w Hc.
  { by apply wp_ret. }
  pose proof Hc as [Hi _].
  cbn [HashMap2_SetMap_range].
  apply wp_bind, wp_orRollback, wp_setPropWithTransaction.
  - intros _. apply (covered_reset w); auto.
  - intros _ _. apply (covered_reset w); auto.
  - intros _ _. apply (covered_reset w); auto.
  - intros s Ho Hk Hs w1 ck. split.
    { intros e _. apply (covered_reset w); [done | done | enc_tac Hs | auto]. }
    intros t ws _ Hp.
    match goal with |- wp _ ?w' _ => set (w2 := w') end.
    assert (covered w2) as Hc2.
    { apply (covered_write w w2 ws ck (stored Encode w v)); try done.
      - enc_tac Hs.
      - intros o k' Heq. apply (composite_inj owner k o k' Ho Hk) in Heq as [_ ->].
        enc_tac Hs. }
    apply wp_bind. destruct (negb (hasS allProperties k)).
    + apply wp_orRollback, wp_Set_Add.
      * intros s2 _ Hs2. apply IH.
        apply (covered_same w2); [done | done | done |]. enc_tac Hs2.
      * intros _. destruct Hc2 as [Hi2 _].
        apply (covered_reset w2); auto.
    + apply wp_ret. by apply IH.
Qed.

Lemma SetMap_covers owner m w :
  index_covers w ->
  wp (HashMap2_SetMap Encode owner m) w (fun _ w' => index_covers w').
Proof.
  intros Hi. unfold HashMap2_SetMap. apply wp_bind, wp_Set_All.
  2:{ intros _. by apply (index_covers_mono w). }
  intros s _ Hs. apply wp_bind, wp_BeginTx.
  2:{ intros _. by apply (index_covers_mono w). }
  intros _. apply wp_bind. eapply wp_mono.
  { apply SetMap_range_covered. apply (covered_reset w); auto. }
  intros [e|[]] w' Hc; [by destruct Hc |].
  apply wp_Commit.
  - intros _. by destruct Hc.
  - intros ws _ _. destruct Hc as [Hi' _]. by apply (index_covers_mono w').
  - intros ws Hws _. by apply (covered_commit w' _ ws).
Qed.

Lemma writes_of_elem w input ck v :
  (ck, v) ∈ writes_of Encode w input ->
  exists owner pm k, (owner, pm) ∈ input /\ k ∈ pm.*1 /\
                     ck = (owner +:+ fieldSep) +:+ k.
Proof.
  unfold writes_of. induction input as [|[o pm] input IH]; simpl.
  { by intros ?%elem_of_nil. }
  intros [Hin|Hin]%elem_of_app.
  - apply list_elem_of_fmap in Hin as ([k v'] & Heq & Hin).
    injection Heq as -> ->. exists o, pm, k. split; [left |].
    split; [|done]. apply list_elem_of_fmap. by exists (k, v').
  - destruct (IH Hin) as (owner & pm' & k & Hin' & Hk & Hck).
    exists owner, pm', k. split; [by right | done].
Qed.

Lemma SetLargeMap_covers first input w :
  index_covers w -> same_map first input -> separator_free first ->
  wp (HashMap2_SetLargeMap Encode first input) w
     (fun _ w' => index_covers w').
Proof.
  intros Hi Hsame Hfree. eapply wp_mono; [apply SetLargeMap_run |].
  intros r w' [(Hr & Hen & evs & Hev & Hres) _].
  destruct r as [e|[]].
  { destruct Hres as (_ & Hk & _). apply (index_covers_mono w); [done | | done].
    unfold stored_keys. by rewrite Hk. }
  destruct Hres as (_ & Hk & Hps & _).
  intros owner key Hin. unfold stored_keys in Hin. rewrite Hk in Hin.
  destruct (kvTable w) as [t|] eqn:Hkv; simpl in Hin; [|set_solver].
  rewrite dom_apply_writes in Hin. apply elem_of_union in Hin as [Hin|Hin].
  { apply Hen, (Hi owner). unfold stored_keys. by rewrite Hkv. }
  apply elem_of_list_to_set, list_elem_of_fmap in Hin as ([ck v] & Hck & Hin).
  simpl in Hck. subst ck.
  apply writes_of_elem in Hin as (o & pm & k & Hin & Hkin & Heq).
  destruct (same_map_elem_r _ _ _ _ Hsame Hin) as (pm1 & Hin1 & Hpm).
  rewrite <- Hpm in Hkin.
  destruct (Hfree o pm1 k Hin1 Hkin) as [Ho Hk'].
  symmetry in Heq. apply (composite_inj o k owner key Ho Hk') in Heq as [_ ->].
  destruct (decide (k ∈ encountered w)) as [Hold|Hnew]; [by apply Hen |].
  assert (k ∈ findNewProps (elements (encountered w)) first) as Hfound.
  { apply findNewProps_spec. rewrite elem_of_elements. split; [done |].
    by eapply keys_of_elem. }
  unfold encountered at 1. rewrite Hps. simpl.
  apply elem_of_union. left. by apply elem_of_list_to_set.
Qed.

(** C3, as the code has it: that every property key of every composite
    key in the data table is among the encountered keys is preserved by
    [Set], [SetMap], [DelKey] and [Del] in every run, failing ones
    included (the write paths add the key before the write is committed;
    [DelKey] and [Del] leave the encountered keys as they are); by
    [SetLargeMap] when no owner and no key of its input contains the
    separator, whatever the orders in which its two passes range over
    the input; and by [Clear] and [Remove], which empty the encountered
    keys too, when they return nil or the store does not fail
    spuriously. *)
Theorem index_covers_preserved (w : World) :
  index_covers w ->
  (forall owner key value,
     index_covers (after (HashMap2_Set Encode owner key value) w)) /\
  (forall owner m, index_covers (after (HashMap2_SetMap Encode owner m) w)) /\
  (forall firstPass secondPass,
     same_map firstPass secondPass -> separator_free firstPass ->
     index_covers
       (after (HashMap2_SetLargeMap Encode firstPass secondPass) w)) /\
  (forall owner key,
     index_covers (after (HashMap2_DelKey owner key) w) /\
     propTable (after (HashMap2_DelKey owner key) w) = propTable w) /\
  (forall owner,
     index_covers (after (HashMap2_Del owner) w) /\
     propTable (after (HashMap2_Del owner) w) = propTable w) /\
  (forall r w', HashMap2_Clear w = (r, w') ->
     r = inr tt \/ faults w = [] -> index_covers w') /\
  (forall r w', HashMap2_Remove w = (r, w') ->
     r = inr tt \/ faults w = [] -> index_covers w').
Proof.
  intros Hi. repeat split.
  - intros owner key value. apply (SetMap_covers owner [(key, value)] w Hi).
  - intros owner m. apply (SetMap_covers owner m w Hi).
  - intros firstPass secondPass Hsame Hfree.
    apply (SetLargeMap_covers firstPass secondPass w Hi Hsame Hfree).
  - unfold after. rewrite DelKey_eq.
    destruct (next_fails w); [by apply (index_covers_mono w) |].
    destruct (kvTable w) as [t|] eqn:Ht; [|by apply (index_covers_mono w)].
    apply (index_covers_mono w); [done | | done].
    unfold stored_keys. simpl. rewrite Ht. simpl. rewrite dom_delete_L.
    set_solver.
  - unfold after. rewrite DelKey_eq.
    destruct (next_fails w); [done |]. by destruct (kvTable w).
  - destruct (Del_shrinks owner w) as [Hsub Hp].
    apply (index_covers_mono w); [done | done |].
    unfold encountered, after. by rewrite Hp.
  - by destruct (Del_shrinks owner w) as [Hsub Hp].
  - intros r w' Hrun Hwhen. apply index_covers_empty.
    by apply (wp_run _ _ _ _ _ (Clear_empties w) Hrun).
  - intros r w' Hrun Hwhen. apply index_covers_empty.
    by apply (wp_run _ _ _ _ _ (Remove_empties w) Hrun).
Qed.

End Writes.

(** ** Reading *)

Section Reads.

Variable Decode : string -> string.

Lemma wp_KeyValue_Get key w Q :
  (forall t v, next_fails w = false -> kvTable w = Some t ->
               t !! key = Some v -> Q (inr (loaded Decode w v)) (pop w)) ->
  (forall t, next_fails w = false -> kvTable w = Some t ->
             t !! key = None -> Q (inl NotFound) (pop w)) ->
  (next_fails w = true \/ kvTable w = None ->
   Q (inl BackingStoreError) (pop w)) ->
  wp (KeyValue_Get Decode key) w Q.
Proof.
  intros H1 H2 H3. unfold KeyValue_Get.
  apply wp_bind, wp_KeyValue_table; [|done].
  intros t Hf Ht. destruct (t !! key) as [v|] eqn:Hv.
  - apply wp_bind, wp_get, wp_ret. by apply (H1 t).
  - apply wp_fail. by apply (H2 t).
Qed.

Lemma Get_ok owner key w t :
  faults w = [] -> kvTable w = Some t ->
  HashMap2_Get Decode owner key w =
    (match t !! ((owner +:+ fieldSep) +:+ key) with
     | Some v => inr (loaded Decode w v)
     | None => inl NotFound
     end, w).
Proof.
  intros Hf Ht.
  destruct (wp_ex (HashMap2_Get Decode owner key) w (fun r w' =>
              r = match t !! ((owner +:+ fieldSep) +:+ key) with
                  | Some v => inr (loaded Decode w v)
                  | None => inl NotFound
                  end /\ w' = w)) as (r & w' & -> & -> & ->); [|done].
  unfold HashMap2_Get. apply wp_KeyValue_Get; [ | |no_failure].
  - intros t0 v _ Ht0 Hv. pop_ok. assert (t0 = t) as -> by congruence.
    by rewrite Hv.
  - intros t0 _ Ht0 Hv. pop_ok. assert (t0 = t) as -> by congruence.
    by rewrite Hv.
Qed.

(** *** Has *)

Lemma wp_Has owner key w Q :
  (forall t, next_fails w = false -> kvTable w = Some t ->
             Q (inr (held Decode w t owner key)) (pop w)) ->
  (next_fails w = true \/ kvTable w = None ->
   Q (inl BackingStoreError) (pop w)) ->
  wp (HashMap2_Has Decode owner key) w Q.
Proof.
  intros H1 H2. unfold HashMap2_Has.
  apply wp_bind, wp_attempt, wp_KeyValue_Get.
  - intros t v Hf Ht Hv. specialize (H1 t Hf Ht). unfold held in H1.
    rewrite Hv in H1. destruct (decide (loaded Decode w v = "")) as [E|E].
    + apply wp_ret. by rewrite bool_decide_eq_false_2 in H1 by auto.
    + apply wp_ret. by rewrite bool_decide_eq_true_2 in H1.
  - intros t Hf Ht Hv. specialize (H1 t Hf Ht). unfold held in H1.
    rewrite Hv in H1. by apply wp_ret.
  - intros H. apply wp_fail. auto.
Qed.

Lemma KeyValue_Get_eq key w :
  KeyValue_Get Decode key w =
    (if next_fails w then inl BackingStoreError
     else match kvTable w with
          | None => inl BackingStoreError
          | Some t => match t !! key with
                      | None => inl NotFound
                      | Some v => inr (loaded Decode w v)
                      end
          end, pop w).
Proof.
  apply wp_eq, wp_KeyValue_Get.
  - intros t v -> -> ->. done.
  - intros t -> -> ->. done.
  - intros [-> | ->]; [done | by destruct (next_fails w)].
Qed.

Lemma Has_eq owner key w :
  HashMap2_Has Decode owner key w =
    (if next_fails w then inl BackingStoreError
     else match kvTable w with
          | None => inl BackingStoreError
          | Some t => inr (held Decode w t owner key)
          end, pop w).
Proof.
  apply wp_eq, wp_Has.
  - intros t -> ->. done.
  - intros [-> | ->]; [done | by destruct (next_fails w)].
Qed.

(** C4, as the code has it: [Has] returns (true, nil) exactly when the
    read succeeds with a non-empty value; it returns (false, nil) exactly
    when the read reports [NotFound] or succeeds with the empty string, so
    a key stored with an empty value is reported as absent; any other
    error of the read is returned unchanged.  In terms of the store: the
    answer is [true] iff the composite key is in the data table with a
    non-empty value, [false] iff it is missing or holds the empty string,
    and an error iff the call failed or the table is gone. *)
Theorem Has_outcome (w : World) (owner key : string) :
  let ck := (owner +:+ fieldSep) +:+ key in
  exists r,
    HashMap2_Has Decode owner key w = (r, pop w) /\
    r = match (KeyValue_Get Decode ck w).1 with
        | inl err => if noResult err then inr false else inl err
        | inr s => inr (bool_decide (s <> ""))
        end /\
    (r = inr true <->
       exists t v, next_fails w = false /\ kvTable w = Some t /\
                   t !! ck = Some v /\ loaded Decode w v <> "") /\
    (r = inr false <->
       exists t, next_fails w = false /\ kvTable w = Some t /\
                 (t !! ck = None \/
                  exists v, t !! ck = Some v /\ loaded Decode w v = "")) /\
    (forall e, r = inl e <->
       e = BackingStoreError /\ (next_fails w = true \/ kvTable w = None)).
Proof.
  intros ck. eexists. split; [apply Has_eq |].
  rewrite KeyValue_Get_eq. cbn [fst]. unfold held. fold ck.
  destruct (next_fails w) eqn:Hf.
  { split; [done |]. split; [|split].
    - split; [done | by intros (t & v & ? & _)].
    - split; [done | by intros (t & ? & _)].
    - intros e. split; [intros [= <-]; auto | by intros [-> _]]. }
  destruct (kvTable w) as [t|] eqn:Ht.
  2:{ split; [done |]. split; [|split].
      - split; [done | by intros (t & v & _ & ? & _)].
      - split; [done | by intros (t & _ & ? & _)].
      - intros e. split; [intros [= <-]; auto | by intros [-> _]]. }
  destruct (t !! ck) as [v|] eqn:Hv.
  - split; [done |]. split; [|split].
    + split.
      * intros [= H]. apply bool_decide_eq_true in H. by exists t, v.
      * intros (t' & v' & _ & [= <-] & Hv' & Hne).
        rewrite Hv in Hv'. injection Hv' as <-.
        by rewrite bool_decide_eq_true_2.
    + split.
      * intros [= H]. apply bool_decide_eq_false in H. exists t.
        repeat split; try done. right. exists v. split; [done |].
        by destruct (decide (loaded Decode w v = "")).
      * intros (t' & _ & [= <-] & [Hn | (v' & Hv' & He)]).
        -- congruence.
        -- rewrite Hv in Hv'. injection Hv' as <-.
           rewrite bool_decide_eq_false_2; [done | auto].
    + intros e. split; [done |]. intros [_ [? | ?]]; congruence.
  - split; [done |]. split; [|split].
    + split; [done |]. intros (t' & v' & _ & [= <-] & Hv' & _). congruence.
    + split; [|done]. intros _. exists t. auto.
    + intros e. split; [done |]. intros [_ [? | ?]]; congruence.
Qed.

(** *** DelKey then Has *)

(** C8: [DelKey] never touches the set of encountered keys, in any run;
    whenever [DelKey(owner, key)] returns nil, a [Has(owner, key)] whose
    read is not hit by a store failure returns false; and in a store with
    the data table in place and no spurious failure, [DelKey] does return
    nil, [Has] then returns false, and [AllEncounteredKeys()] returns what
    it returned before, so a key that was ever added is still listed even
    when no owner holds it. *)
Theorem DelKey_then_Has (w : World) (owner key : string) :
  propTable (HashMap2_DelKey owner key w).2 = propTable w /\
  (forall w1,
     HashMap2_DelKey owner key w = (inr tt, w1) ->
     next_fails w1 = false ->
     HashMap2_Has Decode owner key w1 = (inr false, pop w1)) /\
  (is_Some (kvTable w) -> faults w = [] ->
   exists w1,
     HashMap2_DelKey owner key w = (inr tt, w1) /\
     HashMap2_Has Decode owner key w1 = (inr false, w1) /\
     (HashMap2_AllEncounteredKeys w1).1 = (HashMap2_AllEncounteredKeys w).1 /\
     forall s k, propTable w = Some s -> k ∈ s ->
       exists l, HashMap2_AllEncounteredKeys w1 = (inr l, w1) /\ k ∈ l).
Proof.
  rewrite DelKey_eq. split; [|split].
  { destruct (next_fails w); [done |]. by destruct (kvTable w). }
  { intros w1. destruct (next_fails w); [done |].
    destruct (kvTable w) as [t|]; [|done]. intros [= <-] Hnf.
    rewrite Has_eq, Hnf. cbn [kvTable set_kvTable]. unfold held.
    by rewrite lookup_delete_eq. }
  intros [t Ht] Hf. rewrite (ok_next _ Hf), Ht, (pop_ok _ Hf).
  eexists. split; [done |].
  rewrite Has_eq, !AllEncounteredKeys_eq.
  rewrite (pop_ok (set_kvTable _ _)) by done.
  rewrite (ok_next (set_kvTable _ _)) by done. rewrite (ok_next _ Hf).
  cbn [kvTable propTable set_kvTable fst]. unfold held.
  rewrite lookup_delete_eq. split; [done |]. split; [done |].
  intros s k -> Hk. eexists. split; [done |]. by apply elem_of_elements.
Qed.

(** *** Keys *)

Lemma Keys_range_ok owner l acc w t :
  faults w = [] -> kvTable w = Some t ->
  Keys_range Decode owner l acc w =
    (inr (acc ++ filter (fun k => held Decode w t owner k) l), w).
Proof.
  intros Hf Ht. revert acc. induction l as [|k l IH]; intros acc.
  { simpl. by rewrite app_nil_r. }
  cbn [Keys_range].
  erewrite bind_inr; last first.
  { apply attempt_eq. rewrite Has_eq, (ok_next _ Hf), Ht, (pop_ok _ Hf).
    reflexivity. }
  rewrite filter_cons. destruct (held Decode w t owner k) eqn:E.
  - rewrite IH. rewrite decide_True by done. by rewrite <- app_assoc.
  - rewrite IH. by rewrite decide_False by (intros []).
Qed.

(** C7, as the code has it: with both tables readable and no spurious
    failure, [Keys(owner)] returns, without duplicates, exactly the
    encountered keys under which [owner] holds a non-empty value; a key
    held with the empty string is left out.  When the encountered keys
    cover the data table these are exactly the keys under which [owner]
    holds a non-empty value: none held only by other owners, none
    missing. *)
Theorem Keys_held_nonempty (w : World) (owner : string) t s :
  faults w = [] -> kvTable w = Some t -> propTable w = Some s ->
  exists l,
    HashMap2_Keys Decode owner w = (inr l, w) /\ NoDup l /\
    (forall k, k ∈ l <->
       k ∈ s /\ exists v, t !! ((owner +:+ fieldSep) +:+ k) = Some v /\
                          loaded Decode w v <> "") /\
    (index_covers w ->
     forall k, k ∈ l <->
       exists v, t !! ((owner +:+ fieldSep) +:+ k) = Some v /\
                 loaded Decode w v <> "").
Proof.
  intros Hf Ht Hs.
  assert (forall k, held Decode w t owner k <->
            exists v, t !! ((owner +:+ fieldSep) +:+ k) = Some v /\
                      loaded Decode w v <> "") as Hheld.
  { intros k. unfold held.
    destruct (t !! ((owner +:+ fieldSep) +:+ k)) as [v|].
    - rewrite bool_decide_spec. split; [by exists v | by intros (? & [= <-] & ?)].
    - split; [done | by intros (? & ? & _)]. }
  exists (filter (fun k => held Decode w t owner k) (elements s)).
  split; [|split; [|split]].
  - unfold HashMap2_Keys.
    erewrite bind_inr; last first.
    { rewrite Set_All_eq, (ok_next _ Hf), Hs, (pop_ok _ Hf). reflexivity. }
    by rewrite (Keys_range_ok owner _ [] w t).
  - apply NoDup_filter, NoDup_elements.
  - intros k. rewrite list_elem_of_filter, elem_of_elements, Hheld. tauto.
  - intros Hcov k. rewrite list_elem_of_filter, elem_of_elements, Hheld.
    split; [tauto |]. intros (v & Hv & Hne). split; [eauto |].
    specialize (Hcov owner k). unfold stored_keys, encountered in Hcov.
    rewrite Ht, Hs in Hcov. simpl in Hcov. apply Hcov.
    by apply elem_of_dom_2 in Hv.
Qed.

End Reads.

(** ** Set then Get *)

(** C1: whenever [Set(owner, key, value)] returns nil, a [Get(owner, key)]
    whose read is not hit by a store failure returns exactly [value],
    whatever the tables held before; and with both tables in place, no
    separator in [owner] and [key] and no spurious failure, [Set] does
    return nil and [Get] returns [value].  [Decode] has to undo [Encode]
    on the value when the host does not store raw UTF-8. *)
Theorem Set_then_Get (Encode Decode : string -> string)
    (w : World) (owner key value : string) :
  (rawUTF8 w = false -> Decode (Encode value) = value) ->
  (forall w1,
     HashMap2_Set Encode owner key value w = (inr tt, w1) ->
     next_fails w1 = false ->
     HashMap2_Get Decode owner key w1 = (inr value, pop w1)) /\
  (Contains owner fieldSep = false -> Contains key fieldSep = false ->
   is_Some (kvTable w) -> is_Some (propTable w) -> faults w = [] ->
   exists w1,
     HashMap2_Set Encode owner key value w = (inr tt, w1) /\
     HashMap2_Get Decode owner key w1 = (inr value, w1)).
Proof.
  intros Hdec.
  assert (forall w1, rawUTF8 w1 = rawUTF8 w ->
            loaded Decode w1 (stored Encode w value) = value) as Hback.
  { intros w1 Hr. unfold loaded, stored. rewrite Hr.
    destruct (rawUTF8 w); simpl; auto. }
  split.
  - intros w1 Hrun Hnf.
    destruct (wp_run _ _ _ _ _ (SetMap_run Encode owner [(key, value)] w)
                Hrun eq_refl) as (Hr & Hk & Hsome).
    destruct Hsome as [t Ht]; [done |]. rewrite Ht in Hk. simpl in Hk.
    unfold HashMap2_Get. rewrite KeyValue_Get_eq, Hnf, Hk.
    rewrite lookup_insert_eq. by rewrite Hback.
  - intros Ho Hk [t Ht] [s Hs] Hf.
    destruct (wp_ex _ _ _ (SetMap_ok Encode owner [(key, value)] w t s Hf Ht Hs
                ltac:(unfold valid_entry; simpl; by rewrite Ho, Hk)))
      as (r & w1 & Hset & -> & Hf1 & Hr1 & Ht1 & _).
    exists w1. split; [exact Hset |].
    rewrite (Get_ok Decode owner key w1 _ Hf1 Ht1). simpl.
    rewrite lookup_insert_eq. by rewrite Hback.
Qed.

(** * Further properties *)

(** ** Buffered writes *)

Lemma apply_writes_lookup_ne ws (t : gmap string string) k :
  k ∉ ws.*1 -> apply_writes ws t !! k = t !! k.
Proof.
  unfold apply_writes. revert t.
  induction ws as [|[k0 v0] ws IH]; intros t Hk; [done |].
  simpl in *. apply not_elem_of_cons in Hk as [Hne Hk].
  rewrite IH by done. by rewrite lookup_insert_ne.
Qed.

Lemma apply_writes_lookup ws (t : gmap string string) k v :
  NoDup ws.*1 -> (k, v) ∈ ws -> apply_writes ws t !! k = Some v.
Proof.
  revert t. induction ws as [|[k0 v0] ws IH]; intros t Hnd Hin.
  { by apply elem_of_nil in Hin. }
  simpl in Hnd. apply NoDup_cons in Hnd as [Hk0 Hnd].
  apply elem_of_cons in Hin as [[= -> ->] | Hin].
  - change (apply_writes ((k0, v0) :: ws) t)
      with (apply_writes ws (<[k0 := v0]> t)).
    rewrite apply_writes_lookup_ne by done. apply lookup_insert_eq.
  - change (apply_writes ((k0, v0) :: ws) t)
      with (apply_writes ws (<[k0 := v0]> t)).
    by apply IH.
Qed.

Lemma BeginTx_ok w :
  faults w = [] ->
  BeginTx w = (inr tt, log EvBegin (set_txPending (Some []) w)).
Proof. intros Hf. unfold BeginTx, bind, tick, modify. by rewrite Hf. Qed.

Lemma Commit_ok w ws :
  faults w = [] -> txPending w = Some ws ->
  Commit w =
    (inr tt, log EvCommit
               (set_txPending None
                  (set_kvTable (apply_writes ws <$> kvTable w) w))).
Proof. intros Hf Hp. unfold Commit, tick. by rewrite Hp, Hf. Qed.

Lemma wp_conj {A} (c : M A) w (Q1 Q2 : error + A -> World -> Prop) :
  wp c w Q1 -> wp c w Q2 -> wp c w (fun r w' => Q1 r w' /\ Q2 r w').
Proof. unfold wp. auto. Qed.

(** ** Reads leave the store as it is *)

Lemma same_store_refl w : same_store w w.
Proof. by repeat split. Qed.

Lemma same_store_trans w1 w2 w3 :
  same_store w1 w2 -> same_store w2 w3 -> same_store w1 w3.
Proof.
  intros (? & ? & ? & ? & ?) (? & ? & ? & ? & ?). repeat split; congruence.
Qed.

Lemma same_store_pop w : same_store w (pop w).
Proof. by repeat split. Qed.

Lemma Set_All_same w : wp Set_All w (fun _ w' => same_store w w').
Proof. apply wp_Set_All; intros; apply same_store_pop. Qed.

Lemma All_same w : wp HashMap2_All w (fun _ w' => same_store w w').
Proof.
  unfold HashMap2_All. apply wp_bind, wp_KeyValue_All.
  - intros t _ _. apply wp_ret, same_store_pop.
  - intros _. apply same_store_pop.
Qed.

Section MoreReads.

Variable Decode : string -> string.

Lemma Get_same owner key w :
  wp (HashMap2_Get Decode owner key) w (fun _ w' => same_store w w').
Proof.
  unfold HashMap2_Get. apply wp_KeyValue_Get; intros; apply same_store_pop.
Qed.

Lemma Has_same owner key w :
  wp (HashMap2_Has Decode owner key) w (fun _ w' => same_store w w').
Proof. apply wp_Has; intros; apply same_store_pop. Qed.

Lemma Keys_range_same owner l acc w0 w :
  same_store w0 w ->
  wp (Keys_range Decode owner l acc) w (fun _ w' => same_store w0 w').
Proof.
  revert acc w. induction l as [|k l IH]; intros acc w H0.
  { by apply wp_ret. }
  cbn [Keys_range]. apply wp_bind, wp_attempt.
  eapply wp_mono; [apply Has_same |]. intros r w' Hs.
  pose proof (same_store_trans _ _ _ H0 Hs).
  destruct r as [e|[]]; by apply IH.
Qed.

Lemma Exists_range_same owner l w0 w :
  same_store w0 w ->
  wp (Exists_range Decode owner l) w (fun _ w' => same_store w0 w').
Proof.
  revert w. induction l as [|k l IH]; intros w H0.
  { by apply wp_ret. }
  cbn [Exists_range]. apply wp_bind, wp_attempt.
  eapply wp_mono; [apply Has_same |]. intros r w' Hs.
  pose proof (same_store_trans _ _ _ H0 Hs).
  destruct r as [e|[]]; [by apply IH | by apply wp_ret | by apply IH].
Qed.

Lemma AllWhere_range_same key value l acc w0 w :
  same_store w0 w ->
  wp (AllWhere_range Decode key value l acc) w
     (fun _ w' => same_store w0 w').
Proof.
  revert acc w. induction l as [|o l IH]; intros acc w H0.
  { by apply wp_ret. }
  cbn [AllWhere_range]. apply wp_bind, wp_attempt.
  eapply wp_mono; [apply Get_same |]. intros r w' Hs.
  pose proof (same_store_trans _ _ _ H0 Hs).
  destruct r as [e|v]; [by apply IH |].
  destruct (decide (v = value)); by apply IH.
Qed.

(** No read changes a table, the open transaction or the log, in any
    run, failing ones included: [Get], [Has], [Exists], [Keys], [All],
    [Count], [CountInt64], [AllWhere] and [AllEncounteredKeys] leave the
    store as it is. *)
Theorem reads_leave_store (w : World) :
  (forall owner key, same_store w (after (HashMap2_Get Decode owner key) w)) /\
  (forall owner key, same_store w (after (HashMap2_Has Decode owner key) w)) /\
  (forall owner, same_store w (after (HashMap2_Exists Decode owner) w)) /\
  (forall owner, same_store w (after (HashMap2_Keys Decode owner) w)) /\
  same_store w (after HashMap2_All w) /\
  same_store w (after HashMap2_Count w) /\
  same_store w (after HashMap2_CountInt64 w) /\
  (forall key value,
     same_store w (after (HashMap2_AllWhere Decode key value) w)) /\
  same_store w (after HashMap2_AllEncounteredKeys w).
Proof.
  split; [|split; [|split; [|split; [|split; [|split; [|split; [|split]]]]]]].
  - intros owner key. apply (Get_same owner key w).
  - intros owner key. apply (Has_same owner key w).
  - intros owner.
    enough (wp (HashMap2_Exists Decode owner) w (fun _ w' => same_store w w'))
      as H by exact H.
    unfold HashMap2_Exists. apply wp_bind, wp_Set_All.
    + intros s _ _. apply Exists_range_same, same_store_pop.
    + intros _. apply same_store_pop.
  - intros owner.
    enough (wp (HashMap2_Keys Decode owner) w (fun _ w' => same_store w w'))
      as H by exact H.
    unfold HashMap2_Keys. apply wp_bind, wp_Set_All.
    + intros s _ _. apply Keys_range_same, same_store_pop.
    + intros _. apply same_store_pop.
  - apply (All_same w).
  - enough (wp HashMap2_Count w (fun _ w' => same_store w w')) as H by exact H.
    unfold HashMap2_Count. apply wp_bind.
    eapply wp_mono; [apply All_same |]. intros [e|a] w' Hs; [done |].
    by apply wp_ret.
  - enough (wp HashMap2_CountInt64 w (fun _ w' => same_store w w'))
      as H by exact H.
    unfold HashMap2_CountInt64. apply wp_bind.
    eapply wp_mono; [apply All_same |]. intros [e|a] w' Hs; [done |].
    by apply wp_ret.
  - intros key value.
    enough (wp (HashMap2_AllWhere Decode key value) w
              (fun _ w' => same_store w w')) as H by exact H.
    unfold HashMap2_AllWhere. apply wp_bind.
    eapply wp_mono; [apply All_same |]. intros [e|a] w' Hs; [done |].
    by apply AllWhere_range_same.
  - apply (Set_All_same w).
Qed.

(** ** Exists, Keys and AllWhere *)

Lemma Has_ok owner key w t :
  faults w = [] -> kvTable w = Some t ->
  HashMap2_Has Decode owner key w = (inr (held Decode w t owner key), w).
Proof.
  intros Hf Ht. by rewrite Has_eq, (ok_next _ Hf), Ht, (pop_ok _ Hf).
Qed.

Lemma Exists_range_ok owner l w t :
  faults w = [] -> kvTable w = Some t ->
  Exists_range Decode owner l w =
    (inr (existsb (held Decode w t owner) l), w).
Proof.
  intros Hf Ht. induction l as [|k l IH]; [done |].
  cbn [Exists_range existsb].
  rewrite (bind_inr _ _ _ _ _ (attempt_eq _ _ _ _ (Has_ok owner k w t Hf Ht))).
  destruct (held Decode w t owner k); [done | exact IH].
Qed.

(** [Exists(owner)] with both tables readable and no store failure: it
    answers true exactly when [Has(owner, key)] is true for some
    encountered key, which is exactly when [Keys(owner)] is not empty;
    when the encountered keys cover the data table, exactly when [Has] is
    true for some key at all. *)
Theorem Exists_iff_Has (w : World) (owner : string) t s :
  faults w = [] -> kvTable w = Some t -> propTable w = Some s ->
  exists b l,
    HashMap2_Exists Decode owner w = (inr b, w) /\
    HashMap2_Keys Decode owner w = (inr l, w) /\
    (b = true <-> l <> []) /\
    (b = true <->
       exists k, k ∈ s /\ HashMap2_Has Decode owner k w = (inr true, w)) /\
    (index_covers w ->
     (b = true <->
        exists k, HashMap2_Has Decode owner k w = (inr true, w))).
Proof.
  intros Hf Ht Hs.
  exists (existsb (held Decode w t owner) (elements s)),
         (filter (fun k => held Decode w t owner k) (elements s)).
  assert (forall k, HashMap2_Has Decode owner k w = (inr true, w) <->
                    held Decode w t owner k = true) as Hhas.
  { intros k. rewrite (Has_ok owner k w t Hf Ht). split; [by intros [= ->] |].
    by intros ->. }
  assert (existsb (held Decode w t owner) (elements s) = true <->
          exists k, k ∈ s /\ held Decode w t owner k = true) as Hex.
  { rewrite existsb_exists. split; intros (k & Hk & Hh); exists k.
    - split; [|done]. by apply elem_of_elements, list_elem_of_In.
    - split; [|done]. by apply list_elem_of_In, elem_of_elements. }
  split; [|split; [|split; [|split]]].
  - unfold HashMap2_Exists.
    erewrite bind_inr; last first.
    { rewrite Set_All_eq, (ok_next _ Hf), Hs, (pop_ok _ Hf). reflexivity. }
    by apply Exists_range_ok.
  - unfold HashMap2_Keys.
    erewrite bind_inr; last first.
    { rewrite Set_All_eq, (ok_next _ Hf), Hs, (pop_ok _ Hf). reflexivity. }
    by rewrite (Keys_range_ok Decode owner _ [] w t).
  - rewrite Hex. split.
    + intros (k & Hk & Hh) Hnil.
      assert (k ∈ filter (fun k => held Decode w t owner k) (elements s)) as Hin.
      { apply list_elem_of_filter. split; [by rewrite Hh |].
        by apply elem_of_elements. }
      rewrite Hnil in Hin. by apply elem_of_nil in Hin.
    + intros Hne.
      destruct (filter (fun k => held Decode w t owner k) (elements s))
        as [|k l] eqn:E; [done |].
      assert (k ∈ k :: l) as Hin by (apply elem_of_cons; by left).
      rewrite <- E in Hin. apply list_elem_of_filter in Hin as [Hh Hk].
      exists k. split; [by apply elem_of_elements |].
      by apply Is_true_true.
  - rewrite Hex. split; intros (k & Hk & Hh); exists k; split; try done;
      by apply Hhas.
  - intros Hcov. rewrite Hex. split.
    + intros (k & Hk & Hh). exists k. by apply Hhas.
    + intros (k & Hh). apply Hhas in Hh. exists k. split; [|done].
      unfold held in Hh.
      destruct (t !! ((owner +:+ fieldSep) +:+ k)) as [v|] eqn:Hv; [|done].
      specialize (Hcov owner k). unfold stored_keys, encountered in Hcov.
      rewrite Ht, Hs in Hcov. apply Hcov. by apply elem_of_dom_2 in Hv.
Qed.

Lemma Exists_range_no_error owner l w :
  wp (Exists_range Decode owner l) w (fun r _ => exists b, r = inr b).
Proof.
  revert w. induction l as [|k l IH]; intros w.
  { apply wp_ret. eauto. }
  cbn [Exists_range]. apply wp_bind, wp_attempt.
  unfold wp at 1.
  destruct (HashMap2_Has Decode owner k w) as [[e|[]] w']; simpl;
    [apply IH | apply wp_ret; eauto | apply IH].
Qed.

Lemma Keys_range_sublist owner l acc w :
  wp (Keys_range Decode owner l acc) w (fun r _ =>
    exists l', r = inr (acc ++ l') /\ l' `sublist_of` l).
Proof.
  revert acc w. induction l as [|k l IH]; intros acc w.
  { apply wp_ret. exists []. by rewrite app_nil_r. }
  cbn [Keys_range]. apply wp_bind, wp_attempt.
  unfold wp at 1.
  destruct (HashMap2_Has Decode owner k w) as [[e|[]] w']; simpl.
  - eapply wp_mono; [apply IH |]. intros r _ (l' & -> & Hl).
    exists l'. split; [done |]. by apply sublist_cons.
  - eapply wp_mono; [apply IH |]. intros r _ (l' & -> & Hl).
    exists (k :: l'). rewrite <- app_assoc. split; [done |].
    by apply sublist_skip.
  - eapply wp_mono; [apply IH |]. intros r _ (l' & -> & Hl).
    exists l'. split; [done |]. by apply sublist_cons.
Qed.

Lemma AllWhere_range_sublist key value l acc w :
  wp (AllWhere_range Decode key value l acc) w (fun r _ =>
    exists l', r = inr (acc ++ l') /\ l' `sublist_of` l).
Proof.
  revert acc w. induction l as [|o l IH]; intros acc w.
  { apply wp_ret. exists []. by rewrite app_nil_r. }
  cbn [AllWhere_range]. apply wp_bind, wp_attempt.
  unfold wp at 1.
  destruct (HashMap2_Get Decode o key w) as [[e|v] w']; simpl.
  - eapply wp_mono; [apply IH |]. intros r _ (l' & -> & Hl).
    exists l'. split; [done |]. by apply sublist_cons.
  - destruct (decide (v = value)).
    + eapply wp_mono; [apply IH |]. intros r _ (l' & -> & Hl).
      exists (o :: l'). rewrite <- app_assoc. split; [done |].
      by apply sublist_skip.
    + eapply wp_mono; [apply IH |]. intros r _ (l' & -> & Hl).
      exists l'. split; [done |]. by apply sublist_cons.
Qed.

(** [Exists], [Keys] and [AllWhere] swallow the errors of the lookups
    they make, in every run: they return an error exactly when the
    enumeration they start with fails (of the encountered keys for
    [Exists] and [Keys], of the data table for [AllWhere]); otherwise
    [Keys] returns a sublist of the encountered keys and [AllWhere] a
    sublist of what [All] returned. *)
Theorem lookup_errors_are_swallowed (w : World) :
  (forall owner,
     match (HashMap2_Exists Decode owner w).1 with
     | inl e =>
         e = BackingStoreError /\ (next_fails w = true \/ propTable w = None)
     | inr _ => next_fails w = false /\ is_Some (propTable w)
     end) /\
  (forall owner,
     match (HashMap2_Keys Decode owner w).1 with
     | inl e =>
         e = BackingStoreError /\ (next_fails w = true \/ propTable w = None)
     | inr l =>
         next_fails w = false /\
         exists s, propTable w = Some s /\ l `sublist_of` elements s
     end) /\
  (forall key value,
     match (HashMap2_AllWhere Decode key value w).1 with
     | inl e =>
         e = BackingStoreError /\ (next_fails w = true \/ kvTable w = None)
     | inr l =>
         next_fails w = false /\
         exists all, (HashMap2_All w).1 = inr all /\ l `sublist_of` all
     end).
Proof.
  split; [|split].
  - intros owner.
    enough (wp (HashMap2_Exists Decode owner) w (fun r _ =>
              match r with
              | inl e => e = BackingStoreError /\
                         (next_fails w = true \/ propTable w = None)
              | inr _ => next_fails w = false /\ is_Some (propTable w)
              end)) as H by exact H.
    unfold HashMap2_Exists. apply wp_bind, wp_Set_All; [|done].
    intros s Hnf Hs. eapply wp_mono; [apply Exists_range_no_error |].
    intros r _ [b ->]. by rewrite Hs.
  - intros owner.
    enough (wp (HashMap2_Keys Decode owner) w (fun r _ =>
              match r with
              | inl e => e = BackingStoreError /\
                         (next_fails w = true \/ propTable w = None)
              | inr l => next_fails w = false /\
                         exists s, propTable w = Some s /\
                                   l `sublist_of` elements s
              end)) as H by exact H.
    unfold HashMap2_Keys. apply wp_bind, wp_Set_All; [|done].
    intros s Hnf Hs. eapply wp_mono; [apply Keys_range_sublist |].
    intros r _ (l' & -> & Hl). eauto.
  - intros key value.
    enough (wp (HashMap2_AllWhere Decode key value) w (fun r _ =>
              match r with
              | inl e => e = BackingStoreError /\
                         (next_fails w = true \/ kvTable w = None)
              | inr l => next_fails w = false /\
                         exists all, (HashMap2_All w).1 = inr all /\
                                     l `sublist_of` all
              end)) as H by exact H.
    unfold HashMap2_AllWhere. rewrite All_eq. cbn [fst].
    apply wp_bind. unfold wp at 1. rewrite All_eq. cbn [fst snd].
    destruct (next_fails w) eqn:Hnf; [auto |].
    destruct (kvTable w) as [t|] eqn:Ht; [|auto].
    eapply wp_mono; [apply AllWhere_range_sublist |].
    intros r _ (l' & -> & Hl). eauto.
Qed.

Lemma AllWhere_range_ok key value l acc w t :
  faults w = [] -> kvTable w = Some t ->
  AllWhere_range Decode key value l acc w =
    (inr (acc ++ filter (fun o =>
                           loaded Decode w <$> t !! ((o +:+ fieldSep) +:+ key)
                           = Some value) l), w).
Proof.
  intros Hf Ht. revert acc. induction l as [|o l IH]; intros acc.
  { simpl. by rewrite app_nil_r. }
  cbn [AllWhere_range].
  rewrite (bind_inr _ _ _ _ _
             (attempt_eq _ _ _ _ (Get_ok Decode o key w t Hf Ht))).
  rewrite filter_cons.
  destruct (t !! ((o +:+ fieldSep) +:+ key)) as [v|]; simpl.
  - destruct (decide (loaded Decode w v = value)) as [E|E].
    + rewrite IH, decide_True by congruence. by rewrite <- app_assoc.
    + rewrite IH, decide_False by congruence. done.
  - by rewrite IH.
Qed.

(** [AllWhere(key, value)] with the data table readable and no store
    failure: it returns, without duplicates, exactly the owners returned
    by [All] for which [Get(owner, key)] returns [value]. *)
Theorem AllWhere_owners_with_value (w : World) (key value : string) t :
  faults w = [] -> kvTable w = Some t ->
  exists l all,
    HashMap2_AllWhere Decode key value w = (inr l, w) /\
    HashMap2_All w = (inr all, w) /\
    NoDup l /\
    forall o, o ∈ l <->
      o ∈ all /\ HashMap2_Get Decode o key w = (inr value, w).
Proof.
  intros Hf Ht.
  assert (HashMap2_All w = (inr (elements (owners t)), w)) as Hall.
  { by rewrite All_eq, (ok_next _ Hf), Ht, (pop_ok _ Hf). }
  eexists _, (elements (owners t)).
  split; [|split; [done |split]].
  - unfold HashMap2_AllWhere. rewrite (bind_inr _ _ _ _ _ Hall).
    by apply (AllWhere_range_ok key value _ [] w t).
  - apply NoDup_filter, NoDup_elements.
  - intros o. simpl. rewrite list_elem_of_filter.
    rewrite (Get_ok Decode o key w t Hf Ht).
    destruct (t !! ((o +:+ fieldSep) +:+ key)) as [v|]; simpl.
    + split; intros [H1 H2]; split; congruence.
    + split; intros [H1 H2]; split; congruence.
Qed.

(** ** GetMap *)

Lemma wp_getWithTransaction key w Q :
  (forall r, Q r (pop w)) ->
  wp (KeyValue_getWithTransaction Decode key) w Q.
Proof.
  intros H. unfold KeyValue_getWithTransaction.
  apply wp_bind, wp_KeyValue_table; [|done].
  intros t _ _. apply wp_bind, wp_get.
  destruct (txPending (pop w)); [|by apply wp_fail].
  destruct (apply_writes _ t !! key); [by apply wp_ret | by apply wp_fail].
Qed.

Lemma getWithTransaction_ok key w t ws :
  faults w = [] -> kvTable w = Some t -> txPending w = Some ws ->
  KeyValue_getWithTransaction Decode key w =
    (match apply_writes ws t !! key with
     | None => inl NotFound
     | Some v => inr (loaded Decode w v)
     end, w).
Proof.
  intros Hf Ht Hp. apply wp_eq. unfold KeyValue_getWithTransaction.
  apply wp_bind, wp_KeyValue_table; [|no_failure].
  intros t0 _ Ht0. pop_ok. assert (t0 = t) as -> by congruence.
  apply wp_bind, wp_get. rewrite Hp.
  destruct (apply_writes ws t !! key); [by apply wp_ret | by apply wp_fail].
Qed.

Lemma GetMap_range_frame owner keys acc w0 w :
  kvTable w = kvTable w0 -> propTable w = propTable w0 ->
  txPending w = Some [] ->
  wp (GetMap_range Decode owner keys acc) w (fun r w' =>
    kvTable w' = kvTable w0 /\ propTable w' = propTable w0 /\
    exists res oe, r = inr (res, oe) /\
                   (oe = None -> txPending w' = Some [])).
Proof.
  revert acc w. induction keys as [|k keys IH]; intros acc w Hk Hp Ht.
  { apply wp_ret. eauto 10. }
  cbn [GetMap_range]. apply wp_bind, wp_attempt, wp_getWithTransaction.
  intros [e|v].
  - apply wp_bind, wp_Rollback, wp_ret. simpl.
    split; [done |]. split; [done |]. by exists acc, (Some e).
  - by apply IH.
Qed.

Lemma GetMap_range_present owner w t pre rest acc :
  faults w = [] -> kvTable w = Some t -> txPending w = Some [] ->
  (forall k, k ∈ pre -> is_Some (t !! ((owner +:+ fieldSep) +:+ k))) ->
  exists acc',
    GetMap_range Decode owner (pre ++ rest) acc w =
      GetMap_range Decode owner rest acc' w /\
    forall k, acc' !! k =
      if decide (k ∈ pre)
      then loaded Decode w <$> t !! ((owner +:+ fieldSep) +:+ k)
      else acc !! k.
Proof.
  intros Hf Ht Hp. revert acc. induction pre as [|k0 pre IH]; intros acc Hall.
  { exists acc. split; [done |]. intros k. rewrite decide_False; [done |].
    apply not_elem_of_nil. }
  destruct (Hall k0) as [v Hv]; [apply elem_of_cons; by left |].
  destruct (IH (<[k0 := loaded Decode w v]> acc)) as (acc' & Hrun & Hacc).
  { intros k Hk. apply Hall, elem_of_cons. by right. }
  exists acc'. split.
  - rewrite <- Hrun. cbn [app GetMap_range].
    rewrite (bind_inr _ _ _ _ _
               (attempt_eq _ _ _ _ (getWithTransaction_ok _ w t [] Hf Ht Hp))).
    change (apply_writes [] t) with t. by rewrite Hv.
  - intros k. rewrite Hacc. destruct (decide (k ∈ pre)) as [Hin|Hin].
    + rewrite decide_True; [done |]. apply elem_of_cons. by right.
    + destruct (decide (k = k0)) as [->|Hne].
      * rewrite decide_True by (apply elem_of_cons; by left).
        by rewrite lookup_insert_eq, Hv.
      * rewrite decide_False.
        -- by rewrite lookup_insert_ne.
        -- intros [?|?]%elem_of_cons; done.
Qed.

Lemma GetMap_ok owner keys w t :
  faults w = [] -> kvTable w = Some t ->
  (forall k, k ∈ keys -> is_Some (t !! ((owner +:+ fieldSep) +:+ k))) ->
  exists res w',
    HashMap2_GetMap Decode owner keys w = (inr (res, None), w') /\
    txPending w' = None /\ kvTable w' = Some t /\
    events w' = EvCommit :: EvBegin :: events w /\
    forall k, res !! k =
      if decide (k ∈ keys)
      then loaded Decode w <$> t !! ((owner +:+ fieldSep) +:+ k)
      else None.
Proof.
  intros Hf Ht Hall. unfold HashMap2_GetMap.
  rewrite (bind_inr _ _ _ _ _ (attempt_eq _ _ _ _ (BeginTx_ok w Hf))).
  set (w1 := log EvBegin (set_txPending (Some []) w)).
  destruct (GetMap_range_present owner w1 t keys [] ∅)
    as (acc' & Hrun & Hacc); try done.
  rewrite app_nil_r in Hrun. rewrite (bind_inr _ _ _ _ _ Hrun).
  cbn [snd fst].
  rewrite (bind_inr _ _ _ _ _
             (attempt_eq _ _ _ _ (Commit_ok w1 [] Hf eq_refl))).
  eexists _, _. split; [done |]. split; [done |]. split.
  { simpl. by rewrite Ht. }
  split; [done |].
  intros k. rewrite Hacc. by destruct (decide (k ∈ keys)).
Qed.

(** [GetMap(owner, keys)]: in every run it returns its pair of results
    and error and leaves both tables as they are.  With the data table in
    place and no store failure: when every key is held by the owner, the
    results map each of the keys to its value, and nothing else, with a
    nil error, and the transaction the call has begun is committed; when
    a key is missing, the error is the "not found" of the first missing
    key, the results are those of the keys before it, and the
    transaction is rolled back. *)
Theorem GetMap_results (w : World) (owner : string) (keys : list string) :
  (exists res oe w',
     HashMap2_GetMap Decode owner keys w = (inr (res, oe), w') /\
     kvTable w' = kvTable w /\ propTable w' = propTable w) /\
  (forall t,
     faults w = [] -> kvTable w = Some t ->
     (forall k, k ∈ keys -> is_Some (t !! ((owner +:+ fieldSep) +:+ k))) ->
     exists res w',
       HashMap2_GetMap Decode owner keys w = (inr (res, None), w') /\
       txPending w' = None /\
       events w' = EvCommit :: EvBegin :: events w /\
       forall k, res !! k =
         if decide (k ∈ keys)
         then loaded Decode w <$> t !! ((owner +:+ fieldSep) +:+ k)
         else None) /\
  (forall t pre k0 post,
     faults w = [] -> kvTable w = Some t ->
     keys = pre ++ k0 :: post ->
     (forall k, k ∈ pre -> is_Some (t !! ((owner +:+ fieldSep) +:+ k))) ->
     t !! ((owner +:+ fieldSep) +:+ k0) = None ->
     exists res w',
       HashMap2_GetMap Decode owner keys w =
         (inr (res, Some NotFound), w') /\
       txPending w' = None /\ head (events w') = Some EvRollback /\
       forall k, res !! k =
         if decide (k ∈ pre)
         then loaded Decode w <$> t !! ((owner +:+ fieldSep) +:+ k)
         else None).
Proof.
  split; [|split].
  - enough (wp (HashMap2_GetMap Decode owner keys) w (fun r w' =>
              (exists res oe, r = inr (res, oe)) /\
              kvTable w' = kvTable w /\ propTable w' = propTable w)) as H.
    { destruct (wp_ex _ _ _ H) as (r & w' & Hrun & (res & oe & ->) & Hk & Hp).
      by exists res, oe, w'. }
    unfold HashMap2_GetMap. apply wp_bind, wp_attempt, wp_BeginTx.
    2:{ intros _. apply wp_ret. eauto. }
    intros _. apply wp_bind.
    eapply wp_mono; [by apply (GetMap_range_frame owner keys ∅ w) |].
    intros r w' (Hk & Hp & res & [e|] & -> & Hpend).
    + apply wp_ret. eauto.
    + cbn [snd fst]. apply wp_bind, wp_attempt, wp_Commit.
      * intros _. apply wp_ret. eauto.
      * intros ws _ _. apply wp_ret. eauto.
      * intros ws Hws _. apply wp_ret. rewrite Hpend in Hws by done.
        injection Hws as <-. simpl. rewrite Hk.
        split; [eauto |]. split; [|done]. by destruct (kvTable w).
  - intros t Hf Ht Hall.
    destruct (GetMap_ok owner keys w t Hf Ht Hall)
      as (res & w' & Hrun & Hp & _ & Hev & Hres).
    by exists res, w'.
  - intros t pre k0 post Hf Ht -> Hall Hmiss. unfold HashMap2_GetMap.
    rewrite (bind_inr _ _ _ _ _ (attempt_eq _ _ _ _ (BeginTx_ok w Hf))).
    set (w1 := log EvBegin (set_txPending (Some []) w)).
    destruct (GetMap_range_present owner w1 t pre (k0 :: post) ∅)
      as (acc' & Hrun & Hacc); try done.
    assert (GetMap_range Decode owner (k0 :: post) acc' w1 =
              (inr (acc', Some NotFound),
               log EvRollback (set_txPending None w1))) as Hstop.
    { cbn [GetMap_range].
      rewrite (bind_inr _ _ _ _ _
                 (attempt_eq _ _ _ _
                    (getWithTransaction_ok _ w1 t [] Hf Ht eq_refl))).
      change (apply_writes [] t) with t. by rewrite Hmiss. }
    rewrite (bind_inr _ _ _ _ _ (eq_trans Hrun Hstop)).
    eexists _, _. split; [done |]. split; [done |]. split; [done |].
    intros k. rewrite Hacc. by destruct (decide (k ∈ pre)).
Qed.

End MoreReads.

(** ** Count and CountInt64 *)

Lemma size_list_to_set_le (l : list string) :
  (size (list_to_set l : gset string) <= length l)%nat.
Proof.
  induction l as [|x l IH].
  { done. }
  change (list_to_set (x :: l) : gset string)
    with ({[x]} ∪ list_to_set l : gset string).
  rewrite size_union_alt, size_singleton. cbn [length].
  pose proof (subseteq_size (list_to_set l ∖ {[x]}) (list_to_set l : gset string)
                ltac:(set_solver)).
  lia.
Qed.

Lemma length_omap_le {A B} (f : A -> option B) (l : list A) :
  (length (omap f l) <= length l)%nat.
Proof.
  induction l as [|x l IH]; [done |].
  cbn [omap list_omap length]. destruct (f x); cbn [length]; lia.
Qed.

Lemma size_owners_le (t : gmap string string) :
  (size (owners t) <= size t)%nat.
Proof.
  unfold owners, set_omap.
  etrans; [apply size_list_to_set_le |].
  etrans; [apply length_omap_le |].
  change (length (elements (dom t))) with (size (dom t : gset string)).
  by rewrite size_dom.
Qed.

(** [CountInt64] returns what [Count] returns, in every run; with the
    data table readable that number lies between 0 and the number of rows
    of the table, and it is 0 exactly when [All] returns no owner. *)
Theorem Count_bounds (w : World) :
  HashMap2_CountInt64 w = HashMap2_Count w /\
  (forall t, next_fails w = false -> kvTable w = Some t ->
     exists n,
       HashMap2_Count w = (inr n, pop w) /\
       0 <= n <= Z.of_nat (size t) /\
       (n = 0 <-> HashMap2_All w = (inr [], pop w))).
Proof.
  split; [reflexivity |].
  intros t Hnf Ht. exists (Z.of_nat (size (owners t))).
  assert (HashMap2_All w = (inr (elements (owners t)), pop w)) as Hall
    by (by rewrite All_eq, Hnf, Ht).
  split; [|split].
  - unfold HashMap2_Count. by rewrite (bind_inr _ _ _ _ _ Hall).
  - pose proof (size_owners_le t). lia.
  - rewrite Hall. split.
    + intros Hn. assert (size (owners t) = 0%nat) as Hz by lia.
      change (size (owners t)) with (length (elements (owners t))) in Hz.
      by destruct (elements (owners t)).
    + intros [= Hnil]. change (size (owners t))
        with (length (elements (owners t))). by rewrite Hnil.
Qed.

(** ** SetMap, all or nothing *)

Section MoreWrites.

Variable Encode : string -> string.

Lemma SetMap_range_grows owner allProperties m w0 w :
  encountered w0 ⊆ encountered w ->
  wp (HashMap2_SetMap_range Encode owner allProperties m) w
     (fun _ w' => encountered w0 ⊆ encountered w').
Proof.
  revert w. induction m as [|[k v] m IH]; intros w H0.
  { by apply wp_ret. }
  cbn [HashMap2_SetMap_range].
  apply wp_bind, wp_orRollback, wp_setPropWithTransaction; try done.
  intros s Ho Hk Hs w1 ck.
  assert (encountered w0 ⊆ {[k]} ∪ s) as H1.
  { etrans; [exact H0 |]. unfold encountered. rewrite Hs. simpl.
    clear. set_solver. }
  split; [done |].
  intros t ws Ht Hp. apply wp_bind.
  destruct (negb (hasS allProperties k)).
  - apply wp_orRollback, wp_Set_Add; [|done].
    intros s2 _ Hs2. apply IH. simpl in Hs2. injection Hs2 as <-.
    etrans; [exact H1 |]. unfold encountered. simpl. clear. set_solver.
  - apply wp_ret. by apply IH.
Qed.

Lemma SetMap_grows owner m w :
  wp (HashMap2_SetMap Encode owner m) w
     (fun _ w' => encountered w ⊆ encountered w').
Proof.
  unfold HashMap2_SetMap. apply wp_bind, wp_Set_All; [|done].
  intros s _ _. apply wp_bind, wp_BeginTx; [|done].
  intros _. apply wp_bind.
  eapply wp_mono; [by apply (SetMap_range_grows owner _ m w) |].
  intros [e|[]] w' H; [done |]. apply wp_Commit; done.
Qed.

Lemma SetMap_error_keeps owner m w :
  wp (HashMap2_SetMap Encode owner m) w (fun r w' =>
    match r with
    | inl _ => kvTable w' = kvTable w
    | inr _ => forallb (valid_entry owner) m = true
    end).
Proof.
  unfold HashMap2_SetMap. apply wp_bind, wp_Set_All; [|done].
  intros s _ _. apply wp_bind, wp_BeginTx; [|done].
  intros _. apply wp_bind.
  eapply wp_mono; [apply SetMap_range_no_commit |].
  intros [e|[]] w' [[Hk _] Hv]; [done |].
  apply wp_Commit; done.
Qed.

(** [SetMap] is all or nothing on the data table, in every run: when it
    returns an error, whether from validation, from the store or from the
    commit, the data table is exactly as before; when it returns nil,
    every entry has passed the separator check and the table is the old
    one with every entry of the map written. *)
Theorem SetMap_all_or_nothing (w : World) (owner : string)
    (m : list (string * string)) :
  exists r w',
    HashMap2_SetMap Encode owner m w = (r, w') /\
    match r with
    | inl _ => kvTable w' = kvTable w
    | inr _ =>
        forallb (valid_entry owner) m = true /\
        kvTable w' =
          apply_writes ((fun kv => composite Encode owner kv w) <$> m)
            <$> kvTable w /\
        (m <> [] -> is_Some (kvTable w))
    end.
Proof.
  destruct (HashMap2_SetMap Encode owner m w) as [r w'] eqn:Hrun.
  exists r, w'. split; [done |].
  pose proof (wp_run _ _ _ _ _ (SetMap_error_keeps owner m w) Hrun) as H1.
  pose proof (wp_run _ _ _ _ _ (SetMap_run Encode owner m w) Hrun) as H2.
  destruct r as [e|[]]; [done |].
  destruct (H2 eq_refl) as (_ & Hk & Hsome). done.
Qed.

Lemma SetLargeMap_grows first input w :
  wp (HashMap2_SetLargeMap Encode first input) w
     (fun _ w' => encountered w ⊆ encountered w').
Proof.
  eapply wp_mono; [apply SetLargeMap_run |].
  by intros r w' [(_ & Hen & _) _].
Qed.

(** No write and no deletion of a key or an owner takes a key out of the
    set of encountered keys, in any run: after [Set], [SetMap],
    [SetLargeMap], [DelKey] and [Del] every key encountered before is
    still encountered. *)
Theorem encountered_never_shrinks (w : World) :
  (forall owner key value,
     encountered w ⊆ encountered (after (HashMap2_Set Encode owner key value) w)) /\
  (forall owner m,
     encountered w ⊆ encountered (after (HashMap2_SetMap Encode owner m) w)) /\
  (forall firstPass secondPass,
     encountered w ⊆
       encountered
         (after (HashMap2_SetLargeMap Encode firstPass secondPass) w)) /\
  (forall owner key,
     encountered w ⊆ encountered (after (HashMap2_DelKey owner key) w)) /\
  (forall owner,
     encountered w ⊆ encountered (after (HashMap2_Del owner) w)).
Proof.
  split; [|split; [|split; [|split]]].
  - intros owner key value. apply (SetMap_grows owner [(key, value)] w).
  - intros owner m. apply (SetMap_grows owner m w).
  - intros firstPass secondPass.
    apply (SetLargeMap_grows firstPass secondPass w).
  - intros owner key. unfold after, encountered. rewrite DelKey_eq.
    destruct (next_fails w); [done |]. by destruct (kvTable w).
  - intros owner. destruct (Del_shrinks owner w) as [_ Hp].
    unfold after, encountered. by rewrite Hp.
Qed.

(** ** What a rollback leaves behind *)

Lemma bind_assoc {A B C} (c : M A) (k : A -> M B) (k' : B -> M C) w :
  bind (bind c k) k' w = bind c (fun a => bind (k a) k') w.
Proof. unfold bind. by destruct (c w) as [[e|a] w']. Qed.

Lemma bind_ext {A B} (c : M A) (k k' : A -> M B) w :
  (forall a w', k a w' = k' a w') -> bind c k w = bind c k' w.
Proof. intros H. unfold bind. by destruct (c w) as [[e|a] w']. Qed.

Lemma SetMap_range_app owner allProperties m1 m2 w :
  HashMap2_SetMap_range Encode owner allProperties (m1 ++ m2) w =
    (HashMap2_SetMap_range Encode owner allProperties m1;;;
     HashMap2_SetMap_range Encode owner allProperties m2) w.
Proof.
  revert w. induction m1 as [|[k v] m1 IH]; intros w; [done |].
  cbn [app HashMap2_SetMap_range]. rewrite !bind_assoc.
  apply bind_ext. intros _ w1. rewrite bind_assoc.
  apply bind_ext. intros _ w2. apply IH.
Qed.

Lemma SetMap_range_stops owner allProperties m1 bad m2 w t s ws :
  faults w = [] -> kvTable w = Some t -> propTable w = Some s ->
  txPending w = Some ws ->
  forallb (valid_entry owner) m1 = true -> valid_entry owner bad = false ->
  wp (HashMap2_SetMap_range Encode owner allProperties (m1 ++ bad :: m2)) w
     (fun r w' =>
        (exists e, r = inl e /\ validation_error e) /\
        faults w' = [] /\ kvTable w' = Some t /\
        propTable w' = Some (list_to_set m1.*1 ∪ s) /\
        txPending w' = None /\ head (events w') = Some EvRollback).
Proof.
  intros Hf Ht Hs Hp Hm1 Hbad. unfold wp at 1. rewrite SetMap_range_app.
  change (wp (HashMap2_SetMap_range Encode owner allProperties m1;;;
              HashMap2_SetMap_range Encode owner allProperties (bad :: m2)) w
            (fun r w' =>
               (exists e, r = inl e /\ validation_error e) /\
               faults w' = [] /\ kvTable w' = Some t /\
               propTable w' = Some (list_to_set m1.*1 ∪ s) /\
               txPending w' = None /\ head (events w') = Some EvRollback)).
  apply wp_bind. eapply wp_mono.
  { by apply (SetMap_range_ok Encode owner allProperties m1 w t s ws). }
  intros r w1 (Hf1 & Ht1 & _ & Hrest). rewrite Hm1 in Hrest.
  destruct Hrest as (-> & Hp1 & Hs1). destruct bad as [k v].
  unfold valid_entry in Hbad. cbn [fst] in Hbad.
  cbn [HashMap2_SetMap_range].
  apply wp_bind, wp_orRollback, wp_setPropWithTransaction.
  - intros _. simpl. split; [|done]. eexists. split; [done | by left].
  - intros _ _. simpl. split; [|done]. eexists. split; [done | by right].
  - intros Ho Hk. by rewrite Ho, Hk in Hbad.
  - intros s0 Ho Hk. by rewrite Ho, Hk in Hbad.
Qed.

Lemma SetMap_stops_healthy owner m1 bad m2 w t s :
  faults w = [] -> kvTable w = Some t -> propTable w = Some s ->
  forallb (valid_entry owner) m1 = true -> valid_entry owner bad = false ->
  exists e w',
    HashMap2_SetMap Encode owner (m1 ++ bad :: m2) w = (inl e, w') /\
    validation_error e /\
    kvTable w' = Some t /\ txPending w' = None /\
    head (events w') = Some EvRollback /\
    propTable w' = Some (list_to_set m1.*1 ∪ s).
Proof.
  intros Hf Ht Hs Hm1 Hbad.
  enough (wp (HashMap2_SetMap Encode owner (m1 ++ bad :: m2)) w (fun r w' =>
            (exists e, r = inl e /\ validation_error e) /\
            kvTable w' = Some t /\ txPending w' = None /\
            head (events w') = Some EvRollback /\
            propTable w' = Some (list_to_set m1.*1 ∪ s))) as H.
  { destruct (wp_ex _ _ _ H) as (r & w' & Hrun & (e & -> & He) & Hrest).
    by exists e, w'. }
  unfold HashMap2_SetMap.
  apply wp_bind, wp_Set_All; [|no_failure].
  intros s0 _ _. pop_ok. apply wp_bind, wp_BeginTx; [|no_failure].
  intros _. pop_ok. apply wp_bind. eapply wp_mono.
  { by apply (SetMap_range_stops owner (elements s0) m1 bad m2 _ t s []). }
  intros r w1 ((e & -> & He) & _ & Ht1 & Hs1 & Hp1 & Hev). eauto 10.
Qed.

Lemma wp_cong {A} (c c' : M A) w Q : c w = c' w -> wp c' w Q -> wp c w Q.
Proof. unfold wp. by intros ->. Qed.

Lemma store_error_not_validation e :
  e = BackingStoreError \/ e = TransactionError -> ~ validation_error e.
Proof. intros [-> | ->] [H|H]; discriminate H. Qed.

(** The loop of [SetMap] over entries that pass the check, in every run:
    it fails with an error of the store only, and when it gets through,
    the keys of the entries have joined the encountered keys. *)
Lemma SetMap_range_valid_run owner allProperties m w :
  forallb (valid_entry owner) m = true ->
  wp (HashMap2_SetMap_range Encode owner allProperties m) w (fun r w' =>
    match r with
    | inr _ =>
        propTable w' = (fun s => list_to_set m.*1 ∪ s) <$> propTable w
    | inl e => ~ validation_error e
    end).
Proof.
  revert w. induction m as [|[k v] m IH]; intros w Hm.
  { apply wp_ret. destruct (propTable w) as [s|]; [|done]. simpl.
    f_equal. set_solver. }
  cbn [forallb] in Hm. apply andb_true_iff in Hm as [Hkv Hm].
  unfold valid_entry in Hkv. cbn [fst] in Hkv.
  cbn [HashMap2_SetMap_range].
  apply wp_bind, wp_orRollback, wp_setPropWithTransaction.
  - intros Ho. by rewrite Ho in Hkv.
  - intros Ho Hk. by rewrite Ho, Hk in Hkv.
  - intros _ _. apply store_error_not_validation. by left.
  - intros s _ _ Hs w1 ck. split.
    { intros e He. by apply store_error_not_validation. }
    intros t ws _ _. apply wp_bind.
    assert (forall w2 s2, propTable w2 = Some s2 -> s2 = {[k]} ∪ s ->
              wp (HashMap2_SetMap_range Encode owner allProperties m) w2
                 (fun r w' =>
                    match r with
                    | inr _ =>
                        propTable w' =
                          (fun s0 => list_to_set ((k, v) :: m).*1 ∪ s0)
                            <$> propTable w
                    | inl e => ~ validation_error e
                    end)) as Hrest.
    { intros w2 s2 Hs2 ->. eapply wp_mono; [by apply IH |].
      intros [e|[]] w' H; [done |]. rewrite H, Hs2, Hs. simpl.
      f_equal. set_solver. }
    destruct (negb (hasS allProperties k)).
    + apply wp_orRollback, wp_Set_Add.
      * intros s2 _ Hs2. simpl in Hs2. injection Hs2 as <-.
        apply (Hrest _ ({[k]} ∪ ({[k]} ∪ s))); [done | set_solver].
      * intros _. apply store_error_not_validation. by left.
    + apply wp_ret. by apply (Hrest _ ({[k]} ∪ s)).
Qed.

Lemma SetMap_range_stops_run owner allProperties m1 bad m2 w :
  forallb (valid_entry owner) m1 = true -> valid_entry owner bad = false ->
  wp (HashMap2_SetMap_range Encode owner allProperties (m1 ++ bad :: m2)) w
     (fun r w' =>
        exists e, r = inl e /\
          (validation_error e ->
           propTable w' = (fun s => list_to_set m1.*1 ∪ s) <$> propTable w)).
Proof.
  intros Hm1 Hbad. eapply wp_cong; [apply SetMap_range_app |].
  apply wp_bind. eapply wp_mono; [by apply SetMap_range_valid_run |].
  intros [e|[]] w1 H.
  { exists e. split; [done |]. intros He. by apply H in He. }
  destruct bad as [k v]. unfold valid_entry in Hbad. cbn [fst] in Hbad.
  cbn [HashMap2_SetMap_range].
  apply wp_bind, wp_orRollback, wp_setPropWithTransaction.
  - intros _. eexists. split; [done |]. intros _. exact H.
  - intros _ _. eexists. split; [done |]. intros _. exact H.
  - intros Ho Hk. by rewrite Ho, Hk in Hbad.
  - intros s0 Ho Hk. by rewrite Ho, Hk in Hbad.
Qed.

Lemma SetMap_stops_run owner m1 bad m2 w :
  forallb (valid_entry owner) m1 = true -> valid_entry owner bad = false ->
  wp (HashMap2_SetMap Encode owner (m1 ++ bad :: m2)) w (fun r w' =>
    exists e, r = inl e /\
      (validation_error e ->
       exists s, propTable w = Some s /\
                 propTable w' = Some (list_to_set m1.*1 ∪ s))).
Proof.
  intros Hm1 Hbad. unfold HashMap2_SetMap.
  apply wp_bind, wp_Set_All.
  2:{ intros _. eexists. split; [done |]. intros He.
      exfalso. revert He. apply store_error_not_validation. by left. }
  intros s _ Hs. apply wp_bind, wp_BeginTx.
  2:{ intros _. eexists. split; [done |]. intros He.
      exfalso. revert He. apply store_error_not_validation. by right. }
  intros _. apply wp_bind. eapply wp_mono.
  { by apply SetMap_range_stops_run. }
  intros r w1 (e & -> & H). exists e. split; [done |].
  intros He. exists s. split; [done |]. rewrite (H He). simpl.
  by rewrite Hs.
Qed.

(** The additions to the encountered keys are not part of the
    transaction of [SetMap].  Let the entries be visited in the order
    [m1], [bad], [m2], where those of [m1] pass the separator check and
    [bad] does not.  In every run, the call returns an error and the data
    table is as before; whenever that error is the error of the check,
    the keys of [m1] have joined the encountered keys and stay there.
    With both tables readable and no store failure the error is the
    error of the check, the transaction is rolled back, and the
    encountered keys are the former ones and the keys of [m1]. *)
Theorem SetMap_rollback_keeps_new_keys (w : World) (owner : string)
    (m1 m2 : list (string * string)) (bad : string * string) :
  forallb (valid_entry owner) m1 = true -> valid_entry owner bad = false ->
  (exists e w',
     HashMap2_SetMap Encode owner (m1 ++ bad :: m2) w = (inl e, w') /\
     kvTable w' = kvTable w /\
     (validation_error e ->
      exists s, propTable w = Some s /\
                propTable w' = Some (list_to_set m1.*1 ∪ s))) /\
  (forall t s,
     faults w = [] -> kvTable w = Some t -> propTable w = Some s ->
     exists e w',
       HashMap2_SetMap Encode owner (m1 ++ bad :: m2) w = (inl e, w') /\
       validation_error e /\
       kvTable w' = Some t /\ txPending w' = None /\
       head (events w') = Some EvRollback /\
       propTable w' = Some (list_to_set m1.*1 ∪ s)).
Proof.
  intros Hm1 Hbad. split.
  - destruct (wp_ex _ _ _
                (wp_conj _ _ _ _
                   (SetMap_stops_run owner m1 bad m2 w Hm1 Hbad)
                   (SetMap_error_keeps owner (m1 ++ bad :: m2) w)))
      as (r & w' & Hrun & (e & -> & Hkeys) & Hkv).
    by exists e, w'.
  - intros t s Hf Ht Hs. by apply SetMap_stops_healthy.
Qed.

(** ** Writing the same value twice *)

(** [Set] is idempotent on the tables: with both tables readable, no
    store failure and no separator in owner and key, a second
    [Set(owner, key, value)] right after the first succeeds and leaves
    the data table and the encountered keys as the first call left
    them. *)
Theorem Set_twice (w : World) (owner key value : string) t s :
  faults w = [] -> kvTable w = Some t -> propTable w = Some s ->
  Contains owner fieldSep = false -> Contains key fieldSep = false ->
  exists w1 w2,
    HashMap2_Set Encode owner key value w = (inr tt, w1) /\
    HashMap2_Set Encode owner key value w1 = (inr tt, w2) /\
    kvTable w1 =
      Some (<[(owner +:+ fieldSep) +:+ key := stored Encode w value]> t) /\
    propTable w1 = Some ({[key]} ∪ s) /\
    kvTable w2 = kvTable w1 /\ propTable w2 = propTable w1.
Proof.
  intros Hf Ht Hs Ho Hk.
  assert (forallb (valid_entry owner) [(key, value)] = true) as Hv.
  { unfold valid_entry. simpl. by rewrite Ho, Hk. }
  destruct (wp_ex _ _ _ (SetMap_ok Encode owner [(key, value)] w t s Hf Ht Hs Hv))
    as (r & w1 & Hset & -> & Hf1 & Hr1 & Ht1 & Hs1 & _).
  destruct (wp_ex _ _ _ (SetMap_ok Encode owner [(key, value)] w1 _ _
                           Hf1 Ht1 Hs1 Hv))
    as (r & w2 & Hset2 & -> & Hf2 & Hr2 & Ht2 & Hs2 & _).
  exists w1, w2. split; [exact Hset |]. split; [exact Hset2 |].
  simpl in Ht1, Ht2, Hs1, Hs2.
  split; [exact Ht1 |]. split.
  { rewrite Hs1. f_equal. set_solver. }
  split.
  - rewrite Ht2, Ht1. f_equal. unfold stored. rewrite Hr1.
    apply insert_insert_eq.
  - rewrite Hs2, Hs1. f_equal. set_solver.
Qed.

End MoreWrites.

(** ** Writes, then reads *)

Lemma append_inv_head (a x y : string) : a +:+ x = a +:+ y -> x = y.
Proof.
  induction a as [|c a IH]; [done |]. rewrite !append_cons.
  intros [= H]. auto.
Qed.

Lemma owner_of_composite owner key :
  Contains owner fieldSep = false -> Contains key fieldSep = false ->
  owner_of ((owner +:+ fieldSep) +:+ key) = Some owner.
Proof.
  intros Ho Hk. unfold owner_of.
  pose proof (Index_lower ((owner +:+ fieldSep) +:+ key) fieldSep) as Hlow.
  destruct (Z.eqb_spec (Index ((owner +:+ fieldSep) +:+ key) fieldSep) (-1))
    as [Habs|Hne].
  { exfalso. apply (Index_absent _ _ Habs owner key). apply append_assoc. }
  destruct (Index_found ((owner +:+ fieldSep) +:+ key) fieldSep _ eq_refl)
    as (a & b & Hck & _ & Hsl & _); [lia |].
  rewrite Hsl. f_equal. rewrite <- append_assoc in Hck.
  by destruct (composite_inj owner key a b Ho Hk Hck).
Qed.

Section RoundTrips.

Variables Encode Decode : string -> string.

Lemma loaded_stored w w1 v :
  rawUTF8 w1 = rawUTF8 w ->
  (rawUTF8 w = false -> Decode (Encode v) = v) ->
  loaded Decode w1 (stored Encode w v) = v.
Proof.
  intros Hr Hd. unfold loaded, stored. rewrite Hr.
  destruct (rawUTF8 w); simpl; auto.
Qed.

Lemma composite_keys owner (m : list (string * string)) w :
  ((fun kv => composite Encode owner kv w) <$> m).*1 =
    (fun k => (owner +:+ fieldSep) +:+ k) <$> m.*1.
Proof. rewrite <- !list_fmap_compose. by apply list_fmap_ext. Qed.

Lemma valid_entry_elem owner (m : list (string * string)) k :
  forallb (valid_entry owner) m = true -> k ∈ m.*1 ->
  Contains owner fieldSep = false /\ Contains k fieldSep = false.
Proof.
  intros Hm (kv & -> & Hin)%list_elem_of_fmap.
  rewrite forallb_forall in Hm. apply list_elem_of_In, Hm in Hin.
  unfold valid_entry in Hin. apply andb_true_iff in Hin as [H1 H2].
  by destruct (Contains owner fieldSep), (Contains kv.1 fieldSep).
Qed.

(** The data table after the writes of [SetMap]. *)
Lemma SetMap_table_lookup owner m w (t : gmap string string) :
  forallb (valid_entry owner) m = true -> NoDup m.*1 ->
  let t1 := apply_writes ((fun kv => composite Encode owner kv w) <$> m) t in
  (forall k v, (k, v) ∈ m ->
     t1 !! ((owner +:+ fieldSep) +:+ k) = Some (stored Encode w v)) /\
  (forall o k, (o = owner -> k ∉ m.*1) ->
     t1 !! ((o +:+ fieldSep) +:+ k) = t !! ((o +:+ fieldSep) +:+ k)).
Proof.
  intros Hm Hnd t1. split.
  - intros k v Hin. apply apply_writes_lookup.
    + rewrite composite_keys. apply NoDup_fmap_2; [|done].
      intros x y Hxy. by apply append_inv_head in Hxy.
    + apply list_elem_of_fmap. by exists (k, v).
  - intros o k Hother. apply apply_writes_lookup_ne.
    rewrite composite_keys. intros (k' & Heq & Hk')%list_elem_of_fmap.
    destruct (valid_entry_elem owner m k' Hm Hk') as [Ho Hk].
    destruct (composite_inj owner k' o k Ho Hk (eq_sym Heq)) as [-> ->].
    by apply Hother.
Qed.

Lemma SetMap_healthy owner m w t s :
  faults w = [] -> kvTable w = Some t -> propTable w = Some s ->
  forallb (valid_entry owner) m = true ->
  exists w1,
    HashMap2_SetMap Encode owner m w = (inr tt, w1) /\
    faults w1 = [] /\ rawUTF8 w1 = rawUTF8 w /\
    kvTable w1 =
      Some (apply_writes ((fun kv => composite Encode owner kv w) <$> m) t) /\
    propTable w1 = Some (list_to_set m.*1 ∪ s).
Proof.
  intros Hf Ht Hs Hm.
  destruct (wp_ex _ _ _ (SetMap_ok Encode owner m w t s Hf Ht Hs Hm))
    as (r & w1 & Hset & -> & Hf1 & Hr1 & Ht1 & Hs1 & _).
  by exists w1.
Qed.

End RoundTrips.

(** [SetMap] then [Get]: with both tables readable, no store failure,
    entries that pass the separator check and a decoding that undoes the
    encoding of the values written, [SetMap(owner, m)] succeeds and
    afterwards [Get(owner, k)] returns [v] for every entry [(k, v)] of
    the map, while [Get] on every other pair of owner and key returns
    what it returned before. *)
Theorem SetMap_then_Get (Encode Decode : string -> string)
    (w : World) (owner : string) (m : list (string * string)) t s :
  faults w = [] -> kvTable w = Some t -> propTable w = Some s ->
  forallb (valid_entry owner) m = true -> NoDup m.*1 ->
  (rawUTF8 w = false -> forall k v, (k, v) ∈ m -> Decode (Encode v) = v) ->
  exists w1,
    HashMap2_SetMap Encode owner m w = (inr tt, w1) /\
    (forall k v, (k, v) ∈ m ->
       HashMap2_Get Decode owner k w1 = (inr v, w1)) /\
    (forall o k, (o = owner -> k ∉ m.*1) ->
       (HashMap2_Get Decode o k w1).1 = (HashMap2_Get Decode o k w).1).
Proof.
  intros Hf Ht Hs Hm Hnd Hdec.
  destruct (SetMap_healthy Encode owner m w t s Hf Ht Hs Hm)
    as (w1 & Hset & Hf1 & Hr1 & Ht1 & _).
  destruct (SetMap_table_lookup Encode owner m w t Hm Hnd) as [Hin Hout].
  exists w1. split; [exact Hset |]. split.
  - intros k v Hkv. rewrite (Get_ok Decode owner k w1 _ Hf1 Ht1).
    rewrite (Hin k v Hkv). f_equal. f_equal.
    apply loaded_stored; [done |]. intros Hraw. by apply (Hdec Hraw k).
  - intros o k Hother.
    rewrite (Get_ok Decode o k w1 _ Hf1 Ht1), (Get_ok Decode o k w t Hf Ht).
    rewrite (Hout o k Hother). unfold loaded. by rewrite Hr1.
Qed.

(** [SetMap] then [GetMap]: under the same conditions, [GetMap] with the
    keys of the map returns the map that was written, with a nil error,
    and leaves the data table as [SetMap] left it. *)
Theorem SetMap_then_GetMap (Encode Decode : string -> string)
    (w : World) (owner : string) (m : list (string * string)) t s :
  faults w = [] -> kvTable w = Some t -> propTable w = Some s ->
  forallb (valid_entry owner) m = true -> NoDup m.*1 ->
  (rawUTF8 w = false -> forall k v, (k, v) ∈ m -> Decode (Encode v) = v) ->
  exists w1 w2,
    HashMap2_SetMap Encode owner m w = (inr tt, w1) /\
    HashMap2_GetMap Decode owner m.*1 w1 = (inr (list_to_map m, None), w2) /\
    kvTable w2 = kvTable w1.
Proof.
  intros Hf Ht Hs Hm Hnd Hdec.
  destruct (SetMap_healthy Encode owner m w t s Hf Ht Hs Hm)
    as (w1 & Hset & Hf1 & Hr1 & Ht1 & _).
  destruct (SetMap_table_lookup Encode owner m w t Hm Hnd) as [Hin _].
  destruct (GetMap_ok Decode owner m.*1 w1 _ Hf1 Ht1)
    as (res & w2 & Hget & _ & Ht2 & _ & Hres).
  { intros k (kv & -> & Hkv)%list_elem_of_fmap. destruct kv as [k v].
    cbn [fst]. rewrite (Hin k v Hkv). by eexists. }
  exists w1, w2. split; [exact Hset |]. split; [|congruence].
  rewrite Hget. do 3 f_equal. apply map_eq. intros k. rewrite Hres.
  destruct (decide (k ∈ m.*1)) as [Hk|Hk].
  - apply list_elem_of_fmap in Hk as ([k' v] & -> & Hkv). simpl.
    rewrite (Hin k' v Hkv). simpl. symmetry.
    rewrite (loaded_stored Encode Decode w w1 v Hr1)
      by (intros Hraw; by apply (Hdec Hraw k')).
    by apply elem_of_list_to_map.
  - symmetry. by apply not_elem_of_list_to_map.
Qed.

(** [Set] makes the pair visible to every read: with both tables
    readable, no store failure, no separator in owner and key and a
    decoding that undoes the encoding of the value, after
    [Set(owner, key, value)] the owner is among the owners returned by
    [All] and the key among the encountered keys; [Has(owner, key)]
    answers whether the value is non-empty, [Keys(owner)] lists the key
    exactly in that case, and [Exists(owner)] is then true. *)
Theorem Set_makes_visible (Encode Decode : string -> string)
    (w : World) (owner key value : string) t s :
  faults w = [] -> kvTable w = Some t -> propTable w = Some s ->
  Contains owner fieldSep = false -> Contains key fieldSep = false ->
  (rawUTF8 w = false -> Decode (Encode value) = value) ->
  exists w1 os ps ks,
    HashMap2_Set Encode owner key value w = (inr tt, w1) /\
    HashMap2_All w1 = (inr os, w1) /\ owner ∈ os /\
    HashMap2_AllEncounteredKeys w1 = (inr ps, w1) /\ key ∈ ps /\
    HashMap2_Has Decode owner key w1 = (inr (bool_decide (value <> "")), w1) /\
    HashMap2_Keys Decode owner w1 = (inr ks, w1) /\
    (key ∈ ks <-> value <> "") /\
    (value <> "" -> HashMap2_Exists Decode owner w1 = (inr true, w1)).
Proof.
  intros Hf Ht Hs Ho Hk Hdec.
  assert (forallb (valid_entry owner) [(key, value)] = true) as Hv.
  { unfold valid_entry. simpl. by rewrite Ho, Hk. }
  destruct (SetMap_healthy Encode owner [(key, value)] w t s Hf Ht Hs Hv)
    as (w1 & Hset & Hf1 & Hr1 & Ht1 & Hs1).
  set (ck := (owner +:+ fieldSep) +:+ key) in *.
  change (apply_writes _ t) with (<[ck := stored Encode w value]> t) in Ht1.
  set (t1 := <[ck := stored Encode w value]> t) in *.
  set (s1 := list_to_set [(key, value)].*1 ∪ s) in *.
  assert (held Decode w1 t1 owner key = bool_decide (value <> "")) as Hheld.
  { unfold held. fold ck. unfold t1. rewrite lookup_insert_eq.
    by rewrite (loaded_stored Encode Decode w w1 value Hr1 Hdec). }
  assert (key ∈ s1) as Hkey by (unfold s1; set_solver).
  assert (Set_All w1 = (inr (elements s1), w1)) as Hall.
  { by rewrite Set_All_eq, (ok_next _ Hf1), Hs1, (pop_ok _ Hf1). }
  exists w1, (elements (owners t1)), (elements s1),
    (filter (fun k => held Decode w1 t1 owner k) (elements s1)).
  split; [exact Hset |].
  split; [|split; [|split; [|split; [|split; [|split; [|split]]]]]].
  - by rewrite All_eq, (ok_next _ Hf1), Ht1, (pop_ok _ Hf1).
  - rewrite elem_of_elements. unfold owners. rewrite elem_of_set_omap.
    exists ck. split.
    + apply elem_of_dom. unfold t1. rewrite lookup_insert_eq. by eexists.
    + by apply owner_of_composite.
  - exact Hall.
  - by rewrite elem_of_elements.
  - by rewrite (Has_ok Decode owner key w1 t1 Hf1 Ht1), Hheld.
  - unfold HashMap2_Keys. rewrite (bind_inr _ _ _ _ _ Hall).
    by rewrite (Keys_range_ok Decode owner _ [] w1 t1 Hf1 Ht1).
  - rewrite list_elem_of_filter, Hheld, elem_of_elements.
    rewrite bool_decide_spec. tauto.
  - intros Hne. unfold HashMap2_Exists. rewrite (bind_inr _ _ _ _ _ Hall).
    rewrite (Exists_range_ok Decode owner _ w1 t1 Hf1 Ht1). do 2 f_equal.
    apply existsb_exists. exists key. split.
    + apply list_elem_of_In. by rewrite elem_of_elements.
    + rewrite Hheld. by apply bool_decide_eq_true.
Qed.

(** ** Deleting, then reading *)

Lemma Del_range_ok owner l w t :
  faults w = [] -> kvTable w = Some t ->
  wp (Del_range owner l) w (fun r w' =>
    r = inr tt /\ faults w' = [] /\ rawUTF8 w' = rawUTF8 w /\
    propTable w' = propTable w /\
    exists t', kvTable w' = Some t' /\
      forall ck, t' !! ck =
        if bool_decide (ck ∈ (fun k => (owner +:+ fieldSep) +:+ k) <$> l)
        then None else t !! ck).
Proof.
  revert w t. induction l as [|k l IH]; intros w t Hf Ht.
  { apply wp_ret. repeat split; try done. exists t. split; [done |].
    intros ck. rewrite bool_decide_eq_false_2; [done |]. apply not_elem_of_nil. }
  cbn [Del_range]. apply wp_bind, wp_KeyValue_Del; [|no_failure].
  intros t0 _ Ht0. assert (t0 = t) as -> by congruence. pop_ok.
  eapply wp_mono.
  { by apply (IH _ (delete ((owner +:+ fieldSep) +:+ k) t)). }
  intros r w' (-> & Hf' & Hr' & Hp' & t' & Ht' & Hrows).
  repeat split; try done. exists t'. split; [done |].
  intros ck. rewrite Hrows, fmap_cons.
  destruct (decide (ck = (owner +:+ fieldSep) +:+ k)) as [->|Hne].
  - rewrite lookup_delete_eq.
    rewrite (bool_decide_eq_true_2 (_ ∈ _ :: _))
      by (apply elem_of_cons; by left).
    by destruct (bool_decide _).
  - rewrite lookup_delete_ne by done.
    destruct (decide (ck ∈ (fun k => (owner +:+ fieldSep) +:+ k) <$> l))
      as [Hin|Hin].
    + rewrite !bool_decide_eq_true_2; [done | | done].
      apply elem_of_cons. by right.
    + rewrite !bool_decide_eq_false_2; [done | | done].
      intros [?|?]%elem_of_cons; done.
Qed.

Lemma filter_none {A} (P : A -> Prop) `{forall x, Decision (P x)} (l : list A) :
  (forall x, x ∈ l -> ~ P x) -> filter P l = [].
Proof.
  intros Hno. apply elem_of_nil_inv. intros x [HP Hx]%list_elem_of_filter.
  by apply (Hno x).
Qed.

Lemma existsb_none {A} (f : A -> bool) (l : list A) :
  (forall x, x ∈ l -> f x = false) -> existsb f l = false.
Proof.
  intros Hno. destruct (existsb f l) eqn:E; [|done].
  apply existsb_exists in E as (x & Hx%list_elem_of_In & Hfx).
  by rewrite (Hno x Hx) in Hfx.
Qed.

(** [Del(owner)] with both tables readable and no store failure: it
    returns nil, leaves the encountered keys alone and removes from the
    data table exactly the rows [owner¤k] of the encountered keys [k],
    every other row staying as it was.  Afterwards [Keys(owner)] is
    empty and [Exists(owner)] is false; when the encountered keys cover
    the data table, [Has(owner, k)] is false for every [k] and [All] no
    longer returns the owner. *)
Theorem Del_removes_owner (Decode : string -> string)
    (w : World) (owner : string) t s :
  faults w = [] -> kvTable w = Some t -> propTable w = Some s ->
  exists w' t',
    HashMap2_Del owner w = (inr tt, w') /\
    propTable w' = Some s /\ kvTable w' = Some t' /\
    (forall ck, t' !! ck =
       if bool_decide
            (ck ∈ (fun k => (owner +:+ fieldSep) +:+ k) <$> elements s)
       then None else t !! ck) /\
    HashMap2_Keys Decode owner w' = (inr [], w') /\
    HashMap2_Exists Decode owner w' = (inr false, w') /\
    (index_covers w ->
     (forall k, HashMap2_Has Decode owner k w' = (inr false, w')) /\
     exists os, HashMap2_All w' = (inr os, w') /\ owner ∉ os).
Proof.
  intros Hf Ht Hs.
  assert (wp (HashMap2_Del owner) w (fun r w' =>
            r = inr tt /\ faults w' = [] /\ rawUTF8 w' = rawUTF8 w /\
            propTable w' = propTable w /\
            exists t', kvTable w' = Some t' /\
              forall ck, t' !! ck =
                if bool_decide
                     (ck ∈ (fun k => (owner +:+ fieldSep) +:+ k) <$> elements s)
                then None else t !! ck)) as Hdel.
  { unfold HashMap2_Del. apply wp_bind, wp_Set_All; [|no_failure].
    intros s0 _ Hs0. assert (s0 = s) as -> by congruence. pop_ok.
    by apply Del_range_ok. }
  destruct (wp_ex _ _ _ Hdel)
    as (r & w' & Hrun & -> & Hf' & Hr' & Hp' & t' & Ht' & Hrows).
  rewrite Hs in Hp'.
  assert (forall k, k ∈ s -> held Decode w' t' owner k = false) as Hgone.
  { intros k Hk. unfold held. rewrite Hrows, bool_decide_eq_true_2; [done |].
    apply list_elem_of_fmap. exists k. by rewrite elem_of_elements. }
  assert (Set_All w' = (inr (elements s), w')) as Hall.
  { by rewrite Set_All_eq, (ok_next _ Hf'), Hp', (pop_ok _ Hf'). }
  assert (index_covers w -> forall rest,
            t' !! ((owner +:+ fieldSep) +:+ rest) = None) as Hcov.
  { intros Hc rest. rewrite Hrows.
    destruct (bool_decide _) eqn:E; [done |].
    destruct (t !! ((owner +:+ fieldSep) +:+ rest)) as [v|] eqn:Hv; [|done].
    exfalso. apply bool_decide_eq_false in E. apply E.
    apply list_elem_of_fmap. exists rest. split; [done |].
    rewrite elem_of_elements.
    specialize (Hc owner rest). unfold stored_keys, encountered in Hc.
    rewrite Ht, Hs in Hc. apply Hc. by apply elem_of_dom_2 in Hv. }
  exists w', t'. split; [exact Hrun |]. split; [exact Hp' |].
  split; [exact Ht' |]. split; [exact Hrows |]. split; [|split].
  - unfold HashMap2_Keys. rewrite (bind_inr _ _ _ _ _ Hall).
    rewrite (Keys_range_ok Decode owner _ [] w' t' Hf' Ht').
    rewrite filter_none; [done |].
    intros k Hk%elem_of_elements. rewrite (Hgone k Hk). exact id.
  - unfold HashMap2_Exists. rewrite (bind_inr _ _ _ _ _ Hall).
    rewrite (Exists_range_ok Decode owner _ w' t' Hf' Ht').
    rewrite existsb_none; [done |].
    intros k Hk%elem_of_elements. by apply Hgone.
  - intros Hc. split.
    + intros k. rewrite (Has_ok Decode owner k w' t' Hf' Ht'). unfold held.
      by rewrite (Hcov Hc k).
    + exists (elements (owners t')). split.
      { by rewrite All_eq, (ok_next _ Hf'), Ht', (pop_ok _ Hf'). }
      rewrite elem_of_elements. unfold owners. rewrite elem_of_set_omap.
      intros (ck & Hck & Hown).
      apply owner_of_first_split in Hown as (rest & -> & _).
      rewrite <- append_assoc in Hck. apply elem_of_dom in Hck as [v Hv].
      by rewrite (Hcov Hc rest) in Hv.
Qed.

(** [DelKey(owner, key)] with the data table readable and no store
    failure: it returns nil and removes the one row [owner¤key];
    [Get(owner, key)] then reports "not found", and [Get] on a pair with
    another composite key returns what it returned before.  When owner
    and key are free of the separator, that is every other pair of owner
    and key. *)
Theorem DelKey_only_that_row (Decode : string -> string)
    (w : World) (owner key : string) t :
  faults w = [] -> kvTable w = Some t ->
  exists w',
    HashMap2_DelKey owner key w = (inr tt, w') /\
    kvTable w' = Some (delete ((owner +:+ fieldSep) +:+ key) t) /\
    HashMap2_Get Decode owner key w' = (inl NotFound, w') /\
    (forall o k,
       (o +:+ fieldSep) +:+ k <> (owner +:+ fieldSep) +:+ key ->
       (HashMap2_Get Decode o k w').1 = (HashMap2_Get Decode o k w).1) /\
    (Contains owner fieldSep = false -> Contains key fieldSep = false ->
     forall o k, (o, k) <> (owner, key) ->
       (HashMap2_Get Decode o k w').1 = (HashMap2_Get Decode o k w).1).
Proof.
  intros Hf Ht. rewrite DelKey_eq, (ok_next _ Hf), Ht, (pop_ok _ Hf).
  set (w' := set_kvTable (Some (delete ((owner +:+ fieldSep) +:+ key) t)) w).
  assert (faults w' = []) as Hf' by done.
  assert (forall o k,
            (o +:+ fieldSep) +:+ k <> (owner +:+ fieldSep) +:+ key ->
            (HashMap2_Get Decode o k w').1 = (HashMap2_Get Decode o k w).1)
    as Hframe.
  { intros o k Hne.
    rewrite (Get_ok Decode o k w' _ Hf' eq_refl), (Get_ok Decode o k w t Hf Ht).
    by rewrite lookup_delete_ne. }
  exists w'. split; [done |]. split; [done |]. split; [|split].
  - rewrite (Get_ok Decode owner key w' _ Hf' eq_refl).
    by rewrite lookup_delete_eq.
  - exact Hframe.
  - intros Ho Hk o k Hne. apply Hframe. intros Heq.
    destruct (composite_inj owner key o k Ho Hk (eq_sym Heq)) as [-> ->].
    by apply Hne.
Qed.

(** [Clear()] with both tables readable and no store failure: it returns
    nil with both tables empty; afterwards [All] and
    [AllEncounteredKeys] return nothing, [Count] returns 0, and for every
    owner and key [Get] reports "not found", [Has] and [Exists] are false
    and [Keys] is empty. *)
Theorem Clear_resets (Decode : string -> string) (w : World) :
  faults w = [] -> is_Some (kvTable w) -> is_Some (propTable w) ->
  exists w',
    HashMap2_Clear w = (inr tt, w') /\
    kvTable w' = Some ∅ /\ propTable w' = Some ∅ /\
    HashMap2_All w' = (inr [], w') /\
    HashMap2_Count w' = (inr 0, w') /\
    HashMap2_AllEncounteredKeys w' = (inr [], w') /\
    forall owner,
      HashMap2_Keys Decode owner w' = (inr [], w') /\
      HashMap2_Exists Decode owner w' = (inr false, w') /\
      forall key,
        HashMap2_Get Decode owner key w' = (inl NotFound, w') /\
        HashMap2_Has Decode owner key w' = (inr false, w').
Proof.
  intros Hf [t Ht] [s Hs].
  assert (wp HashMap2_Clear w (fun r w' =>
            r = inr tt /\ faults w' = [] /\
            kvTable w' = Some ∅ /\ propTable w' = Some ∅)) as Hclear.
  { unfold HashMap2_Clear. apply wp_bind, wp_attempt, wp_Set_Clear; [|no_failure].
    intros s0 _ _. pop_ok.
    apply wp_bind, wp_attempt, wp_KeyValue_Clear; [|no_failure].
    intros t0 _ _. pop_ok. by apply wp_ret. }
  destruct (wp_ex _ _ _ Hclear) as (r & w' & Hrun & -> & Hf' & Ht' & Hs').
  assert (HashMap2_All w' = (inr [], w')) as Hall.
  { rewrite All_eq, (ok_next _ Hf'), Ht', (pop_ok _ Hf'). do 2 f_equal. }
  assert (Set_All w' = (inr [], w')) as Hkeys.
  { rewrite Set_All_eq, (ok_next _ Hf'), Hs', (pop_ok _ Hf'). do 2 f_equal. }
  exists w'. split; [exact Hrun |]. split; [exact Ht' |]. split; [exact Hs' |].
  split; [exact Hall |]. split; [|split; [exact Hkeys |]].
  { unfold HashMap2_Count. by rewrite (bind_inr _ _ _ _ _ Hall). }
  intros owner. split; [|split].
  - unfold HashMap2_Keys. by rewrite (bind_inr _ _ _ _ _ Hkeys).
  - unfold HashMap2_Exists. by rewrite (bind_inr _ _ _ _ _ Hkeys).
  - intros key. split.
    + by rewrite (Get_ok Decode owner key w' ∅ Hf' Ht').
    + by rewrite (Has_ok Decode owner key w' ∅ Hf' Ht').
Qed.

(** ** SetLargeMap, then reading *)

Section BulkThenRead.

Variable Encode : string -> string.

Lemma SetLargeMap_quiet first input w :
  faults w = [] -> is_Some (kvTable w) -> is_Some (propTable w) ->
  wp (HashMap2_SetLargeMap Encode first input) w
     (fun _ w' => faults w' = []).
Proof.
  intros Hf Hkv [s Hs]. unfold HashMap2_SetLargeMap.
  apply wp_bind, wp_Set_All; [|no_failure].
  intros s0 _ _. pop_ok. apply wp_bind.
  eapply wp_mono; [apply storeNewProps_run |].
  intros r w1 (Hk1 & _ & _ & _ & Hok1).
  destruct Hok1 as [-> Hf1]; [done | by eexists |].
  apply wp_bind, wp_BeginTx; [|no_failure].
  intros _. pop_ok. apply wp_bind.
  eapply wp_mono; [apply SetLargeMap_range_run |].
  intros r w3 (_ & _ & _ & _ & Hok3).
  destruct Hok3 as [-> Hf3]; [done | simpl; by rewrite Hk1 | by eexists |].
  apply wp_Commit.
  - done.
  - intros ws _ _. simpl. by rewrite Hf3.
  - intros ws _ _. simpl. by rewrite Hf3.
Qed.

Lemma writes_of_keys w input :
  (writes_of Encode w input).*1 =
    (fun ok => (ok.1 +:+ fieldSep) +:+ ok.2) <$> pairs_of input.
Proof.
  unfold writes_of, pairs_of.
  induction input as [|[o pm] input IH]; [done |].
  cbn [flat_map]. rewrite !fmap_app, IH. f_equal.
  rewrite <- !list_fmap_compose. by apply list_fmap_ext.
Qed.

Lemma writes_of_has w input o pm k v :
  (o, pm) ∈ input -> (k, v) ∈ pm ->
  ((o +:+ fieldSep) +:+ k, stored Encode w v) ∈ writes_of Encode w input.
Proof.
  unfold writes_of. intros Hin Hkv.
  induction input as [|[o' pm'] input IH]; [by apply elem_of_nil in Hin |].
  cbn [flat_map]. apply elem_of_app.
  apply elem_of_cons in Hin as [[= <- <-] | Hin].
  - left. apply list_elem_of_fmap. by exists (k, v).
  - right. by apply IH.
Qed.

End BulkThenRead.

(** [SetLargeMap] then [Get]: with both tables readable, no store
    failure, an input whose composite keys are pairwise distinct and a
    decoding that undoes the encoding of the values written,
    [SetLargeMap] succeeds and afterwards [Get(owner, k)] returns [v] for
    every entry [(k, v)] of every owner of the input, while [Get] on a
    pair whose composite key is not written returns what it returned
    before.  [input] is the map in the order of the pass that writes; the
    order of the pass that looks for new keys does not matter. *)
Theorem SetLargeMap_then_Get (Encode Decode : string -> string)
    (w : World) (firstPass input : list (string * list (string * string)))
    t s :
  faults w = [] -> kvTable w = Some t -> propTable w = Some s ->
  NoDup ((fun ok => (ok.1 +:+ fieldSep) +:+ ok.2) <$> pairs_of input) ->
  (rawUTF8 w = false ->
   forall o pm k v, (o, pm) ∈ input -> (k, v) ∈ pm -> Decode (Encode v) = v) ->
  exists w1,
    HashMap2_SetLargeMap Encode firstPass input w = (inr tt, w1) /\
    (forall o pm k v, (o, pm) ∈ input -> (k, v) ∈ pm ->
       HashMap2_Get Decode o k w1 = (inr v, w1)) /\
    (forall o k,
       (o +:+ fieldSep) +:+ k ∉
         (fun ok => (ok.1 +:+ fieldSep) +:+ ok.2) <$> pairs_of input ->
       (HashMap2_Get Decode o k w1).1 = (HashMap2_Get Decode o k w).1).
Proof.
  intros Hf Ht Hs Hnd Hdec.
  destruct (wp_ex _ _ _
              (wp_conj _ _ _ _
                 (SetLargeMap_run Encode firstPass input w)
                 (SetLargeMap_quiet Encode firstPass input w Hf
                    ltac:(by eexists) ltac:(by eexists))))
    as (r & w1 & Hrun & [Hout Hok] & Hf1).
  rewrite Hok in Hrun, Hout by (done || by eexists).
  destruct Hout as (Hr1 & _ & evs & _ & _ & Ht1 & _).
  rewrite Ht in Ht1. simpl in Ht1.
  rewrite <- (writes_of_keys Encode w input) in Hnd.
  exists w1. split; [exact Hrun |]. split.
  - intros o pm k v Hin Hkv. rewrite (Get_ok Decode o k w1 _ Hf1 Ht1).
    rewrite (apply_writes_lookup _ _ _ _ Hnd
               (writes_of_has Encode w input o pm k v Hin Hkv)).
    do 2 f_equal. apply loaded_stored; [done |].
    intros Hraw. by apply (Hdec Hraw o pm k).
  - intros o k Hout.
    rewrite (Get_ok Decode o k w1 _ Hf1 Ht1), (Get_ok Decode o k w t Hf Ht).
    rewrite apply_writes_lookup_ne by (by rewrite writes_of_keys).
    unfold loaded. by rewrite Hr1.
Qed.

(** ** Del, in every run *)

Lemma Del_range_run owner l w :
  wp (Del_range owner l) w (fun r w' =>
    propTable w' = propTable w /\
    (r = inr tt \/ r = inl BackingStoreError) /\
    match kvTable w with
    | None => kvTable w' = None
    | Some t =>
        exists t', kvTable w' = Some t' /\
          (forall ck, t' !! ck = None \/ t' !! ck = t !! ck) /\
          (forall ck, ck ∉ (fun k => (owner +:+ fieldSep) +:+ k) <$> l ->
                      t' !! ck = t !! ck) /\
          (r = inr tt ->
           forall ck, ck ∈ (fun k => (owner +:+ fieldSep) +:+ k) <$> l ->
                      t' !! ck = None)
    end).
Proof.
  revert w. induction l as [|k l IH]; intros w.
  { apply wp_ret. split; [done |]. split; [by left |].
    destruct (kvTable w) as [t|]; [|done]. exists t.
    split; [done |]. split; [by right |]. split; [done |].
    by intros _ ck ?%elem_of_nil. }
  cbn [Del_range]. apply wp_bind, wp_KeyValue_Del.
  - intros t _ Ht. eapply wp_mono; [apply IH |].
    intros r w' (Hp & Hr & t' & Ht' & Hsub & Hframe & Hgone).
    rewrite Ht. split; [done |]. split; [done |].
    exists t'. split; [done |]. split; [|split].
    + intros ck. destruct (Hsub ck) as [H|H]; [by left |]. rewrite H.
      destruct (decide (ck = (owner +:+ fieldSep) +:+ k)) as [->|Hne].
      * left. apply lookup_delete_eq.
      * right. by apply lookup_delete_ne.
    + intros ck Hck. rewrite fmap_cons in Hck.
      apply not_elem_of_cons in Hck as [Hne Hck].
      rewrite (Hframe ck Hck). by apply lookup_delete_ne.
    + intros Hok ck Hck. rewrite fmap_cons in Hck.
      destruct (decide (ck ∈ (fun k => (owner +:+ fieldSep) +:+ k) <$> l))
        as [Hin|Hin]; [by apply Hgone |].
      apply elem_of_cons in Hck as [-> | Hck]; [|done].
      rewrite (Hframe _ Hin). apply lookup_delete_eq.
  - intros _. split; [done |]. split; [by right |].
    change (kvTable (pop w)) with (kvTable w).
    destruct (kvTable w) as [t|]; [|done]. exists t.
    split; [done |]. split; [by right |]. done.
Qed.

(** [Del(owner)] in every run, failing ones included: it returns nil or
    the error of the store, never touches the encountered keys, and
    changes the data table only by removing rows [owner¤k] of encountered
    keys [k]; every other row stays as it was.  A run that returns nil
    has removed the row of every encountered key. *)
Theorem Del_in_every_run (w : World) (owner : string) :
  exists r w',
    HashMap2_Del owner w = (r, w') /\
    propTable w' = propTable w /\
    (r = inr tt \/ r = inl BackingStoreError) /\
    (kvTable w = None -> kvTable w' = None) /\
    forall t, kvTable w = Some t ->
      exists t', kvTable w' = Some t' /\
        (forall ck, t' !! ck = None \/ t' !! ck = t !! ck) /\
        (forall ck,
           (forall k, k ∈ encountered w -> ck <> (owner +:+ fieldSep) +:+ k) ->
           t' !! ck = t !! ck) /\
        (r = inr tt ->
         forall k, k ∈ encountered w ->
                   t' !! ((owner +:+ fieldSep) +:+ k) = None).
Proof.
  enough (wp (HashMap2_Del owner) w (fun r w' =>
            propTable w' = propTable w /\
            (r = inr tt \/ r = inl BackingStoreError) /\
            (kvTable w = None -> kvTable w' = None) /\
            forall t, kvTable w = Some t ->
              exists t', kvTable w' = Some t' /\
                (forall ck, t' !! ck = None \/ t' !! ck = t !! ck) /\
                (forall ck,
                   (forall k, k ∈ encountered w ->
                              ck <> (owner +:+ fieldSep) +:+ k) ->
                   t' !! ck = t !! ck) /\
                (r = inr tt ->
                 forall k, k ∈ encountered w ->
                           t' !! ((owner +:+ fieldSep) +:+ k) = None))) as H.
  { destruct (wp_ex _ _ _ H) as (r & w' & Hrun & Hrest). by exists r, w'. }
  unfold HashMap2_Del. apply wp_bind, wp_Set_All.
  2:{ intros _. split; [done |]. split; [by right |]. split; [done |].
      intros t Ht. exists t. split; [done |]. split; [by right |]. done. }
  intros s _ Hs. eapply wp_mono; [apply Del_range_run |].
  intros r w' (Hp & Hr & Hkv). change (kvTable (pop w)) with (kvTable w) in Hkv.
  split; [done |]. split; [done |]. split.
  { intros Hnone. by rewrite Hnone in Hkv. }
  intros t Ht. rewrite Ht in Hkv.
  destruct Hkv as (t' & Ht' & Hsub & Hframe & Hgone).
  assert (encountered w = s) as -> by (unfold encountered; by rewrite Hs).
  exists t'. split; [done |]. split; [done |]. split.
  - intros ck Hck. apply Hframe.
    intros (k & -> & Hk)%list_elem_of_fmap. apply (Hck k); [|done].
    by apply elem_of_elements.
  - intros Hok k Hk. apply (Hgone Hok). apply list_elem_of_fmap.
    exists k. split; [done |]. by apply elem_of_elements.
Qed.

Lemma Del_range_partial owner l1 k l2 w t fs :
  kvTable w = Some t ->
  faults w = replicate (length l1) false ++ true :: fs ->
  wp (Del_range owner (l1 ++ k :: l2)) w (fun r w' =>
    r = inl BackingStoreError /\ faults w' = fs /\
    propTable w' = propTable w /\
    exists t', kvTable w' = Some t' /\
      forall ck, t' !! ck =
        if bool_decide (ck ∈ (fun k => (owner +:+ fieldSep) +:+ k) <$> l1)
        then None else t !! ck).
Proof.
  revert w t. induction l1 as [|k1 l1 IH]; intros w t Ht Hfs.
  - cbn [app Del_range]. simpl in Hfs. apply wp_bind, wp_KeyValue_Del.
    + intros t0 Hnf _. unfold next_fails in Hnf. by rewrite Hfs in Hnf.
    + intros _. unfold pop. rewrite Hfs. simpl.
      repeat split; try done. by exists t.
  - cbn [app Del_range]. simpl in Hfs. apply wp_bind, wp_KeyValue_Del.
    + intros t0 _ Ht0. assert (t0 = t) as -> by congruence.
      eapply wp_mono.
      { apply (IH _ (delete ((owner +:+ fieldSep) +:+ k1) t)); [done |].
        simpl. by rewrite Hfs. }
      intros r w' (-> & Hf' & Hp' & t' & Ht' & Hrows).
      repeat split; try done. exists t'. split; [done |].
      intros ck. rewrite Hrows, fmap_cons.
      destruct (decide (ck = (owner +:+ fieldSep) +:+ k1)) as [->|Hne].
      * rewrite lookup_delete_eq.
        rewrite (bool_decide_eq_true_2 (_ ∈ _ :: _))
          by (apply elem_of_cons; by left).
        by destruct (bool_decide _).
      * rewrite lookup_delete_ne by done.
        destruct (decide (ck ∈ (fun k => (owner +:+ fieldSep) +:+ k) <$> l1))
          as [Hin|Hin].
        -- rewrite !bool_decide_eq_true_2; [done | | done].
           apply elem_of_cons. by right.
        -- rewrite !bool_decide_eq_false_2; [done | | done].
           intros [?|?]%elem_of_cons; done.
    + intros [Hnf | Hnone]; [|congruence].
      unfold next_fails in Hnf. by rewrite Hfs in Hnf.
Qed.

(** [Del] runs outside any transaction: when the store fails at the
    deletion of the key [k], after the deletions for the keys [l1]
    enumerated before it went through, [Del(owner)] returns the error of
    the store and the rows of the keys of [l1] are gone for good, while
    every other row, those of [k] and of the keys after it included, is
    still in the data table. *)
Theorem Del_stops_at_failure (w : World) (owner : string) t s
    (l1 l2 : list string) (k : string) (fs : list bool) :
  kvTable w = Some t -> propTable w = Some s ->
  elements s = l1 ++ k :: l2 ->
  faults w = false :: replicate (length l1) false ++ true :: fs ->
  exists w' t',
    HashMap2_Del owner w = (inl BackingStoreError, w') /\
    propTable w' = Some s /\ kvTable w' = Some t' /\
    (forall k1, k1 ∈ l1 -> t' !! ((owner +:+ fieldSep) +:+ k1) = None) /\
    (forall k2, k2 = k \/ k2 ∈ l2 ->
       t' !! ((owner +:+ fieldSep) +:+ k2) = t !! ((owner +:+ fieldSep) +:+ k2)) /\
    (forall ck, ck ∉ (fun k => (owner +:+ fieldSep) +:+ k) <$> l1 ->
       t' !! ck = t !! ck).
Proof.
  intros Ht Hs Hel Hfs.
  assert (wp (HashMap2_Del owner) w (fun r w' =>
            r = inl BackingStoreError /\ faults w' = fs /\
            propTable w' = propTable w /\
            exists t', kvTable w' = Some t' /\
              forall ck, t' !! ck =
                if bool_decide
                     (ck ∈ (fun k => (owner +:+ fieldSep) +:+ k) <$> l1)
                then None else t !! ck)) as Hdel.
  { unfold HashMap2_Del. apply wp_bind, wp_Set_All.
    - intros s0 _ Hs0. assert (s0 = s) as -> by congruence. rewrite Hel.
      apply (Del_range_partial owner l1 k l2 (pop w) t fs); [done |].
      simpl. by rewrite Hfs.
    - intros [Hnf | Hnone]; [|congruence].
      unfold next_fails in Hnf. by rewrite Hfs in Hnf. }
  destruct (wp_ex _ _ _ Hdel)
    as (r & w' & Hrun & -> & _ & Hp' & t' & Ht' & Hrows).
  assert (forall ck, ck ∉ (fun k => (owner +:+ fieldSep) +:+ k) <$> l1 ->
            t' !! ck = t !! ck) as Hframe.
  { intros ck Hck. rewrite Hrows.
    destruct (bool_decide _) eqn:E; [|done].
    by apply bool_decide_eq_true in E. }
  exists w', t'. split; [exact Hrun |]. split; [congruence |].
  split; [exact Ht' |]. split; [|split; [|exact Hframe]].
  - intros k1 Hk1. rewrite Hrows.
    destruct (bool_decide _) eqn:E; [done |].
    apply bool_decide_eq_false in E. exfalso. apply E.
    apply list_elem_of_fmap. by exists k1.
  - intros k2 Hk2. apply Hframe.
    intros (k1 & Heq%append_inv_head & Hk1)%list_elem_of_fmap. subst k1.
    pose proof (NoDup_elements s) as Hnd. rewrite Hel in Hnd.
    apply NoDup_app in Hnd as (_ & Hdisj & _).
    apply (Hdisj k2 Hk1). apply elem_of_cons.
    destruct Hk2 as [-> | Hk2]; [by left | by right].
Qed.

(** ** Owners and keys after a write *)

Lemma owners_insert (t : gmap string string) ck v o :
  owner_of ck = Some o -> owners (<[ck := v]> t) = {[o]} ∪ owners t.
Proof.
  intros Ho. apply set_eq. intros x. unfold owners.
  rewrite elem_of_union, !elem_of_set_omap, elem_of_singleton. split.
  - intros (ck' & Hin & Hx). rewrite dom_insert_L in Hin.
    apply elem_of_union in Hin as [->%elem_of_singleton | Hin].
    + left. congruence.
    + right. by exists ck'.
  - intros [-> | (ck' & Hin & Hx)].
    + exists ck. split; [|done]. rewrite dom_insert_L. set_solver.
    + exists ck'. split; [|done]. rewrite dom_insert_L. set_solver.
Qed.

(** [Set] adds at most one owner and at most one key: with both tables
    readable, no store failure and no separator in owner and key, after
    [Set(owner, key, value)] [All] returns the owners it returned before
    and [owner], [Count] has grown by one exactly when the owner is new,
    and [AllEncounteredKeys] returns the keys it returned before and
    [key]. *)
Theorem Set_adds_one_owner (Encode : string -> string)
    (w : World) (owner key value : string) t s :
  faults w = [] -> kvTable w = Some t -> propTable w = Some s ->
  Contains owner fieldSep = false -> Contains key fieldSep = false ->
  exists w1 os os' ps ps',
    HashMap2_Set Encode owner key value w = (inr tt, w1) /\
    HashMap2_All w = (inr os, w) /\ HashMap2_All w1 = (inr os', w1) /\
    (forall o, o ∈ os' <-> o = owner \/ o ∈ os) /\
    HashMap2_Count w = (inr (Z.of_nat (length os)), w) /\
    HashMap2_Count w1 =
      (inr (if bool_decide (owner ∈ os) then Z.of_nat (length os)
            else Z.of_nat (length os) + 1), w1) /\
    HashMap2_AllEncounteredKeys w = (inr ps, w) /\
    HashMap2_AllEncounteredKeys w1 = (inr ps', w1) /\
    (forall k, k ∈ ps' <-> k = key \/ k ∈ ps).
Proof.
  intros Hf Ht Hs Ho Hk.
  assert (forallb (valid_entry owner) [(key, value)] = true) as Hv.
  { unfold valid_entry. simpl. by rewrite Ho, Hk. }
  destruct (SetMap_healthy Encode owner [(key, value)] w t s Hf Ht Hs Hv)
    as (w1 & Hset & Hf1 & Hr1 & Ht1 & Hs1).
  set (ck := (owner +:+ fieldSep) +:+ key) in *.
  change (apply_writes _ t) with (<[ck := stored Encode w value]> t) in Ht1.
  assert (owners (<[ck := stored Encode w value]> t) = {[owner]} ∪ owners t)
    as Hown by (apply owners_insert; by apply owner_of_composite).
  assert (HashMap2_All w = (inr (elements (owners t)), w)) as Hall.
  { by rewrite All_eq, (ok_next _ Hf), Ht, (pop_ok _ Hf). }
  assert (HashMap2_All w1 = (inr (elements ({[owner]} ∪ owners t)), w1))
    as Hall1.
  { by rewrite All_eq, (ok_next _ Hf1), Ht1, (pop_ok _ Hf1), Hown. }
  exists w1, (elements (owners t)), (elements ({[owner]} ∪ owners t)),
    (elements s), (elements (list_to_set [(key, value)].*1 ∪ s)).
  split; [exact Hset |]. split; [exact Hall |]. split; [exact Hall1 |].
  split; [|split; [|split; [|split; [|split]]]].
  - intros o. rewrite !elem_of_elements. set_solver.
  - unfold HashMap2_Count. by rewrite (bind_inr _ _ _ _ _ Hall).
  - unfold HashMap2_Count. rewrite (bind_inr _ _ _ _ _ Hall1).
    unfold ret. do 2 f_equal.
    change (length (elements ({[owner]} ∪ owners t)))
      with (size ({[owner]} ∪ owners t)).
    change (length (elements (owners t))) with (size (owners t)).
    destruct (decide (owner ∈ owners t)) as [Hin|Hin].
    + rewrite bool_decide_eq_true_2 by (by rewrite elem_of_elements).
      do 2 f_equal. set_solver.
    + rewrite bool_decide_eq_false_2 by (by rewrite elem_of_elements).
      rewrite size_union by set_solver. rewrite size_singleton. lia.
  - by rewrite AllEncounteredKeys_eq, (ok_next _ Hf), Hs, (pop_ok _ Hf).
  - by rewrite AllEncounteredKeys_eq, (ok_next _ Hf1), Hs1, (pop_ok _ Hf1).
  - intros k. rewrite !elem_of_elements. set_solver.
Qed.

(** * Sample runs *)

Lemma Set_then_Get_witness :
  exists w1,
    HashMap2_Set tagEncode "bob" "password" "hunter1" (empty_store false)
      = (inr tt, w1) /\
    HashMap2_Get tagDecode "bob" "password" w1 = (inr "hunter1", w1).
Proof.
  apply (proj2 (Set_then_Get tagEncode tagDecode (empty_store false)
                  "bob" "password" "hunter1" (fun _ => eq_refl))).
  - vm_compute. reflexivity.
  - vm_compute. reflexivity.
  - simpl. eexists. reflexivity.
  - simpl. eexists. reflexivity.
  - reflexivity.
Defined.

(** With an empty map as argument no entry is checked: [SetMap] commits
    and returns nil although the owner contains the separator. *)
Lemma SetMap_empty_map_counterexample :
  Contains owner_with_sep fieldSep = true /\
  (HashMap2_SetMap tagEncode owner_with_sep [] (empty_store true)).1 = inr tt /\
  head (events (after (HashMap2_SetMap tagEncode owner_with_sep [])
                  (empty_store true))) = Some EvCommit.
Proof. vm_compute. auto. Qed.

Lemma SetMap_invalid_rolls_back_witness :
  exists e w',
    HashMap2_SetMap tagEncode "bob" [("x", "42"); (key_with_sep, "64")]
      (empty_store true) = (inl e, w') /\
    kvTable w' = kvTable (empty_store true) /\
    (exists evs, events w' = evs ++ events (empty_store true) /\
                 EvCommit ∉ evs) /\
    (is_Some (kvTable (empty_store true)) ->
     is_Some (propTable (empty_store true)) ->
     faults (empty_store true) = [] ->
     validation_error e /\ head (events w') = Some EvRollback /\
     txPending w' = None).
Proof.
  apply (SetMap_invalid_rolls_back tagEncode (empty_store true) "bob"
           [("x", "42"); (key_with_sep, "64")]).
  - discriminate.
  - right. exists (key_with_sep, "64"). split.
    + apply elem_of_cons. right. apply elem_of_cons. left. reflexivity.
    + vm_compute. reflexivity.
Defined.

(** [SetLargeMap] writes an owner that contains the separator; the
    composite key then also reads as owner "a" with the key "b¤c", which
    was never encountered. *)
Lemma SetLargeMap_separator_counterexample :
  index_covers (empty_store true) /\
  ~ index_covers (after (HashMap2_SetLargeMap tagEncode
                           [(owner_with_sep, [("c", "v")])]
                           [(owner_with_sep, [("c", "v")])])
                    (empty_store true)).
Proof.
  split.
  - apply index_covers_empty. reflexivity.
  - intros H. specialize (H "a" key_with_sep).
    assert (bool_decide
              (key_with_sep ∈
                 encountered (after (HashMap2_SetLargeMap tagEncode
                                       [(owner_with_sep, [("c", "v")])]
                                       [(owner_with_sep, [("c", "v")])])
                                (empty_store true))) = false) as Hnot
      by (vm_compute; reflexivity).
    apply bool_decide_eq_false in Hnot. apply Hnot, H.
    refine (bool_decide_unpack _ _). vm_compute. exact I.
Qed.

Lemma index_covers_preserved_witness :
  index_covers (after (HashMap2_Set tagEncode "bob" "password" "x")
                  (empty_store false)).
Proof.
  apply (index_covers_preserved tagEncode (empty_store false)).
  apply index_covers_empty. reflexivity.
Defined.

(** A key stored with the empty string: the read succeeds, [Has] answers
    false. *)
Lemma Has_empty_value_counterexample :
  (HashMap2_Get tagDecode "bob" "a" bob_holds_empty).1 = inr "" /\
  (HashMap2_Has tagDecode "bob" "a" bob_holds_empty).1 = inr false.
Proof. vm_compute. auto. Qed.

(** [bob] holds the key "a" (with the empty string), [Keys("bob")] is
    empty. *)
Lemma Keys_empty_value_counterexample :
  (exists t, kvTable bob_holds_empty = Some t /\
             t !! (("bob" +:+ fieldSep) +:+ "a") = Some "") /\
  (HashMap2_Keys tagDecode "bob" bob_holds_empty).1 = inr [].
Proof.
  split.
  - eexists. split; [vm_compute; reflexivity |]. vm_compute. reflexivity.
  - vm_compute. reflexivity.
Qed.

Lemma Count_distinct_owners_witness :
  HashMap2_Count sample_store =
    (inr (Z.of_nat (size (owners {[ ("bob" +:+ fieldSep) +:+ "a" := "1" ]}))),
     pop sample_store).
Proof.
  apply (proj1 (proj2 (Count_distinct_owners tagEncode sample_store)));
    reflexivity.
Defined.

Lemma All_first_split_prefixes_witness :
  exists l,
    HashMap2_All sample_store = (inr l, pop sample_store) /\ NoDup l /\
    forall o, o ∈ l <->
      exists ck rest,
        ck ∈ dom ({[ ("bob" +:+ fieldSep) +:+ "a" := "1" ]} : gmap string string)
        /\ first_split ck o rest.
Proof.
  apply (proj1 (All_first_split_prefixes sample_store)); reflexivity.
Defined.

Lemma Keys_held_nonempty_witness :
  exists l,
    HashMap2_Keys tagDecode "bob" sample_store = (inr l, sample_store) /\
    NoDup l /\
    (forall k, k ∈ l <->
       k ∈ ({[ "a" ]} : gset string) /\
       exists v,
         ({[ ("bob" +:+ fieldSep) +:+ "a" := "1" ]} : gmap string string)
           !! (("bob" +:+ fieldSep) +:+ k) = Some v /\
         loaded tagDecode sample_store v <> "") /\
    (index_covers sample_store ->
     forall k, k ∈ l <->
       exists v,
         ({[ ("bob" +:+ fieldSep) +:+ "a" := "1" ]} : gmap string string)
           !! (("bob" +:+ fieldSep) +:+ k) = Some v /\
         loaded tagDecode sample_store v <> "").
Proof.
  apply (Keys_held_nonempty tagDecode sample_store "bob"); reflexivity.
Defined.

Lemma DelKey_then_Has_witness :
  exists w1,
    HashMap2_DelKey "bob" "a" sample_store = (inr tt, w1) /\
    HashMap2_Has tagDecode "bob" "a" w1 = (inr false, w1) /\
    (HashMap2_AllEncounteredKeys w1).1 =
      (HashMap2_AllEncounteredKeys sample_store).1 /\
    forall s k, propTable sample_store = Some s -> k ∈ s ->
      exists l, HashMap2_AllEncounteredKeys w1 = (inr l, w1) /\ k ∈ l.
Proof.
  apply (proj2 (proj2 (DelKey_then_Has tagDecode sample_store "bob" "a"))).
  - simpl. eexists. reflexivity.
  - reflexivity.
Defined.

Lemma same_map_bulk : same_map bulk_first bulk_second.
Proof.
  exists [("bob", [("x", "2")]);
          (owner_with_sep, [(key_with_sep, "v"); ("x", "1")])].
  split; [apply perm_swap |].
  repeat constructor.
Qed.

(** A run in which the two passes range over the map in different
    orders: the additions follow the first order, the writes the
    second. *)
Lemma SetLargeMap_passes_in_two_orders :
  events (after (HashMap2_SetLargeMap tagEncode bulk_first bulk_second)
            (empty_store true)) =
    [EvCommit;
     EvWrite ((owner_with_sep +:+ fieldSep) +:+ key_with_sep) "v";
     EvWrite ((owner_with_sep +:+ fieldSep) +:+ "x") "1";
     EvWrite (("bob" +:+ fieldSep) +:+ "x") "2";
     EvBegin; EvPropAdd "x"; EvPropAdd key_with_sep].
Proof. vm_compute. reflexivity. Qed.

Lemma SetLargeMap_unchecked_bulk_witness :
  (HashMap2_SetLargeMap tagEncode bulk_first bulk_second
     (empty_store false)).1 = inr tt /\
  (forall k, k ∈ keys_of bulk_first <-> k ∈ keys_of bulk_second) /\
  writes_of tagEncode (empty_store false) bulk_first ≡ₚ
    writes_of tagEncode (empty_store false) bulk_second.
Proof.
  destruct (SetLargeMap_unchecked_bulk tagEncode bulk_first bulk_second
              (empty_store false))
    as (r & w' & Hrun & _ & _ & _ & _ & Hok & Hsame).
  rewrite Hrun. split.
  - simpl. apply Hok.
    + reflexivity.
    + simpl. eexists. reflexivity.
    + simpl. eexists. reflexivity.
  - apply Hsame. exact same_map_bulk.
Defined.

Lemma Remove_Clear_report_data_table_only_witness :
  Set_Remove index_dropped = (inl BackingStoreError, index_dropped) /\
  HashMap2_Remove index_dropped = (inr tt, set_kvTable None index_dropped).
Proof.
  split; [reflexivity |].
  apply (proj1 (Remove_Clear_report_data_table_only index_dropped)
           (inl BackingStoreError) index_dropped (inr tt)
           (set_kvTable None index_dropped)); reflexivity.
Defined.

(** ** Sample runs of the further properties *)

Lemma Exists_iff_Has_witness :
  exists b l,
    HashMap2_Exists tagDecode "bob" sample_store = (inr b, sample_store) /\
    HashMap2_Keys tagDecode "bob" sample_store = (inr l, sample_store) /\
    (b = true <-> l <> []) /\
    (b = true <->
       exists k, k ∈ ({[ "a" ]} : gset string) /\
                 HashMap2_Has tagDecode "bob" k sample_store
                   = (inr true, sample_store)) /\
    (index_covers sample_store ->
     (b = true <->
        exists k, HashMap2_Has tagDecode "bob" k sample_store
                    = (inr true, sample_store))).
Proof.
  apply (Exists_iff_Has tagDecode sample_store "bob"
           {[ ("bob" +:+ fieldSep) +:+ "a" := "1" ]} {[ "a" ]});
    reflexivity.
Defined.

Lemma AllWhere_owners_with_value_witness :
  exists l all,
    HashMap2_AllWhere tagDecode "a" "1" sample_store = (inr l, sample_store) /\
    HashMap2_All sample_store = (inr all, sample_store) /\
    NoDup l /\
    forall o, o ∈ l <->
      o ∈ all /\
      HashMap2_Get tagDecode o "a" sample_store = (inr "1", sample_store).
Proof.
  apply (AllWhere_owners_with_value tagDecode sample_store "a" "1"
           {[ ("bob" +:+ fieldSep) +:+ "a" := "1" ]});
    reflexivity.
Defined.

Lemma GetMap_results_witness :
  exists res w',
    HashMap2_GetMap tagDecode "bob" ["a"] sample_store
      = (inr (res, None), w') /\
    txPending w' = None /\
    events w' = EvCommit :: EvBegin :: events sample_store /\
    forall k, res !! k =
      if decide (k ∈ ["a"])
      then loaded tagDecode sample_store <$>
             ({[ ("bob" +:+ fieldSep) +:+ "a" := "1" ]} : gmap string string)
               !! (("bob" +:+ fieldSep) +:+ k)
      else None.
Proof.
  apply (proj1 (proj2 (GetMap_results tagDecode sample_store "bob" ["a"]))).
  - reflexivity.
  - reflexivity.
  - intros k ->%list_elem_of_singleton. vm_compute. eexists. reflexivity.
Defined.

Lemma Count_bounds_witness :
  exists n,
    HashMap2_Count sample_store = (inr n, pop sample_store) /\
    0 <= n <= Z.of_nat (size ({[ ("bob" +:+ fieldSep) +:+ "a" := "1" ]}
                                : gmap string string)) /\
    (n = 0 <-> HashMap2_All sample_store = (inr [], pop sample_store)).
Proof.
  apply (proj2 (Count_bounds sample_store)); reflexivity.
Defined.

Lemma SetMap_all_or_nothing_witness :
  exists r w',
    HashMap2_SetMap tagEncode "bob" [("x", "1")] (empty_store true) = (r, w') /\
    match r with
    | inl _ => kvTable w' = kvTable (empty_store true)
    | inr _ =>
        forallb (valid_entry "bob") [("x", "1")] = true /\
        kvTable w' =
          apply_writes
            ((fun kv => composite tagEncode "bob" kv (empty_store true))
               <$> [("x", "1")])
            <$> kvTable (empty_store true) /\
        ([("x", "1")] <> [] -> is_Some (kvTable (empty_store true)))
    end.
Proof.
  apply (SetMap_all_or_nothing tagEncode (empty_store true) "bob" [("x", "1")]).
Defined.

Lemma SetMap_rollback_keeps_new_keys_witness :
  exists e w',
    HashMap2_SetMap tagEncode "bob" ([("x", "42")] ++ (key_with_sep, "64") :: [])
      (empty_store true) = (inl e, w') /\
    validation_error e /\
    kvTable w' = Some ∅ /\ txPending w' = None /\
    head (events w') = Some EvRollback /\
    propTable w' = Some (list_to_set [("x", "42")].*1 ∪ ∅).
Proof.
  apply (proj2 (SetMap_rollback_keeps_new_keys tagEncode (empty_store true)
                  "bob" [("x", "42")] [] (key_with_sep, "64")
                  ltac:(vm_compute; reflexivity)
                  ltac:(vm_compute; reflexivity)) ∅ ∅).
  - reflexivity.
  - reflexivity.
  - reflexivity.
Defined.

Lemma Set_twice_witness :
  exists w1 w2,
    HashMap2_Set tagEncode "bob" "password" "x" (empty_store false)
      = (inr tt, w1) /\
    HashMap2_Set tagEncode "bob" "password" "x" w1 = (inr tt, w2) /\
    kvTable w1 =
      Some (<[("bob" +:+ fieldSep) +:+ "password" :=
                stored tagEncode (empty_store false) "x"]> ∅) /\
    propTable w1 = Some ({[ "password" ]} ∪ ∅) /\
    kvTable w2 = kvTable w1 /\ propTable w2 = propTable w1.
Proof.
  apply (Set_twice tagEncode (empty_store false) "bob" "password" "x" ∅ ∅).
  - reflexivity.
  - reflexivity.
  - reflexivity.
  - vm_compute. reflexivity.
  - vm_compute. reflexivity.
Defined.

Lemma SetMap_then_Get_witness :
  exists w1,
    HashMap2_SetMap tagEncode "bob" [("x", "1"); ("y", "2")] (empty_store false)
      = (inr tt, w1) /\
    (forall k v, (k, v) ∈ [("x", "1"); ("y", "2")] ->
       HashMap2_Get tagDecode "bob" k w1 = (inr v, w1)) /\
    (forall o k, (o = "bob" -> k ∉ [("x", "1"); ("y", "2")].*1) ->
       (HashMap2_Get tagDecode o k w1).1 =
       (HashMap2_Get tagDecode o k (empty_store false)).1).
Proof.
  apply (SetMap_then_Get tagEncode tagDecode (empty_store false) "bob"
           [("x", "1"); ("y", "2")] ∅ ∅).
  - reflexivity.
  - reflexivity.
  - reflexivity.
  - vm_compute. reflexivity.
  - refine (bool_decide_unpack _ _). vm_compute. exact I.
  - intros _ k v _. reflexivity.
Defined.

Lemma SetMap_then_GetMap_witness :
  exists w1 w2,
    HashMap2_SetMap tagEncode "bob" [("x", "1"); ("y", "2")] (empty_store false)
      = (inr tt, w1) /\
    HashMap2_GetMap tagDecode "bob" [("x", "1"); ("y", "2")].*1 w1
      = (inr (list_to_map [("x", "1"); ("y", "2")], None), w2) /\
    kvTable w2 = kvTable w1.
Proof.
  apply (SetMap_then_GetMap tagEncode tagDecode (empty_store false) "bob"
           [("x", "1"); ("y", "2")] ∅ ∅).
  - reflexivity.
  - reflexivity.
  - reflexivity.
  - vm_compute. reflexivity.
  - refine (bool_decide_unpack _ _). vm_compute. exact I.
  - intros _ k v _. reflexivity.
Defined.

Lemma Set_makes_visible_witness :
  exists w1 os ps ks,
    HashMap2_Set tagEncode "bob" "password" "x" (empty_store false)
      = (inr tt, w1) /\
    HashMap2_All w1 = (inr os, w1) /\ "bob" ∈ os /\
    HashMap2_AllEncounteredKeys w1 = (inr ps, w1) /\ "password" ∈ ps /\
    HashMap2_Has tagDecode "bob" "password" w1
      = (inr (bool_decide ("x" <> "")), w1) /\
    HashMap2_Keys tagDecode "bob" w1 = (inr ks, w1) /\
    ("password" ∈ ks <-> "x" <> "") /\
    ("x" <> "" -> HashMap2_Exists tagDecode "bob" w1 = (inr true, w1)).
Proof.
  apply (Set_makes_visible tagEncode tagDecode (empty_store false)
           "bob" "password" "x" ∅ ∅).
  - reflexivity.
  - reflexivity.
  - reflexivity.
  - vm_compute. reflexivity.
  - vm_compute. reflexivity.
  - intros _. reflexivity.
Defined.

Lemma Del_removes_owner_witness :
  exists w' t',
    HashMap2_Del "bob" sample_store = (inr tt, w') /\
    propTable w' = Some {[ "a" ]} /\ kvTable w' = Some t' /\
    (forall ck, t' !! ck =
       if bool_decide
            (ck ∈ (fun k => ("bob" +:+ fieldSep) +:+ k)
                    <$> elements ({[ "a" ]} : gset string))
       then None
       else ({[ ("bob" +:+ fieldSep) +:+ "a" := "1" ]} : gmap string string)
              !! ck) /\
    HashMap2_Keys tagDecode "bob" w' = (inr [], w') /\
    HashMap2_Exists tagDecode "bob" w' = (inr false, w') /\
    (index_covers sample_store ->
     (forall k, HashMap2_Has tagDecode "bob" k w' = (inr false, w')) /\
     exists os, HashMap2_All w' = (inr os, w') /\ "bob" ∉ os).
Proof.
  apply (Del_removes_owner tagDecode sample_store "bob"); reflexivity.
Defined.

Lemma DelKey_only_that_row_witness :
  exists w',
    HashMap2_DelKey "bob" "a" sample_store = (inr tt, w') /\
    kvTable w' =
      Some (delete (("bob" +:+ fieldSep) +:+ "a")
              ({[ ("bob" +:+ fieldSep) +:+ "a" := "1" ]}
                 : gmap string string)) /\
    HashMap2_Get tagDecode "bob" "a" w' = (inl NotFound, w') /\
    (forall o k,
       (o +:+ fieldSep) +:+ k <> ("bob" +:+ fieldSep) +:+ "a" ->
       (HashMap2_Get tagDecode o k w').1 =
       (HashMap2_Get tagDecode o k sample_store).1) /\
    (Contains "bob" fieldSep = false -> Contains "a" fieldSep = false ->
     forall o k, (o, k) <> ("bob", "a") ->
       (HashMap2_Get tagDecode o k w').1 =
       (HashMap2_Get tagDecode o k sample_store).1).
Proof.
  apply (DelKey_only_that_row tagDecode sample_store "bob" "a"); reflexivity.
Defined.

Lemma Clear_resets_witness :
  exists w',
    HashMap2_Clear sample_store = (inr tt, w') /\
    kvTable w' = Some ∅ /\ propTable w' = Some ∅ /\
    HashMap2_All w' = (inr [], w') /\
    HashMap2_Count w' = (inr 0, w') /\
    HashMap2_AllEncounteredKeys w' = (inr [], w') /\
    forall owner,
      HashMap2_Keys tagDecode owner w' = (inr [], w') /\
      HashMap2_Exists tagDecode owner w' = (inr false, w') /\
      forall key,
        HashMap2_Get tagDecode owner key w' = (inl NotFound, w') /\
        HashMap2_Has tagDecode owner key w' = (inr false, w').
Proof.
  apply (Clear_resets tagDecode sample_store).
  - reflexivity.
  - simpl. eexists. reflexivity.
  - simpl. eexists. reflexivity.
Defined.

Lemma SetLargeMap_then_Get_witness :
  exists w1,
    HashMap2_SetLargeMap tagEncode
      [("alice", [("x", "2")]); ("bob", [("x", "1")])]
      [("bob", [("x", "1")]); ("alice", [("x", "2")])] (empty_store false)
      = (inr tt, w1) /\
    (forall o pm k v,
       (o, pm) ∈ [("bob", [("x", "1")]); ("alice", [("x", "2")])] ->
       (k, v) ∈ pm ->
       HashMap2_Get tagDecode o k w1 = (inr v, w1)) /\
    (forall o k,
       (o +:+ fieldSep) +:+ k ∉
         (fun ok => (ok.1 +:+ fieldSep) +:+ ok.2) <$>
           pairs_of [("bob", [("x", "1")]); ("alice", [("x", "2")])] ->
       (HashMap2_Get tagDecode o k w1).1 =
       (HashMap2_Get tagDecode o k (empty_store false)).1).
Proof.
  apply (SetLargeMap_then_Get tagEncode tagDecode (empty_store false)
           [("alice", [("x", "2")]); ("bob", [("x", "1")])]
           [("bob", [("x", "1")]); ("alice", [("x", "2")])] ∅ ∅).
  - reflexivity.
  - reflexivity.
  - reflexivity.
  - refine (bool_decide_unpack _ _). vm_compute. exact I.
  - intros _ o pm k v _ _. reflexivity.
Defined.

Lemma Del_in_every_run_witness :
  exists r w',
    HashMap2_Del "bob" failing_store = (r, w') /\
    propTable w' = propTable failing_store /\
    (r = inr tt \/ r = inl BackingStoreError) /\
    (kvTable failing_store = None -> kvTable w' = None) /\
    forall t, kvTable failing_store = Some t ->
      exists t', kvTable w' = Some t' /\
        (forall ck, t' !! ck = None \/ t' !! ck = t !! ck) /\
        (forall ck,
           (forall k, k ∈ encountered failing_store ->
                      ck <> ("bob" +:+ fieldSep) +:+ k) ->
           t' !! ck = t !! ck) /\
        (r = inr tt ->
         forall k, k ∈ encountered failing_store ->
                   t' !! (("bob" +:+ fieldSep) +:+ k) = None).
Proof. apply (Del_in_every_run failing_store "bob"). Defined.

Lemma Del_stops_at_failure_witness :
  exists w' t',
    HashMap2_Del "bob" failing_store = (inl BackingStoreError, w') /\
    propTable w' = Some {[ "a"; "b" ]} /\ kvTable w' = Some t' /\
    (forall k1, k1 ∈ ["a"] -> t' !! (("bob" +:+ fieldSep) +:+ k1) = None) /\
    (forall k2, k2 = "b" \/ k2 ∈ [] ->
       t' !! (("bob" +:+ fieldSep) +:+ k2) =
       bob_table !! (("bob" +:+ fieldSep) +:+ k2)) /\
    (forall ck, ck ∉ (fun k => ("bob" +:+ fieldSep) +:+ k) <$> ["a"] ->
       t' !! ck = bob_table !! ck).
Proof.
  apply (Del_stops_at_failure failing_store "bob" bob_table {[ "a"; "b" ]}
           ["a"] [] "b" []).
  - reflexivity.
  - reflexivity.
  - vm_compute. reflexivity.
  - reflexivity.
Defined.

Lemma Set_adds_one_owner_witness :
  exists w1 os os' ps ps',
    HashMap2_Set tagEncode "alice" "b" "x" sample_store = (inr tt, w1) /\
    HashMap2_All sample_store = (inr os, sample_store) /\
    HashMap2_All w1 = (inr os', w1) /\
    (forall o, o ∈ os' <-> o = "alice" \/ o ∈ os) /\
    HashMap2_Count sample_store = (inr (Z.of_nat (length os)), sample_store) /\
    HashMap2_Count w1 =
      (inr (if bool_decide ("alice" ∈ os) then Z.of_nat (length os)
            else Z.of_nat (length os) + 1), w1) /\
    HashMap2_AllEncounteredKeys sample_store = (inr ps, sample_store) /\
    HashMap2_AllEncounteredKeys w1 = (inr ps', w1) /\
    (forall k, k ∈ ps' <-> k = "b" \/ k ∈ ps).
Proof.
  apply (Set_adds_one_owner tagEncode sample_store "alice" "b" "x"
           {[ ("bob" +:+ fieldSep) +:+ "a" := "1" ]} {[ "a" ]}).
  - reflexivity.
  - reflexivity.
  - reflexivity.
  - vm_compute. reflexivity.
  - vm_compute. reflexivity.
Defined.
